(** * wtfk: the schema pipeline core, embedded from the Python sources

    The development follows the four components of the pipeline:
    - [Extract]   step_01_extract_schema.py  (DDL extractor, a line filter)
    - [Compress]  02_compress_schema.py      (DDL parser and compact serializer)
    - [Context]   03_generate_context.py     (compact-notation parser, statistics)

    Python [str] values are modelled as [string] over 8-bit characters;
    whitespace, case mapping and the regex classes [\w], [\s], [\d] are the
    ASCII ones.  Ordered dictionaries are association lists, counters and
    [defaultdict(int)] are [gmap string nat]. *)

From Stdlib Require Import Ascii String NArith.
From stdpp Require Import gmap strings list fin_maps sorting.

(** ** Python string primitives *)
Module Str.

Definition nl : ascii := "010"%char.
Definition is_space (c : ascii) : bool := Ascii.is_space c.

Definition in_range (lo hi : N) (c : ascii) : bool :=
  let n := N_of_ascii c in (N.leb lo n) && (N.leb n hi).
Definition is_upper_char (c : ascii) : bool := in_range 65 90 c.
Definition is_lower_char (c : ascii) : bool := in_range 97 122 c.
Definition is_digit (c : ascii) : bool := in_range 48 57 c.
(** the regex class [\w] *)
Definition is_word (c : ascii) : bool :=
  is_upper_char c || is_lower_char c || is_digit c || bool_decide (c = "_"%char).

Definition upper_char (c : ascii) : ascii :=
  if is_lower_char c then ascii_of_N (N_of_ascii c - 32) else c.
Definition lower_char (c : ascii) : ascii :=
  if is_upper_char c then ascii_of_N (N_of_ascii c + 32) else c.

Fixpoint map_chars (f : ascii → ascii) (s : string) : string :=
  match s with
  | "" => ""
  | String c s' => String (f c) (map_chars f s')
  end.
(** [s.upper()], [s.lower()] *)
Definition upper : string → string := map_chars upper_char.
Definition lower : string → string := map_chars lower_char.

Fixpoint all_chars (p : ascii → bool) (s : string) : bool :=
  match s with
  | "" => true
  | String c s' => p c && all_chars p s'
  end.

(** [s.startswith(p)], returning the rest of [s] on success *)
Fixpoint strip_prefix (p s : string) : option string :=
  match p, s with
  | "", _ => Some s
  | String a p', String b s' => if bool_decide (a = b) then strip_prefix p' s' else None
  | String _ _, "" => None
  end.
Definition startswith (p s : string) : bool := bool_decide (is_Some (strip_prefix p s)).

(** [p in s] *)
Fixpoint contains (p s : string) : bool :=
  startswith p s ||
  match s with
  | "" => false
  | String _ s' => contains p s'
  end.

(** [s.endswith(p)] *)
Fixpoint endswith (p s : string) : bool :=
  bool_decide (s = p) ||
  match s with
  | "" => false
  | String _ s' => endswith p s'
  end.

Fixpoint lstrip_by (p : ascii → bool) (s : string) : string :=
  match s with
  | "" => ""
  | String c s' => if p c then lstrip_by p s' else s
  end.
Fixpoint rstrip_by (p : ascii → bool) (s : string) : string :=
  match s with
  | "" => ""
  | String c s' =>
      match rstrip_by p s' with
      | "" => if p c then "" else String c ""
      | r => String c r
      end
  end.
Definition strip_by (p : ascii → bool) (s : string) : string := rstrip_by p (lstrip_by p s).
(** [s.strip()] *)
Definition strip : string → string := strip_by is_space.
Definition is_char (a c : ascii) : bool := bool_decide (c = a).
(** [s.rstrip(a)], [s.strip(a)] for a one-character argument *)
Definition rstrip_char (a : ascii) : string → string := rstrip_by (is_char a).
Definition strip_char (a : ascii) : string → string := strip_by (is_char a).

(** [s.split()] : the whitespace-separated words of [s] *)
Fixpoint split_ws (s : string) : list string :=
  match s with
  | "" => []
  | String c s' =>
      if is_space c then split_ws s'
      else match s' with
           | "" => [String c ""]
           | String c' _ =>
               if is_space c' then String c "" :: split_ws s'
               else match split_ws s' with
                    | w :: ws => String c w :: ws
                    | [] => [String c ""]
                    end
           end
  end.

(** [s.split(sep)] for a one-character separator, as first field and the
    remaining fields: the result of Python's [split] is never empty. *)
Fixpoint split_fields (sep : ascii) (s : string) : string * list string :=
  match s with
  | "" => ("", [])
  | String c s' =>
      let '(w, ws) := split_fields sep s' in
      if bool_decide (c = sep) then ("", w :: ws) else (String c w, ws)
  end.
Definition split_on (sep : ascii) (s : string) : list string :=
  let '(w, ws) := split_fields sep s in w :: ws.

(** [s.split(sep, 1)] *)
Fixpoint split_once (sep : ascii) (s : string) : string * option string :=
  match s with
  | "" => ("", None)
  | String c s' =>
      if bool_decide (c = sep) then ("", Some s')
      else let '(w, r) := split_once sep s' in (String c w, r)
  end.

(** [sep.join(l)] *)
Fixpoint join (sep : string) (l : list string) : string :=
  match l with
  | [] => ""
  | [x] => x
  | x :: l' => x +:+ sep +:+ join sep l'
  end.

(** [s[:n]] *)
Fixpoint take (n : nat) (s : string) : string :=
  match n, s with
  | S n', String c s' => String c (take n' s')
  | _, _ => ""
  end.

Definition nonempty (s : string) : bool := negb (bool_decide (s = "")).

End Str.

(** ** The fragment of [re] used by the sources

    Every pattern of the sources is built from literals, [c+] over a
    character class, sequencing, [?], [|] and numbered capture groups.
    Matching is Python's backtracking search: greedy, leftmost. *)
Module Re.
Import Str.

Inductive regex :=
| Lit (s : string)
| Plus (p : ascii → bool)
| Seq (r1 r2 : regex)
| Opt (r : regex)
| Alt (r1 r2 : regex)
| Grp (n : nat) (r : regex).

Abbreviation groups := (gmap nat string).

(** [c+] : as many characters as possible first, then fewer *)
Fixpoint plus_rest {A} (p : ascii → bool) (s : string) (k : string → option A) : option A :=
  match s with
  | String c s' =>
      if p c then
        match plus_rest p s' k with
        | Some a => Some a
        | None => k s
        end
      else k s
  | "" => k s
  end.

Fixpoint rmatch {A} (r : regex) (s : string) (g : groups)
    (k : string → groups → option A) : option A :=
  match r with
  | Lit l => match strip_prefix l s with Some s' => k s' g | None => None end
  | Plus p =>
      match s with
      | String c s' => if p c then plus_rest p s' (λ s'', k s'' g) else None
      | "" => None
      end
  | Seq r1 r2 => rmatch r1 s g (λ s' g', rmatch r2 s' g' k)
  | Opt r' =>
      match rmatch r' s g k with
      | Some a => Some a
      | None => k s g
      end
  | Alt r1 r2 =>
      match rmatch r1 s g k with
      | Some a => Some a
      | None => rmatch r2 s g k
      end
  | Grp n r' =>
      rmatch r' s g (λ s' g', k s' (<[n := take (String.length s - String.length s') s]> g'))
  end.

(** a match at the start of [s]: the groups and the text after the match *)
Definition match_here (r : regex) (s : string) : option (groups * string) :=
  rmatch r s ∅ (λ s' g, Some (g, s')).

(** [re.search(r, s)], giving the groups of the leftmost match *)
Fixpoint search (r : regex) (s : string) : option groups :=
  match match_here r s with
  | Some (g, _) => Some g
  | None =>
      match s with
      | "" => None
      | String _ s' => search r s'
      end
  end.

(** [m.group(n)]; a group that took no part in the match is [None] *)
Definition group (n : nat) (g : groups) : option string := g !! n.
(** [m.group(n)] of a group that the pattern always sets *)
Definition group_str (n : nat) (g : groups) : string := default "" (g !! n).

(** [re.sub(r, repl, s)] for a pattern that matches no empty text *)
Fixpoint sub_go (fuel : nat) (r : regex) (repl s : string) : string :=
  match fuel with
  | O => s
  | S fuel' =>
      match match_here r s with
      | Some (_, rest) => repl +:+ sub_go fuel' r repl rest
      | None =>
          match s with
          | "" => ""
          | String c s' => String c (sub_go fuel' r repl s')
          end
      end
  end.
Definition sub (r : regex) (repl s : string) : string :=
  sub_go (S (String.length s)) r repl s.

Definition not_in (cs : list ascii) (c : ascii) : bool := negb (bool_decide (c ∈ cs)).
Definition lp : ascii := "("%char.
Definition rp : ascii := ")"%char.
Definition comma : ascii := ","%char.
(** the class [[^)]] *)
Definition not_rp : ascii → bool := not_in [rp].
(** the class [[^,\s]] *)
Definition not_comma_space (c : ascii) : bool := negb (is_char comma c) && negb (is_space c).

(** a pattern written as the sequence of its parts *)
Fixpoint cat (l : list regex) : regex :=
  match l with
  | [] => Lit ""
  | [r] => r
  | r :: l' => Seq r (cat l')
  end.

End Re.

(** ** Insertion-ordered dictionaries ([OrderedDict], [dict]) *)
Module Dict.

Section Ops.
Context {V : Type}.

Fixpoint get (k : string) (d : list (string * V)) : option V :=
  match d with
  | [] => None
  | (k', v) :: d' => if bool_decide (k' = k) then Some v else get k d'
  end.

Definition keys (d : list (string * V)) : list string := d.*1.
Definition values (d : list (string * V)) : list V := d.*2.
(** [k in d] *)
Definition mem (k : string) (d : list (string * V)) : bool := bool_decide (k ∈ keys d).

(** [d[k] = v] : an existing key keeps its position, a new key goes last *)
Fixpoint set (k : string) (v : V) (d : list (string * V)) : list (string * V) :=
  match d with
  | [] => [(k, v)]
  | (k', v') :: d' => if bool_decide (k' = k) then (k, v) :: d' else (k', v') :: set k v d'
  end.

(** in-place mutation of the value stored under [k] *)
Fixpoint alter (f : V → V) (k : string) (d : list (string * V)) : list (string * V) :=
  match d with
  | [] => []
  | (k', v) :: d' => if bool_decide (k' = k) then (k', f v) :: d' else (k', v) :: alter f k d'
  end.
End Ops.

End Dict.

(** ** step_01_extract_schema.py : the DDL extractor *)
Module Extract.
Import Str.

Definition is_insert_statement (line : string) : bool :=
  let line_stripped := upper (strip line) in
  if startswith "INSERT INTO" line_stripped then true
  else if startswith "COPY " line_stripped && contains " FROM " line_stripped then true
  else false.

(** the loop state of [extract_schema] *)
Record state := {
  schema_lines : list string;
  in_copy_block : bool;
  in_insert_block : bool
}.

Definition init : state :=
  {| schema_lines := []; in_copy_block := false; in_insert_block := false |}.

(** one iteration of [for i, line in enumerate(lines)] *)
Definition step (st : state) (line : string) : state :=
  let line_stripped := upper (strip line) in
  if startswith "COPY " line_stripped then
    {| schema_lines := schema_lines st; in_copy_block := true;
       in_insert_block := in_insert_block st |}
  else if in_copy_block st then
    {| schema_lines := schema_lines st;
       in_copy_block := negb (bool_decide (line_stripped = "\."));
       in_insert_block := in_insert_block st |}
  else if startswith "INSERT INTO" line_stripped then
    {| schema_lines := schema_lines st; in_copy_block := in_copy_block st;
       in_insert_block := true |}
  else if in_insert_block st then
    {| schema_lines := schema_lines st; in_copy_block := in_copy_block st;
       in_insert_block := negb (endswith ";" line_stripped) |}
  else if is_insert_statement line then st
  else
    {| schema_lines := schema_lines st ++ [line]; in_copy_block := in_copy_block st;
       in_insert_block := in_insert_block st |}.

(** the lines written to the output file *)
Definition extract_schema (lines : list string) : list string :=
  schema_lines (fold_left step lines init).

End Extract.

(** ** 02_compress_schema.py : the DDL parser and compact serializer *)
Module Compress.
Import Str Re.

(** *** Data model *)

Record column_info := {
  col_type : string;
  not_null : bool;
  default : option string;
  auto_pk : bool   (* the key ['auto_pk'] is absent until the post-pass sets it *)
}.

(** the constraint dictionaries, tagged by their ['type'] *)
Inductive constraint :=
| PRIMARY_KEY (columns : list string)
| FOREIGN_KEY (columns : list string) (ref_table : string)
              (ref_columns : list string) (deferrable : bool)
| UNIQUE (columns : list string).

Record index_info := {
  idx_name : string;
  idx_columns : list string;
  idx_unique : bool;
  idx_like_ops : bool
}.

Record table_info := {
  columns : list (string * column_info);
  constraints : list constraint;
  indexes : list index_info
}.

(** what the parser prints when [debug] is set *)
Inductive diag :=
| NoTableMatch (line : string)
| TableNotFound (table_name : string) (available : list string)
| AddedFK (table_name : string) (local_cols : list string)
          (ref_table : string) (ref_cols : list string)
| FKRegexFailed (line : string)
| IndexRegexFailed (line : string)
| ProcessingIndex (index_name table_name : string)
| AvailableTables (available : list string)
| IndexTableNotFound (table_name : string)
| AddedIndex (index_name : string) (columns : list string) (like_ops : bool)
| IndexColumnsFailed (line : string).

Record SchemaCompressor := {
  tables : list (string * table_info);
  sequences : list (string * option (string * string));
  default_owner : option string;
  default_schema : string;
  current_table : option string;
  debug : bool;
  printed : list diag
}.

Definition new (debug : bool) : SchemaCompressor :=
  {| tables := []; sequences := []; default_owner := None; default_schema := "public";
     current_table := None; debug := debug; printed := [] |}.

Global Instance constraint_eq_dec : EqDecision constraint.
Proof. solve_decision. Defined.

Definition with_tables (f : list (string * table_info) → list (string * table_info))
    (s : SchemaCompressor) : SchemaCompressor :=
  {| tables := f (tables s); sequences := sequences s; default_owner := default_owner s;
     default_schema := default_schema s; current_table := current_table s;
     debug := debug s; printed := printed s |}.
Definition with_sequences
    (f : list (string * option (string * string)) → list (string * option (string * string)))
    (s : SchemaCompressor) : SchemaCompressor :=
  {| tables := tables s; sequences := f (sequences s); default_owner := default_owner s;
     default_schema := default_schema s; current_table := current_table s;
     debug := debug s; printed := printed s |}.
Definition with_owner (o : option string) (s : SchemaCompressor) : SchemaCompressor :=
  {| tables := tables s; sequences := sequences s; default_owner := o;
     default_schema := default_schema s; current_table := current_table s;
     debug := debug s; printed := printed s |}.
Definition with_current (t : string) (s : SchemaCompressor) : SchemaCompressor :=
  {| tables := tables s; sequences := sequences s; default_owner := default_owner s;
     default_schema := default_schema s; current_table := Some t;
     debug := debug s; printed := printed s |}.
(** [if self.debug: print(...)] *)
Definition debug_print (d : diag) (s : SchemaCompressor) : SchemaCompressor :=
  if debug s then
    {| tables := tables s; sequences := sequences s; default_owner := default_owner s;
       default_schema := default_schema s; current_table := current_table s;
       debug := debug s; printed := printed s ++ [d] |}
  else s.

Definition add_constraint (c : constraint) (t : table_info) : table_info :=
  {| columns := columns t; constraints := constraints t ++ [c]; indexes := indexes t |}.
Definition add_index (i : index_info) (t : table_info) : table_info :=
  {| columns := columns t; constraints := constraints t; indexes := indexes t ++ [i] |}.
Definition set_column (name : string) (c : column_info) (t : table_info) : table_info :=
  {| columns := Dict.set name c (columns t); constraints := constraints t;
     indexes := indexes t |}.

(** *** The patterns *)

Definition qualified (n1 n2 : nat) : list regex :=
  [Opt (Grp n1 (Seq (Plus is_word) (Lit "."))); Grp n2 (Plus is_word)].
(** [OWNER TO (\w+)] *)
Definition re_owner := cat [Lit "OWNER TO "; Grp 1 (Plus is_word)].
(** [CREATE TABLE (\w+\.)?(\w+)] *)
Definition re_create_table := cat (Lit "CREATE TABLE " :: qualified 1 2).
(** [CREATE SEQUENCE (\w+\.)?(\w+)] *)
Definition re_create_sequence := cat (Lit "CREATE SEQUENCE " :: qualified 1 2).
(** [ALTER SEQUENCE (\w+\.)?(\w+) OWNED BY (\w+\.)?(\w+)\.(\w+)] *)
Definition re_owned_by :=
  cat (Lit "ALTER SEQUENCE " :: qualified 1 2 ++ Lit " OWNED BY " :: qualified 3 4
       ++ [Lit "."; Grp 5 (Plus is_word)]).
(** [ALTER TABLE (?:ONLY )?(\w+\.)?(\w+)] *)
Definition re_alter_table := cat (Lit "ALTER TABLE " :: Opt (Lit "ONLY ") :: qualified 1 2).
(** [PRIMARY KEY \(([^)]+)\)] *)
Definition re_primary_key := cat [Lit "PRIMARY KEY ("; Grp 1 (Plus not_rp); Lit ")"].
(** [FOREIGN KEY \(([^)]+)\) REFERENCES (\w+\.)?(\w+)\(([^)]+)\)] *)
Definition re_foreign_key :=
  cat (Lit "FOREIGN KEY (" :: Grp 1 (Plus not_rp) :: Lit ") REFERENCES " :: qualified 2 3
       ++ [Lit "("; Grp 4 (Plus not_rp); Lit ")"]).
(** [UNIQUE \(([^)]+)\)] *)
Definition re_unique := cat [Lit "UNIQUE ("; Grp 1 (Plus not_rp); Lit ")"].
(** [CREATE (?:UNIQUE )?INDEX (\w+) ON (\w+\.)?(\w+)] *)
Definition re_create_index :=
  cat (Lit "CREATE " :: Opt (Lit "UNIQUE ") :: Lit "INDEX " :: Grp 1 (Plus is_word)
       :: Lit " ON " :: qualified 2 3).
(** [USING \w+ \(([^)]+)\)] *)
Definition re_using :=
  cat [Lit "USING "; Plus is_word; Lit " ("; Grp 1 (Plus not_rp); Lit ")"].
(** [\s+varchar_pattern_ops|\s+text_pattern_ops] *)
Definition re_pattern_ops :=
  Alt (Seq (Plus is_space) (Lit "varchar_pattern_ops"))
      (Seq (Plus is_space) (Lit "text_pattern_ops")).
(** [DEFAULT\s+([^,\s]+)] *)
Definition re_default := cat [Lit "DEFAULT"; Plus is_space; Grp 1 (Plus not_comma_space)].
(** the four patterns of [_simplify_type] *)
Definition re_varchar := cat [Lit "character varying("; Plus is_digit; Lit ")"].
Definition re_char := cat [Lit "character("; Plus is_digit; Lit ")"].
Definition re_timestamptz := Lit "timestamp with time zone".
Definition re_timestamp := Lit "timestamp without time zone".

(** [[col.strip() for col in text.split(',')]] *)
Definition column_list (text : string) : list string := strip <$> split_on comma text.

(** *** Statement parsers *)

Definition _simplify_type (col_type : string) : string :=
  let col_type := sub re_varchar "varchar" col_type in
  let col_type := sub re_char "char" col_type in
  let col_type := sub re_timestamptz "timestamptz" col_type in
  let col_type := sub re_timestamp "timestamp" col_type in
  col_type.

Definition inline_constraint_keywords : list string :=
  ["CONSTRAINT"; "PRIMARY KEY"; "FOREIGN KEY"; "UNIQUE"; "CHECK"].

Definition _parse_column_definition (line table_name : string)
    (s : SchemaCompressor) : SchemaCompressor :=
  let line := rstrip_char comma line in
  if existsb (λ keyword, contains keyword (upper line)) inline_constraint_keywords then s
  else
    match split_ws line with
    | col_name :: col_type :: _ =>
        let col_type := _simplify_type col_type in
        let not_null := contains "NOT NULL" (upper line) in
        let default_value :=
          if contains "DEFAULT" (upper line) then
            match search re_default (upper line) with
            | Some m => group 1 m
            | None => None
            end
          else None in
        with_tables
          (Dict.alter
             (set_column col_name
                {| col_type := col_type; not_null := not_null;
                   default := default_value; auto_pk := false |})
             table_name) s
    | _ => s
    end.

(** the [while] loop of [_parse_create_table] over [lines[i:]] *)
Fixpoint table_body (rest : list string) (i : nat) (table_name : string)
    (s : SchemaCompressor) : nat * SchemaCompressor :=
  match rest with
  | [] => (i, s)
  | raw :: rest' =>
      let line := strip raw in
      if bool_decide (line = ");") || startswith ");" line then (i, s)
      else
        table_body rest' (S i) table_name
          (if nonempty line && negb (startswith "--" line)
           then _parse_column_definition line table_name s else s)
  end.

Definition empty_table : table_info := {| columns := []; constraints := []; indexes := [] |}.

Definition _parse_create_table (lines : list string) (start_idx : nat) (line0 : string)
    (s : SchemaCompressor) : nat * SchemaCompressor :=
  let line := strip line0 in
  match search re_create_table line with
  | None => (start_idx, s)
  | Some m =>
      let table_name := group_str 2 m in
      let s := with_current table_name s in
      let s := if Dict.mem table_name (tables s) then s
               else with_tables (Dict.set table_name empty_table) s in
      table_body (drop (S start_idx) lines) (S start_idx) table_name s
  end.

Definition _parse_create_sequence (start_idx : nat) (line0 : string)
    (s : SchemaCompressor) : nat * SchemaCompressor :=
  let line := strip line0 in
  match search re_create_sequence line with
  | Some m => (start_idx, with_sequences (Dict.set (group_str 2 m) None) s)
  | None => (start_idx, s)
  end.

Definition _parse_sequence_owned_by (line : string) (s : SchemaCompressor) : SchemaCompressor :=
  match search re_owned_by line with
  | Some m =>
      let seq_name := group_str 2 m in
      let table_name := group_str 4 m in
      let col_name := group_str 5 m in
      if Dict.mem seq_name (sequences s)
      then with_sequences (Dict.alter (λ _, Some (table_name, col_name)) seq_name) s
      else s
  | None => s
  end.

Definition _parse_alter_table_constraint (line : string) (s : SchemaCompressor)
    : SchemaCompressor :=
  match search re_alter_table line with
  | None => debug_print (NoTableMatch (take 100 line)) s
  | Some table_match =>
      let table_name := group_str 2 table_match in
      if negb (Dict.mem table_name (tables s)) then
        debug_print (TableNotFound table_name (list.take 5 (Dict.keys (tables s)))) s
      else if contains "PRIMARY KEY" (upper line) then
        match search re_primary_key line with
        | Some pk_match =>
            let columns := column_list (group_str 1 pk_match) in
            with_tables (Dict.alter (add_constraint (PRIMARY_KEY columns)) table_name) s
        | None => s
        end
      else if contains "FOREIGN KEY" (upper line) then
        match search re_foreign_key line with
        | Some fk_match =>
            let local_cols := column_list (group_str 1 fk_match) in
            let ref_table := group_str 3 fk_match in
            let ref_cols := column_list (group_str 4 fk_match) in
            let deferrable := contains "DEFERRABLE" (upper line) in
            debug_print (AddedFK table_name local_cols ref_table ref_cols)
              (with_tables
                 (Dict.alter
                    (add_constraint (FOREIGN_KEY local_cols ref_table ref_cols deferrable))
                    table_name) s)
        | None => debug_print (FKRegexFailed (take 100 line)) s
        end
      else if contains "UNIQUE" (upper line) then
        match search re_unique line with
        | Some unique_match =>
            let columns := column_list (group_str 1 unique_match) in
            with_tables (Dict.alter (add_constraint (UNIQUE columns)) table_name) s
        | None => s
        end
      else s
  end.

Definition _parse_create_index (line : string) (s : SchemaCompressor) : SchemaCompressor :=
  match search re_create_index line with
  | None => debug_print (IndexRegexFailed (take 80 line)) s
  | Some index_match =>
      let index_name := group_str 1 index_match in
      let table_name := group_str 3 index_match in
      let unique := contains "UNIQUE" (upper line) in
      let s := debug_print (ProcessingIndex index_name table_name) s in
      let s := debug_print (AvailableTables (list.take 5 (Dict.keys (tables s)))) s in
      if negb (Dict.mem table_name (tables s)) then
        debug_print (IndexTableNotFound table_name) s
      else
        match search re_using line with
        | Some cols_match =>
            let columns := column_list (group_str 1 cols_match) in
            let like_ops := existsb (contains "_pattern_ops") columns in
            let columns := if like_ops then sub re_pattern_ops "" <$> columns else columns in
            let s := debug_print (AddedIndex index_name columns like_ops) s in
            with_tables
              (Dict.alter
                 (add_index {| idx_name := index_name; idx_columns := columns;
                               idx_unique := unique; idx_like_ops := like_ops |})
                 table_name) s
        | None => debug_print (IndexColumnsFailed (take 80 line)) s
        end
  end.

(** *** The statement loop of [parse_schema] *)

(** [not self.default_owner] *)
Definition unset (o : option string) : bool :=
  match o with
  | None => true
  | Some v => negb (nonempty v)
  end.

Definition note_owner (line : string) (s : SchemaCompressor) : SchemaCompressor :=
  if startswith "ALTER TABLE" line && contains "OWNER TO" line then
    match search re_owner line with
    | Some m => if unset (default_owner s) then with_owner (group 1 m) s else s
    | None => s
    end
  else s.

(** the body of the [while] loop at index [i]: the index of the last line
    the statement used, and the new state *)
Definition statement (lines : list string) (i : nat) (raw : string)
    (s : SchemaCompressor) : nat * SchemaCompressor :=
  let line := strip raw in
  let s := note_owner line s in
  if startswith "CREATE TABLE" line then _parse_create_table lines i raw s
  else if startswith "CREATE SEQUENCE" line then _parse_create_sequence i raw s
  else if contains "SEQUENCE" line && contains "OWNED BY" line then
    (i, _parse_sequence_owned_by line s)
  else if startswith "ALTER TABLE" line && contains "ADD CONSTRAINT" line then
    (i, _parse_alter_table_constraint line s)
  else if startswith "ALTER TABLE" line then
    match lines !! (i + 1) with
    | Some next =>
        if contains "ADD CONSTRAINT" next then
          (i + 1, _parse_alter_table_constraint (line +:+ " " +:+ strip next) s)
        else (i, s)
    | None => (i, s)
    end
  else if startswith "CREATE" line && contains "INDEX" line then
    (i, _parse_create_index line s)
  else (i, s).

(** [while i < len(lines)]; [None] only when the fuel runs out *)
Fixpoint parse_loop (fuel : nat) (lines : list string) (i : nat)
    (s : SchemaCompressor) : option SchemaCompressor :=
  match fuel with
  | O => None
  | S fuel' =>
      match lines !! i with
      | None => Some s
      | Some raw =>
          let '(i', s') := statement lines i raw s in
          parse_loop fuel' lines (S i') s'
      end
  end.

(** *** The post-pass *)

Definition is_primary_key (c : constraint) : bool :=
  match c with PRIMARY_KEY _ => true | _ => false end.

(** [list.remove(x)] : drops the first element equal to [x] *)
Fixpoint remove_first (x : constraint) (l : list constraint) : list constraint :=
  match l with
  | [] => []
  | y :: l' => if bool_decide (y = x) then l' else y :: remove_first x l'
  end.

Definition mark_auto_pk (c : column_info) : column_info :=
  {| col_type := col_type c; not_null := not_null c; default := default c; auto_pk := true |}.

Definition owns (table_name pk_col : string) (owned_by : option (string * string)) : bool :=
  match owned_by with
  | Some (t, c) => bool_decide (t = table_name) && bool_decide (c = pk_col)
  | None => false
  end.

(** [for seq_name, seq_info in self.sequences.items(): ... break] *)
Fixpoint claim_auto_pk (seqs : list (string * option (string * string)))
    (table_name pk_col : string) (pk_constraint : constraint)
    (t : table_info) : table_info :=
  match seqs with
  | [] => t
  | (_, owned_by) :: seqs' =>
      if owns table_name pk_col owned_by then
        {| columns := Dict.alter mark_auto_pk pk_col (columns t);
           constraints := remove_first pk_constraint (constraints t);
           indexes := indexes t |}
      else claim_auto_pk seqs' table_name pk_col pk_constraint t
  end.

Definition auto_pk_table (seqs : list (string * option (string * string)))
    (table_name : string) (t : table_info) : table_info :=
  let pk_constraints := filter (λ c, is_primary_key c) (constraints t) in
  fold_left
    (λ t pk_constraint,
       match pk_constraint with
       | PRIMARY_KEY [pk_col] => claim_auto_pk seqs table_name pk_col pk_constraint t
       | _ => t
       end)
    pk_constraints t.

Definition _identify_auto_pk_columns (s : SchemaCompressor) : SchemaCompressor :=
  with_tables (map (λ '(table_name, t), (table_name, auto_pk_table (sequences s) table_name t))) s.

Definition parse_schema (lines : list string) (s : SchemaCompressor)
    : option SchemaCompressor :=
  s' ← parse_loop (S (length lines)) lines 0 s;
  Some (_identify_auto_pk_columns s').

(** *** The compact serializer *)

Definition column_line (col_name : string) (c : column_info) : string :=
  if auto_pk c then "  " +:+ col_name +:+ ": PK"
  else
    "  " +:+ col_name +:+ ": " +:+ col_type c
    +:+ (if not_null c then " NOT NULL" else "")
    +:+ (match default c with
         | Some d => if nonempty d then " DEFAULT " +:+ d else ""
         | None => ""
         end).

Definition fk_line (local_col ref_table ref_col : string) (deferrable : bool) : string :=
  "  FK (" +:+ local_col +:+ ") > " +:+ ref_table +:+ "(" +:+ ref_col +:+ ")"
  +:+ (if deferrable then " DEFERRABLE" else "").

(** [ref_columns[i] if i < len(ref_columns) else ref_columns[0]];
    [None] is Python's [IndexError] *)
Definition ref_col_at (ref_columns : list string) (i : nat) : option string :=
  if bool_decide (i < length ref_columns) then ref_columns !! i else ref_columns !! 0.

(** [for i, local_col in enumerate(constraint['columns'])], from index [i] *)
Fixpoint fk_lines (i : nat) (local_cols : list string) (ref_table : string)
    (ref_columns : list string) (deferrable : bool) : option (list string) :=
  match local_cols with
  | [] => Some []
  | local_col :: rest =>
      ref_col ← ref_col_at ref_columns i;
      more ← fk_lines (S i) rest ref_table ref_columns deferrable;
      Some (fk_line local_col ref_table ref_col deferrable :: more)
  end.

Definition constraint_lines (c : constraint) : option (list string) :=
  match c with
  | FOREIGN_KEY local_cols ref_table ref_columns deferrable =>
      fk_lines 0 local_cols ref_table ref_columns deferrable
  | UNIQUE cols => Some ["  UNIQUE (" +:+ join ", " cols +:+ ")"]
  | PRIMARY_KEY cols => Some ["  PRIMARY KEY (" +:+ join ", " cols +:+ ")"]
  end.

Definition index_line (index : index_info) : string :=
  "  IDX (" +:+ join ", " (idx_columns index) +:+ ")"
  +:+ (if idx_like_ops index then " (LIKE)" else "")
  +:+ (if idx_unique index then " UNIQUE" else "").

Fixpoint all_constraint_lines (cs : list constraint) : option (list string) :=
  match cs with
  | [] => Some []
  | c :: cs' =>
      l ← constraint_lines c;
      more ← all_constraint_lines cs';
      Some (l ++ more)
  end.

Definition table_lines (table_name : string) (t : table_info) : option (list string) :=
  cl ← all_constraint_lines (constraints t);
  Some ([table_name +:+ ":"]
        ++ map (λ '(col_name, c), column_line col_name c) (columns t)
        ++ cl
        ++ map index_line (indexes t)
        ++ [""]).

Fixpoint all_table_lines (ts : list (string * table_info)) : option (list string) :=
  match ts with
  | [] => Some []
  | (table_name, t) :: ts' =>
      l ← table_lines table_name t;
      more ← all_table_lines ts';
      Some (l ++ more)
  end.

Definition header (s : SchemaCompressor) : string :=
  "-- Schema: " +:+ default_schema s
  +:+ (match default_owner s with
       | Some o => if nonempty o then ", Owner: " +:+ o else ""
       | None => ""
       end).

(** the list [output] before it is joined *)
Definition output_lines (s : SchemaCompressor) : option (list string) :=
  body ← all_table_lines (tables s);
  Some ([header s; ""] ++ body).

Definition generate_compressed_schema (s : SchemaCompressor) : option string :=
  output ← output_lines s;
  Some (join (String nl "") output).

End Compress.

(** ** 03_generate_context.py : the compact-notation parser and the statistics *)
Module Context.
Import Str Re.

(** *** Data model *)

Record fk_info := {
  from_table : string;
  from_column : string;
  to_table : string;
  to_column : string;
  deferrable : bool
}.

Record index_entry := {
  columns_of : list string;
  unique : bool;
  like_ops : bool
}.

Record table := {
  columns : list string;
  primary_keys : list string;
  foreign_keys : list fk_info;
  unique_constraints : list (list string);
  indexes : list index_entry;
  column_types : gmap string nat;     (* a [Counter] *)
  nullable_columns : nat;
  required_columns : nat
}.

Record SchemaContextGenerator := {
  tables : list (string * table);
  relationships : list fk_info
}.

Definition new : SchemaContextGenerator := {| tables := []; relationships := [] |}.

Definition empty_table : table :=
  {| columns := []; primary_keys := []; foreign_keys := []; unique_constraints := [];
     indexes := []; column_types := ∅; nullable_columns := 0; required_columns := 0 |}.

(** [counter[k] += 1] on a [Counter] or a [defaultdict(int)] *)
Definition incr (k : string) (m : gmap string nat) : gmap string nat :=
  <[k := S (default 0 (m !! k))]> m.
(** [counter[k]] *)
Definition count_of (k : string) (m : gmap string nat) : nat := default 0 (m !! k).

Definition with_tables (f : list (string * table) → list (string * table))
    (s : SchemaContextGenerator) : SchemaContextGenerator :=
  {| tables := f (tables s); relationships := relationships s |}.

(** *** The patterns *)

(** [FK \(([^)]+)\) > (\w+)\(([^)]+)\)] *)
Definition re_fk :=
  cat [Lit "FK ("; Grp 1 (Plus not_rp); Lit ") > "; Grp 2 (Plus is_word); Lit "(";
       Grp 3 (Plus not_rp); Lit ")"].
(** [UNIQUE \(([^)]+)\)] *)
Definition re_unique := cat [Lit "UNIQUE ("; Grp 1 (Plus not_rp); Lit ")"].
(** [PRIMARY KEY \(([^)]+)\)] *)
Definition re_primary_key := cat [Lit "PRIMARY KEY ("; Grp 1 (Plus not_rp); Lit ")"].
(** [IDX \(([^)]+)\)] *)
Definition re_idx := cat [Lit "IDX ("; Grp 1 (Plus not_rp); Lit ")"].

Definition column_list (text : string) : list string := strip <$> split_on comma text.

(** *** Line parsers *)

Definition quote : ascii := ascii_of_nat 34.
Definition colon : ascii := ":"%char.

Definition add_pk_column (col_name : string) (t : table) : table :=
  {| columns := columns t ++ [col_name];
     primary_keys := primary_keys t ++ [col_name];
     foreign_keys := foreign_keys t; unique_constraints := unique_constraints t;
     indexes := indexes t;
     column_types := incr "integer" (column_types t);
     nullable_columns := nullable_columns t;
     required_columns := S (required_columns t) |}.

Definition add_column_name (col_name : string) (t : table) : table :=
  {| columns := columns t ++ [col_name];
     primary_keys := primary_keys t; foreign_keys := foreign_keys t;
     unique_constraints := unique_constraints t; indexes := indexes t;
     column_types := column_types t;
     nullable_columns := nullable_columns t; required_columns := required_columns t |}.

Definition count_column (data_type : string) (required : bool) (t : table) : table :=
  {| columns := columns t;
     primary_keys := primary_keys t; foreign_keys := foreign_keys t;
     unique_constraints := unique_constraints t; indexes := indexes t;
     column_types := incr data_type (column_types t);
     nullable_columns := if required then nullable_columns t else S (nullable_columns t);
     required_columns := if required then S (required_columns t) else required_columns t |}.

Definition _parse_column (line table_name : string)
    (s : SchemaContextGenerator) : SchemaContextGenerator :=
  let line := strip line in
  if contains ": PK" line then
    let col_name := strip_char quote (strip (split_fields colon line).1) in
    with_tables (Dict.alter (add_pk_column col_name) table_name) s
  else
    match split_once colon line with
    | (before, Some after) =>
        let col_name := strip_char quote (strip before) in
        let col_def := strip after in
        let s := with_tables (Dict.alter (add_column_name col_name) table_name) s in
        if nonempty col_def then
          match split_ws col_def with
          | word :: _ =>
              let data_type := lower word in
              with_tables
                (Dict.alter (count_column data_type (contains "NOT NULL" (upper col_def)))
                   table_name) s
          | [] => s
          end
        else s
    | (_, None) => s
    end.

Definition add_foreign_key (fk : fk_info) (t : table) : table :=
  {| columns := columns t; primary_keys := primary_keys t;
     foreign_keys := foreign_keys t ++ [fk];
     unique_constraints := unique_constraints t; indexes := indexes t;
     column_types := column_types t;
     nullable_columns := nullable_columns t; required_columns := required_columns t |}.

Definition _parse_foreign_key (line table_name : string)
    (s : SchemaContextGenerator) : SchemaContextGenerator :=
  match search re_fk line with
  | Some m =>
      let fk := {| from_table := table_name;
                   from_column := strip (group_str 1 m);
                   to_table := strip (group_str 2 m);
                   to_column := strip (group_str 3 m);
                   deferrable := contains "DEFERRABLE" (upper line) |} in
      {| tables := Dict.alter (add_foreign_key fk) table_name (tables s);
         relationships := relationships s ++ [fk] |}
  | None => s
  end.

Definition add_unique (cols : list string) (t : table) : table :=
  {| columns := columns t; primary_keys := primary_keys t; foreign_keys := foreign_keys t;
     unique_constraints := unique_constraints t ++ [cols]; indexes := indexes t;
     column_types := column_types t;
     nullable_columns := nullable_columns t; required_columns := required_columns t |}.

Definition _parse_unique_constraint (line table_name : string)
    (s : SchemaContextGenerator) : SchemaContextGenerator :=
  match search re_unique line with
  | Some m => with_tables (Dict.alter (add_unique (column_list (group_str 1 m))) table_name) s
  | None => s
  end.

Definition extend_primary_keys (cols : list string) (t : table) : table :=
  {| columns := columns t; primary_keys := primary_keys t ++ cols;
     foreign_keys := foreign_keys t;
     unique_constraints := unique_constraints t; indexes := indexes t;
     column_types := column_types t;
     nullable_columns := nullable_columns t; required_columns := required_columns t |}.

Definition _parse_primary_key (line table_name : string)
    (s : SchemaContextGenerator) : SchemaContextGenerator :=
  match search re_primary_key line with
  | Some m =>
      with_tables (Dict.alter (extend_primary_keys (column_list (group_str 1 m))) table_name) s
  | None => s
  end.

Definition add_index (i : index_entry) (t : table) : table :=
  {| columns := columns t; primary_keys := primary_keys t; foreign_keys := foreign_keys t;
     unique_constraints := unique_constraints t; indexes := indexes t ++ [i];
     column_types := column_types t;
     nullable_columns := nullable_columns t; required_columns := required_columns t |}.

Definition _parse_index (line table_name : string)
    (s : SchemaContextGenerator) : SchemaContextGenerator :=
  match search re_idx line with
  | Some m =>
      with_tables
        (Dict.alter
           (add_index {| columns_of := column_list (group_str 1 m);
                         unique := contains "UNIQUE" (upper line);
                         like_ops := contains "(LIKE)" (upper line) |})
           table_name) s
  | None => s
  end.

(** *** [parse_compressed_schema] *)

(** the body of [for line in lines], on the generator and [current_table] *)
Definition parse_line (st : SchemaContextGenerator * option string) (original_line : string)
    : SchemaContextGenerator * option string :=
  let '(s, current_table) := st in
  let line := strip original_line in
  if negb (nonempty line) || startswith "--" line then st
  else if endswith ":" line && negb (startswith " " original_line) then
    let name := take (String.length line - 1) line in
    (with_tables (Dict.set name empty_table) s, Some name)
  else
    match current_table with
    | None => st
    | Some t =>
        if startswith "  " original_line && contains ":" line
           && negb (startswith "  FK" original_line)
           && negb (startswith "  UNIQUE" original_line)
           && negb (startswith "  IDX" original_line)
           && negb (startswith "  PRIMARY" original_line)
        then (_parse_column line t s, current_table)
        else if startswith "  FK (" original_line then (_parse_foreign_key line t s, current_table)
        else if startswith "  UNIQUE (" original_line
        then (_parse_unique_constraint line t s, current_table)
        else if startswith "  PRIMARY KEY (" original_line
        then (_parse_primary_key line t s, current_table)
        else if startswith "  IDX (" original_line then (_parse_index line t s, current_table)
        else st
    end.

Definition parse_lines (lines : list string) (s : SchemaContextGenerator)
    : SchemaContextGenerator * option string :=
  fold_left parse_line lines (s, None).

Definition parse_compressed_schema (schema_content : string)
    (s : SchemaContextGenerator) : SchemaContextGenerator :=
  (parse_lines (split_on nl (strip schema_content)) s).1.

(** *** [generate_statistics] : the foreign key analysis *)

(** the two [defaultdict(int)] filled by the loop over [self.relationships] *)
Definition degree_step (d : gmap string nat * gmap string nat) (fk : fk_info)
    : gmap string nat * gmap string nat :=
  (incr (from_table fk) d.1, incr (to_table fk) d.2).
Definition degrees (rels : list fk_info) : gmap string nat * gmap string nat :=
  fold_left degree_step rels (∅, ∅).
Definition fk_counts (s : SchemaContextGenerator) : gmap string nat :=
  (degrees (relationships s)).1.
Definition incoming_fk_counts (s : SchemaContextGenerator) : gmap string nat :=
  (degrees (relationships s)).2.

Definition tables_without_outgoing_fks (s : SchemaContextGenerator) : list string :=
  filter (λ name, count_of name (fk_counts s) = 0) (Dict.keys (tables s)).
Definition never_referenced_tables (s : SchemaContextGenerator) : list string :=
  filter (λ name, count_of name (incoming_fk_counts s) = 0) (Dict.keys (tables s)).

(** the sum of the values of a degree table *)
Definition total (m : gmap string nat) : nat := map_fold (λ _ n acc, n + acc) 0 m.

(** *** [_fallback_categorize_tables] *)

(** [default_settings['context_generation']['fallback_categorization']] *)
Definition default_fallback_categorization : list (string * list string) :=
  [("auth_security", ["auth"; "user"; "permission"; "role"; "token"; "session"]);
   ("audit_logging", ["log"; "audit"; "change"; "history"; "event"]);
   ("configuration", ["config"; "setting"; "param"; "lookup"; "type"; "status"; "category"]);
   ("integration", ["api"; "webhook"; "external"; "import"; "export"; "sync"]);
   ("temporary_cache", ["temp"; "cache"; "queue"; "pending"])].

(** [{category: [] for category in category_keywords.keys()}] and then
    [categories['business_core'] = []] *)
Definition initial_categories (category_keywords : list (string * list string))
    : gmap string (list string) :=
  <["business_core" := []]>
    (fold_left (λ m category, <[category := []]> m) (Dict.keys category_keywords) ∅).

(** the inner [for category, keywords in ...: if any(...): ... break] *)
Fixpoint matching_category (name_lower : string)
    (category_keywords : list (string * list string)) : option string :=
  match category_keywords with
  | [] => None
  | (category, keywords) :: rest =>
      if existsb (λ keyword, contains keyword name_lower) keywords then Some category
      else matching_category name_lower rest
  end.

(** [categories[category].append(table_name)] *)
Definition append_to (category table_name : string) (categories : gmap string (list string))
    : gmap string (list string) :=
  <[category := default [] (categories !! category) ++ [table_name]]> categories.

(** the category a table is filed under *)
Definition category_of (category_keywords : list (string * list string))
    (table_name : string) : string :=
  default "business_core" (matching_category (lower table_name) category_keywords).

Definition categorize_step (category_keywords : list (string * list string))
    (categories : gmap string (list string)) (table_name : string)
    : gmap string (list string) :=
  match matching_category (lower table_name) category_keywords with
  | Some category => append_to category table_name categories
  | None => append_to "business_core" table_name categories
  end.

Definition _fallback_categorize_tables (category_keywords : list (string * list string))
    (s : SchemaContextGenerator) : gmap string (list string) :=
  fold_left (categorize_step category_keywords) (Dict.keys (tables s))
    (initial_categories category_keywords).

End Context.

(** * Properties *)

(** ** The extractor and the column parser on concrete dumps *)
Section Dumps.
Import Str Compress.

(** the parsed model of a dump, read with debugging off as [main] does *)
Definition parsed (lines : list string) : option SchemaCompressor :=
  parse_schema lines (new false).

Definition column_of (table_name col_name : string) (s : SchemaCompressor)
    : option column_info :=
  t ← Dict.get table_name (tables s); Dict.get col_name (columns t).

Definition constraints_of (table_name : string) (s : SchemaCompressor)
    : option (list constraint) :=
  constraints <$> Dict.get table_name (tables s).

Definition stored_column (lines : list string) (table_name col_name : string)
    : option column_info :=
  s ← parsed lines; column_of table_name col_name s.

Definition verbose_types_dump : list string :=
  ["CREATE TABLE public.account (";
   "    name character varying(255) NOT NULL,";
   "    created timestamp with time zone,";
   "    code character(3)";
   ");"].

(** C3. The normalization patterns are applied to the second
    whitespace-separated token of the column line, so the patterns that
    contain a space never fire: [character varying(255)] is stored as
    [character] and [timestamp with time zone] as [timestamp], although
    [_simplify_type] maps the full spellings to [varchar] and [timestamptz]. *)
Theorem C3_verbose_types_not_collapsed :
  col_type <$> stored_column verbose_types_dump "account" "name" = Some "character"
  ∧ col_type <$> stored_column verbose_types_dump "account" "created" = Some "timestamp"
  ∧ col_type <$> stored_column verbose_types_dump "account" "code" = Some "char"
  ∧ _simplify_type "character varying(255)" = "varchar"
  ∧ _simplify_type "timestamp with time zone" = "timestamptz".
Proof. repeat split; vm_compute; reflexivity. Qed.

Definition insert_then_table_dump : list string :=
  ["INSERT INTO t VALUES (1);";
   "CREATE TABLE x (";
   "    id integer";
   ");";
   "CREATE TABLE y ("].

(** C4. After a single-line [INSERT INTO ...;] the extractor still enters
    the insert block: the following schema lines are dropped up to and
    including the next line that ends in [;]. *)
Theorem C4_single_line_insert_drops_following_lines :
  Extract.extract_schema insert_then_table_dump = ["CREATE TABLE y ("].
Proof. vm_compute. reflexivity. Qed.

Definition default_dump : list string :=
  ["CREATE TABLE public.account (";
   "    status text DEFAULT 'active'::text NOT NULL";
   ");"].

(** C5. The default token is captured from the upper-cased line: the
    stored token of [DEFAULT 'active'::text] is ['ACTIVE'::TEXT], not the
    token of the original line. *)
Theorem C5_default_token_is_upper_cased :
  Compress.default <$> stored_column default_dump "account" "status"
  = Some (Some "'ACTIVE'::TEXT")
  ∧ "'ACTIVE'::TEXT" ≠ "'active'::text".
Proof. split; [vm_compute; reflexivity | discriminate]. Qed.

End Dumps.

(** ** Degree tables of the statistics engine *)
Section Degrees.
Import Context.

Lemma count_of_incr k k' (m : gmap string nat) :
  count_of k (incr k' m) = if decide (k' = k) then S (count_of k m) else count_of k m.
Proof.
  unfold count_of, incr. case_decide as Hk.
  - subst. by rewrite lookup_insert_eq.
  - by rewrite lookup_insert_ne.
Qed.

Lemma total_insert_fresh k n (m : gmap string nat) :
  m !! k = None → total (<[k := n]> m) = n + total m.
Proof. intros Hk. unfold total. rewrite map_fold_insert_L; [done | intros; lia | done]. Qed.

Lemma total_incr k (m : gmap string nat) : total (incr k m) = S (total m).
Proof.
  unfold incr. destruct (m !! k) as [n|] eqn:Hk; simpl.
  - rewrite <- (insert_delete_eq m k (S n)).
    rewrite <- (insert_delete_id m k n Hk) at 2.
    rewrite !total_insert_fresh by apply lookup_delete_eq. done.
  - by rewrite total_insert_fresh.
Qed.

Section Counting.
Variable key : fk_info → string.

Definition tally (rels : list fk_info) (m : gmap string nat) : gmap string nat :=
  fold_left (λ m fk, incr (key fk) m) rels m.

Lemma tally_count rels m name :
  count_of name (tally rels m)
  = count_of name m + length (filter (λ fk, key fk = name) rels).
Proof.
  revert m. induction rels as [|fk rels IH]; intros m; simpl.
  - lia.
  - unfold tally in IH. rewrite IH, count_of_incr, filter_cons.
    repeat case_decide; simpl; lia.
Qed.

Lemma tally_total rels m : total (tally rels m) = total m + length rels.
Proof.
  revert m. induction rels as [|fk rels IH]; intros m; simpl.
  - lia.
  - unfold tally in IH. rewrite IH, total_incr. lia.
Qed.
End Counting.

Lemma degrees_tally rels (d : gmap string nat * gmap string nat) :
  fold_left degree_step rels d = (tally from_table rels d.1, tally to_table rels d.2).
Proof.
  revert d. induction rels as [|fk rels IH]; intros [a b]; simpl; [done|].
  by rewrite IH.
Qed.

End Degrees.

(** ** Fallback categorization *)
Section Categories.
Import Str Context.

Variable category_keywords : list (string * list string).

(** all the tables filed under some category *)
Definition filed (categories : gmap string (list string)) : list string :=
  concat (map_to_list categories).*2.

Lemma concat_perm (l1 l2 : list (list string)) : l1 ≡ₚ l2 → concat l1 ≡ₚ concat l2.
Proof.
  induction 1 as [|x l1 l2 _ IH|x y l|l1 l2 l3 _ IH1 _ IH2]; simpl.
  - done.
  - by rewrite IH.
  - rewrite !(assoc_L (++)). f_equiv. apply Permutation_app_comm.
  - by rewrite IH1.
Qed.

Lemma filed_append_to c t (m : gmap string (list string)) :
  filed (append_to c t m) ≡ₚ filed m ++ [t].
Proof.
  unfold filed, append_to. destruct (m !! c) as [b|] eqn:Hc; simpl.
  - rewrite <- (insert_delete_eq m c (b ++ [t])).
    rewrite (concat_perm _ _ (fmap_Permutation snd _ _
      (map_to_list_insert (delete c m) c (b ++ [t]) (lookup_delete_eq m c)))).
    rewrite <- (concat_perm _ _ (fmap_Permutation snd _ _ (map_to_list_delete m c b Hc))).
    simpl. rewrite <- !(assoc_L (++)). f_equiv. apply Permutation_app_comm.
  - rewrite (concat_perm _ _ (fmap_Permutation snd _ _ (map_to_list_insert m c [t] Hc))).
    simpl. apply Permutation_cons_append.
Qed.

Lemma matching_category_key name cat :
  matching_category name category_keywords = Some cat → cat ∈ Dict.keys category_keywords.
Proof.
  unfold Dict.keys. induction category_keywords as [|[c ks] rest IH]; simpl; [done|].
  destruct (existsb _ ks).
  - intros [= ->]. apply list_elem_of_here.
  - intros H. apply list_elem_of_further, IH, H.
Qed.

Lemma categorize_step_append m t :
  categorize_step category_keywords m t = append_to (category_of category_keywords t) t m.
Proof. unfold categorize_step, category_of. by destruct (matching_category _ _). Qed.

Lemma bucket_append_to c c' t (m : gmap string (list string)) :
  default [] (append_to c' t m !! c)
  = default [] (m !! c) ++ (if decide (c' = c) then [t] else []).
Proof.
  unfold append_to. case_decide as Hc.
  - subst. by rewrite lookup_insert_eq.
  - rewrite lookup_insert_ne by done. by rewrite app_nil_r.
Qed.

Lemma categorize_bucket names (m : gmap string (list string)) c :
  default [] (fold_left (categorize_step category_keywords) names m !! c)
  = default [] (m !! c) ++ filter (λ t, category_of category_keywords t = c) names.
Proof.
  revert m. induction names as [|t names IH]; intros m; simpl.
  - by rewrite app_nil_r.
  - rewrite IH, categorize_step_append, bucket_append_to, filter_cons.
    rewrite <- (assoc_L (++)). by case_decide.
Qed.

Lemma categorize_filed names (m : gmap string (list string)) :
  filed (fold_left (categorize_step category_keywords) names m) ≡ₚ filed m ++ names.
Proof.
  revert m. induction names as [|t names IH]; intros m; simpl.
  - by rewrite app_nil_r.
  - rewrite IH, categorize_step_append, filed_append_to.
    by rewrite <- (assoc_L (++)).
Qed.

Lemma initial_categories_lookup c :
  initial_categories category_keywords !! c
  = if decide (c = "business_core" ∨ c ∈ Dict.keys category_keywords) then Some [] else None.
Proof.
  unfold initial_categories.
  assert (∀ ks (m : gmap string (list string)),
            fold_left (λ m category, <[category := []]> m) ks m !! c
            = if decide (c ∈ ks) then Some [] else m !! c) as Hfold.
  { induction ks as [|k ks IH]; intros m; simpl.
    - done.
    - rewrite IH. destruct (decide (c = k)) as [->|Hne].
      + rewrite lookup_insert_eq. repeat case_decide; try done; exfalso; set_solver.
      + rewrite lookup_insert_ne by done. repeat case_decide; try done; set_solver. }
  destruct (decide (c = "business_core")) as [->|Hne].
  - rewrite lookup_insert_eq. case_decide; [done | tauto].
  - rewrite lookup_insert_ne by done. rewrite Hfold, lookup_empty.
    repeat case_decide; try done; tauto.
Qed.

Lemma initial_categories_filed : filed (initial_categories category_keywords) = [].
Proof.
  unfold filed. apply (proj2 (concat_nil_Forall _)).
  apply Forall_forall. intros b Hb.
  apply list_elem_of_fmap in Hb as [[c b'] [-> Hin]]. simpl.
  apply elem_of_map_to_list in Hin. rewrite initial_categories_lookup in Hin.
  case_decide; congruence.
Qed.

Lemma category_of_initial t :
  initial_categories category_keywords !! category_of category_keywords t = Some [].
Proof.
  rewrite initial_categories_lookup. case_decide as H; [done|].
  exfalso. apply H. unfold category_of.
  destruct (matching_category _ _) as [c|] eqn:Hm; simpl; [|by left].
  right. by eapply matching_category_key.
Qed.

Lemma categorize_keeps_bucket names (m : gmap string (list string)) c :
  is_Some (m !! c) → is_Some (fold_left (categorize_step category_keywords) names m !! c).
Proof.
  revert m. induction names as [|t names IH]; intros m Hm; simpl; [done|].
  apply IH. rewrite categorize_step_append. unfold append_to.
  destruct (decide (category_of category_keywords t = c)) as [->|Hne].
  - by rewrite lookup_insert_eq.
  - by rewrite lookup_insert_ne.
Qed.

(** *** The rule in the words of the specification *)

(** some keyword of the set occurs in the lowercased name *)
Definition keyword_occurs (name_lower : string) (keywords : list string) : Prop :=
  ∃ keyword, keyword ∈ keywords ∧ contains keyword name_lower = true.

(** [c] is the category of the first pair of the ordered list one of whose
    keywords occurs in the lowercased table name, or it is the catch-all
    [business_core] and no pair has such a keyword *)
Definition first_match_wins (table_name c : string) : Prop :=
  (∃ before keywords after,
      category_keywords = before ++ (c, keywords) :: after
      ∧ keyword_occurs (lower table_name) keywords
      ∧ Forall (λ p, ¬ keyword_occurs (lower table_name) p.2) before)
  ∨ (c = "business_core"
     ∧ Forall (λ p, ¬ keyword_occurs (lower table_name) p.2) category_keywords).

Lemma keyword_occurs_existsb name_lower keywords :
  existsb (λ keyword, contains keyword name_lower) keywords = true
  ↔ keyword_occurs name_lower keywords.
Proof.
  unfold keyword_occurs. rewrite existsb_exists.
  split; intros (k & Hk & Hc); exists k; (split; [by apply list_elem_of_In | done]).
Qed.

Lemma matching_category_first name_lower (pairs : list (string * list string)) :
  match matching_category name_lower pairs with
  | Some c =>
      ∃ before keywords after,
        pairs = before ++ (c, keywords) :: after
        ∧ keyword_occurs name_lower keywords
        ∧ Forall (λ p, ¬ keyword_occurs name_lower p.2) before
  | None => Forall (λ p, ¬ keyword_occurs name_lower p.2) pairs
  end.
Proof.
  induction pairs as [|[c keywords] pairs IH]; simpl; [constructor|].
  destruct (existsb _ keywords) eqn:Hk.
  - exists [], keywords, pairs. split; [done|]. split; [|constructor].
    by apply keyword_occurs_existsb.
  - assert (¬ keyword_occurs name_lower keywords) as Hnot.
    { rewrite <- keyword_occurs_existsb. by rewrite Hk. }
    destruct (matching_category name_lower pairs) as [c'|].
    + destruct IH as (before & kws & after & -> & Hocc & Hbefore).
      exists ((c, keywords) :: before), kws, after. split; [done|]. split; [done|].
      by constructor.
    + by constructor.
Qed.

(** the first pair with a keyword in the name is determined by the list *)
Lemma first_pair_unique name_lower (b1 b2 a1 a2 : list (string * list string)) c1 c2 k1 k2 :
  b1 ++ (c1, k1) :: a1 = b2 ++ (c2, k2) :: a2 →
  keyword_occurs name_lower k1 → Forall (λ p, ¬ keyword_occurs name_lower p.2) b1 →
  keyword_occurs name_lower k2 → Forall (λ p, ¬ keyword_occurs name_lower p.2) b2 →
  c1 = c2.
Proof.
  revert b2. induction b1 as [|p b1 IH]; intros [|q b2] Heq H1 Hb1 H2 Hb2; simpl in Heq.
  - by injection Heq as -> _ _.
  - injection Heq as <- _. by apply Forall_cons in Hb2 as [Hq _].
  - injection Heq as -> _. by apply Forall_cons in Hb1 as [Hp _].
  - injection Heq as -> Heq. apply Forall_cons in Hb1 as [_ Hb1].
    apply Forall_cons in Hb2 as [_ Hb2]. by apply (IH b2).
Qed.

Lemma first_match_wins_category_of table_name c :
  first_match_wins table_name c ↔ c = category_of category_keywords table_name.
Proof.
  unfold first_match_wins, category_of.
  pose proof (matching_category_first (lower table_name) category_keywords) as Hfirst.
  destruct (matching_category (lower table_name) category_keywords) as [c'|]; simpl.
  - destruct Hfirst as (before & kws & after & Heq & Hocc & Hbefore). split.
    + intros [(b2 & k2 & a2 & Heq2 & Hocc2 & Hb2) | [_ Hnone]].
      * rewrite Heq in Heq2. symmetry. by eapply first_pair_unique.
      * exfalso. rewrite Heq in Hnone. apply Forall_app in Hnone as [_ Hnone].
        by apply Forall_cons in Hnone as [Hnone _].
    + intros ->. left. by exists before, kws, after.
  - split.
    + intros [(b2 & k2 & a2 & Heq2 & Hocc2 & Hb2) | [-> _]]; [|done].
      exfalso. rewrite Heq2 in Hfirst. apply Forall_app in Hfirst as [_ Hnone].
      by apply Forall_cons in Hnone as [Hnone _].
    + intros ->. by right.
Qed.

(** C7. Fallback categorization files every table under exactly one
    category.  The category of a table is the one the rule of the
    specification names: the category of the first pair of the ordered
    keyword list that has a keyword inside the lowercased table name, or
    [business_core] when no pair has one; the rule names exactly one
    category for every table.  Each bucket holds, in table order, exactly
    the tables of that category, and all the buckets together are the table
    list, with nothing repeated or left out. *)
Theorem C7_category_totality (s : SchemaContextGenerator) :
  let categories := _fallback_categorize_tables category_keywords s in
  (∀ t c, first_match_wins t c ↔ c = category_of category_keywords t)
  ∧ (∀ c, default [] (categories !! c)
          = filter (λ t, category_of category_keywords t = c) (Dict.keys (tables s)))
  ∧ (∀ t c, t ∈ Dict.keys (tables s) →
       (t ∈ default [] (categories !! c) ↔ first_match_wins t c))
  ∧ (∀ t, is_Some (categories !! category_of category_keywords t))
  ∧ filed categories ≡ₚ Dict.keys (tables s).
Proof.
  simpl. unfold _fallback_categorize_tables.
  assert (∀ c, default [] (fold_left (categorize_step category_keywords)
                 (Dict.keys (tables s)) (initial_categories category_keywords) !! c)
               = filter (λ t, category_of category_keywords t = c) (Dict.keys (tables s)))
    as Hbucket.
  { intros c. rewrite categorize_bucket, initial_categories_lookup. by case_decide. }
  split; [exact first_match_wins_category_of|].
  split; [exact Hbucket|]. split; [|split].
  - intros t c Ht. rewrite Hbucket, list_elem_of_filter, first_match_wins_category_of.
    naive_solver.
  - intros t. apply categorize_keeps_bucket. by rewrite category_of_initial.
  - by rewrite categorize_filed, initial_categories_filed.
Qed.

End Categories.

(** ** The parse loop: termination and a table invariant *)
Section ParseLoop.
Import Str Re Compress.

Lemma table_body_index rest i table_name s :
  i ≤ (table_body rest i table_name s).1.
Proof.
  revert i s. induction rest as [|raw rest IH]; intros i s; simpl; [lia|].
  destruct (_ || _); simpl; [lia|].
  etrans; [|apply IH]. lia.
Qed.

Lemma statement_index lines i raw s : i ≤ (statement lines i raw s).1.
Proof.
  unfold statement, _parse_create_table, _parse_create_sequence.
  repeat (case_match; simpl; try lia).
  all: try (etrans; [|apply table_body_index]; lia).
Qed.

(** the loop ends: one unit of fuel per line is enough *)
Lemma parse_loop_total fuel lines i s :
  length lines - i < fuel → is_Some (parse_loop fuel lines i s).
Proof.
  revert i s. induction fuel as [|fuel IH]; intros i s Hfuel; simpl; [lia|].
  destruct (lines !! i) as [raw|] eqn:Hi; [|done].
  pose proof (statement_index lines i raw s) as Hidx.
  destruct (statement lines i raw s) as [i' s']. simpl in Hidx.
  apply IH. apply lookup_lt_Some in Hi. lia.
Qed.

Lemma parse_schema_total lines s : is_Some (parse_schema lines s).
Proof.
  unfold parse_schema.
  destruct (parse_loop_total (S (length lines)) lines 0 s) as [s' ->]; [lia|].
  by eexists.
Qed.

(** *** Invariants of the table dictionary *)
Section Invariant.
Variable P : table_info → Prop.
Variable ok : constraint → Prop.
Hypothesis P_empty : P empty_table.
Hypothesis P_column : ∀ name c t, P t → P (set_column name c t).
Hypothesis P_constraint : ∀ c t, ok c → P t → P (add_constraint c t).
Hypothesis P_index : ∀ i t, P t → P (add_index i t).
Hypothesis ok_pk : ∀ cols, ok (PRIMARY_KEY cols).
Hypothesis ok_unique : ∀ cols, ok (UNIQUE cols).
Hypothesis ok_fk : ∀ l rt text d, ok (FOREIGN_KEY l rt (column_list text) d).

Definition every_table (s : SchemaCompressor) : Prop :=
  Forall (λ p, P p.2) (tables s).

Lemma every_table_alter f k s :
  (∀ t, P t → P (f t)) → every_table s → every_table (with_tables (Dict.alter f k) s).
Proof.
  intros Hf. unfold every_table. simpl.
  induction (tables s) as [|[k' t] ts IH]; simpl; [done|].
  intros [Ht Hts]%Forall_cons. case_bool_decide; constructor; simpl; auto.
Qed.

Lemma every_table_set k s :
  every_table s → every_table (with_tables (Dict.set k empty_table) s).
Proof.
  unfold every_table. simpl.
  induction (tables s) as [|[k' t] ts IH]; simpl.
  - intros _. by repeat constructor.
  - intros [Ht Hts]%Forall_cons. case_bool_decide; constructor; simpl; auto.
Qed.

Lemma every_table_debug_print d s : every_table s → every_table (debug_print d s).
Proof. unfold debug_print. by destruct (debug s). Qed.

Lemma every_table_column line table_name s :
  every_table s → every_table (_parse_column_definition line table_name s).
Proof.
  intros Hs. unfold _parse_column_definition.
  repeat case_match; try done; by apply every_table_alter; auto.
Qed.

Lemma every_table_body rest i table_name s :
  every_table s → every_table (table_body rest i table_name s).2.
Proof.
  revert i s. induction rest as [|raw rest IH]; intros i s Hs; simpl; [done|].
  destruct (_ || _); simpl; [done|].
  apply IH. case_match; [by apply every_table_column | done].
Qed.

Lemma every_table_alter_constraint line s :
  every_table s → every_table (_parse_alter_table_constraint line s).
Proof.
  intros Hs. unfold _parse_alter_table_constraint.
  repeat case_match; try done;
    repeat apply every_table_debug_print; try done;
    apply every_table_alter; auto.
Qed.

Lemma every_table_create_index line s :
  every_table s → every_table (_parse_create_index line s).
Proof.
  intros Hs. unfold _parse_create_index.
  repeat case_match; repeat apply every_table_debug_print; try done;
    apply every_table_alter; auto; by repeat apply every_table_debug_print.
Qed.

Lemma every_table_statement lines i raw s :
  every_table s → every_table (statement lines i raw s).2.
Proof.
  intros Hs.
  assert (every_table (note_owner (strip raw) s)) as Hs'.
  { unfold note_owner. by repeat case_match. }
  unfold statement, _parse_create_table, _parse_create_sequence,
    _parse_sequence_owned_by.
  repeat case_match; simpl; try done;
    auto using every_table_alter_constraint, every_table_create_index.
  all: try (apply every_table_body; try apply every_table_set; done).
Qed.

Lemma every_table_loop fuel lines i s s' :
  every_table s → parse_loop fuel lines i s = Some s' → every_table s'.
Proof.
  revert i s. induction fuel as [|fuel IH]; intros i s Hs; simpl; [done|].
  destruct (lines !! i) as [raw|]; [|by intros [= <-]].
  pose proof (every_table_statement lines i raw s Hs) as Hstep.
  destruct (statement lines i raw s) as [i' s'']. by apply IH.
Qed.
End Invariant.
End ParseLoop.

(** ** Foreign keys in the compact serializer *)
Section ForeignKeys.
Import Str Re Compress.

(** what the parser guarantees about a stored constraint: the referenced
    column list of a foreign key comes from [str.split] and is not empty *)
Definition has_ref_columns (c : constraint) : Prop :=
  match c with
  | FOREIGN_KEY _ _ ref_columns _ => ref_columns ≠ []
  | _ => True
  end.

Definition serializable (t : table_info) : Prop := Forall has_ref_columns (constraints t).

Lemma column_list_nonempty text : column_list text ≠ [].
Proof. unfold column_list, split_on. by destruct (split_fields comma text). Qed.

Lemma remove_first_Forall (Q : constraint → Prop) x l :
  Forall Q l → Forall Q (remove_first x l).
Proof.
  induction 1 as [|y l Hy Hl IH]; simpl; [done|].
  case_bool_decide; [done | by constructor].
Qed.

Lemma claim_auto_pk_serializable seqs table_name pk_col pk t :
  serializable t → serializable (claim_auto_pk seqs table_name pk_col pk t).
Proof.
  intros Ht. induction seqs as [|[name owned] seqs IH]; simpl; [done|].
  destruct (owns _ _ _); [|done]. by apply remove_first_Forall.
Qed.

Lemma auto_pk_table_serializable seqs table_name t :
  serializable t → serializable (auto_pk_table seqs table_name t).
Proof.
  unfold auto_pk_table. generalize (filter (λ c, is_primary_key c) (constraints t)).
  intros pks. revert t. induction pks as [|pk pks IH]; intros t Ht; simpl; [done|].
  apply IH. destruct pk as [[|pk_col [|? ?]]| |]; try done.
  by apply claim_auto_pk_serializable.
Qed.

Lemma parse_schema_serializable lines dbg s :
  parse_schema lines (new dbg) = Some s → every_table serializable s.
Proof.
  unfold parse_schema. intros Hs.
  destruct (parse_loop _ lines 0 (new dbg)) as [s'|] eqn:Hloop; [|done].
  injection Hs as <-.
  assert (every_table serializable s') as Hs'.
  { eapply (every_table_loop serializable has_ref_columns); [..|exact Hloop]; try done.
    - constructor.
    - intros c t Hc Ht. apply Forall_app. split; [done | by constructor].
    - intros; apply column_list_nonempty.
    - constructor. }
  unfold every_table, _identify_auto_pk_columns in *. simpl.
  apply Forall_fmap. eapply Forall_impl; [exact Hs'|].
  intros [name t] Ht. by apply auto_pk_table_serializable.
Qed.

Lemma fk_lines_some i local_cols ref_table ref_columns d :
  ref_columns ≠ [] →
  ∃ lines, fk_lines i local_cols ref_table ref_columns d = Some lines
    ∧ length lines = length local_cols
    ∧ ∀ j local_col, local_cols !! j = Some local_col →
        ∃ ref_col, lines !! j = Some (fk_line local_col ref_table ref_col d)
          ∧ ref_columns !! (if bool_decide (i + j < length ref_columns) then i + j else 0)
            = Some ref_col.
Proof.
  intros Hne. revert i. induction local_cols as [|local_col rest IH]; intros i; simpl.
  - exists []. split; [done|]. split; [done|]. intros j c Hj. by rewrite lookup_nil in Hj.
  - assert (is_Some (ref_col_at ref_columns i)) as [ref_col Href].
    { unfold ref_col_at. case_bool_decide.
      - by apply lookup_lt_is_Some.
      - destruct ref_columns; [done | by eexists]. }
    destruct (IH (S i)) as (more & -> & Hlen & Hmore).
    rewrite Href. simpl. eexists. split; [done|]. split; [simpl; by rewrite Hlen|].
    intros [|j] c Hj; simpl in *.
    + injection Hj as <-. exists ref_col. split; [done|].
      rewrite Nat.add_0_r. unfold ref_col_at in Href. by case_bool_decide.
    + destruct (Hmore j c Hj) as (rc & Hl & Hr). exists rc. split; [done|].
      by rewrite Nat.add_succ_r.
Qed.

Lemma all_constraint_lines_some cs :
  Forall has_ref_columns cs → is_Some (all_constraint_lines cs).
Proof.
  induction 1 as [|c cs Hc Hcs [more IH]]; simpl; [done|].
  rewrite IH. destruct c as [cols|l rt refs d|cols]; simpl; try done.
  destruct (fk_lines_some 0 l rt refs d Hc) as (lines & -> & _). done.
Qed.

Lemma all_table_lines_some ts :
  Forall (λ p, serializable p.2) ts → is_Some (all_table_lines ts).
Proof.
  induction 1 as [|[name t] ts Ht Hts [more IH]]; simpl; [done|].
  rewrite IH. unfold table_lines.
  simpl in Ht. destruct (all_constraint_lines_some _ Ht) as [cl ->]. done.
Qed.

End ForeignKeys.

(** ** The auto-PK post-pass *)
Section AutoPk.
Import Str Re Compress.

(** some sequence is owned by the column *)
Definition owned (seqs : list (string * option (string * string)))
    (table_name pk_col : string) : bool :=
  existsb (λ p, owns table_name pk_col p.2) seqs.

(** a single-column primary key whose column owns a sequence *)
Definition implied_by_sequence (seqs : list (string * option (string * string)))
    (table_name : string) (c : constraint) : bool :=
  match c with
  | PRIMARY_KEY [pk_col] => owned seqs table_name pk_col
  | _ => false
  end.

Definition key_column (c : constraint) : string :=
  match c with
  | PRIMARY_KEY [pk_col] => pk_col
  | _ => ""
  end.

Definition mark_columns (cols : list string) (columns : list (string * column_info))
    : list (string * column_info) :=
  fold_left (λ columns pk_col, Dict.alter mark_auto_pk pk_col columns) cols columns.

(** the integer types of PostgreSQL, the spec's integer family *)
Definition integer_family : list string :=
  ["smallint"; "integer"; "bigint"; "int2"; "int4"; "int8"; "int";
   "smallserial"; "serial"; "bigserial"; "serial2"; "serial4"; "serial8"].

Lemma claim_auto_pk_owned seqs table_name pk_col pk t :
  claim_auto_pk seqs table_name pk_col pk t
  = if owned seqs table_name pk_col
    then {| columns := Dict.alter mark_auto_pk pk_col (columns t);
            constraints := remove_first pk (constraints t);
            indexes := indexes t |}
    else t.
Proof.
  unfold owned. induction seqs as [|[name o] seqs IH]; simpl; [done|].
  destruct (owns table_name pk_col o); simpl; [done | exact IH].
Qed.

Lemma remove_first_middle x pre l :
  x ∉ pre → remove_first x (pre ++ x :: l) = pre ++ l.
Proof.
  induction pre as [|y pre IH]; simpl; intros Hx.
  - by rewrite bool_decide_eq_true_2.
  - apply not_elem_of_cons in Hx as [Hxy Hx].
    rewrite bool_decide_eq_false_2 by done. by rewrite IH.
Qed.

Section Table.
Variable seqs : list (string * option (string * string)).
Variable table_name : string.

Let step (t : table_info) (pk_constraint : constraint) : table_info :=
  match pk_constraint with
  | PRIMARY_KEY [pk_col] => claim_auto_pk seqs table_name pk_col pk_constraint t
  | _ => t
  end.

Lemma auto_pk_fold l pre cols ix :
  Forall (λ c, implied_by_sequence seqs table_name c = false) pre →
  fold_left step (filter (λ c, is_primary_key c) l)
    {| columns := cols; constraints := pre ++ l; indexes := ix |}
  = {| columns := mark_columns
                    (key_column <$> filter (λ c, implied_by_sequence seqs table_name c) l) cols;
       constraints := pre ++ filter (λ c, ¬ implied_by_sequence seqs table_name c) l;
       indexes := ix |}.
Proof.
  revert pre cols. induction l as [|x l IH]; intros pre cols Hpre.
  - done.
  - destruct (implied_by_sequence seqs table_name x) eqn:Hx.
    + rewrite (filter_cons_True (λ c, is_primary_key c))
        by (by destruct x as [[|? [|? ?]]| |]).
      rewrite (filter_cons_True (λ c, implied_by_sequence seqs table_name c))
        by (by rewrite Hx).
      rewrite (filter_cons_False (λ c, ¬ implied_by_sequence seqs table_name c))
        by (rewrite Hx; intros H; by apply H).
      destruct x as [[|pk_col [|? ?]]| |]; try done. simpl in Hx.
      simpl. rewrite claim_auto_pk_owned, Hx. simpl.
      rewrite remove_first_middle.
      * by apply IH.
      * intros Hin. eapply Forall_forall in Hpre; [|exact Hin]. simpl in Hpre. congruence.
    + rewrite (filter_cons_False (λ c, implied_by_sequence seqs table_name c))
        by (rewrite Hx; intros []).
      rewrite (filter_cons_True (λ c, ¬ implied_by_sequence seqs table_name c))
        by (rewrite Hx; intros []).
      assert (∀ t, step t x = t) as Hstep.
      { intros t. destruct x as [[|pk_col [|? ?]]| |]; try done. simpl in *.
        by rewrite claim_auto_pk_owned, Hx. }
      replace (pre ++ x :: l) with ((pre ++ [x]) ++ l) by (by rewrite <- app_assoc).
      replace (pre ++ x :: filter (λ c, ¬ implied_by_sequence seqs table_name c) l)
        with ((pre ++ [x]) ++ filter (λ c, ¬ implied_by_sequence seqs table_name c) l)
        by (by rewrite <- app_assoc).
      assert (Forall (λ c, implied_by_sequence seqs table_name c = false) (pre ++ [x]))
        as Hpre' by (apply Forall_app; auto).
      rewrite filter_cons. case_decide; simpl; rewrite ?Hstep; by apply IH.
Qed.

(** the post-pass on one table, in closed form *)
Lemma auto_pk_table_closed t :
  auto_pk_table seqs table_name t
  = {| columns := mark_columns
         (key_column <$> filter (λ c, implied_by_sequence seqs table_name c) (constraints t))
         (columns t);
       constraints := filter (λ c, ¬ implied_by_sequence seqs table_name c) (constraints t);
       indexes := indexes t |}.
Proof.
  unfold auto_pk_table. destruct t as [cols cs ix]. simpl.
  apply (auto_pk_fold cs [] cols ix). constructor.
Qed.
End Table.

Lemma alter_keys {V} (f : V → V) k (d : list (string * V)) :
  Dict.keys (Dict.alter f k d) = Dict.keys d.
Proof.
  unfold Dict.keys. induction d as [|[k' v] d IH]; simpl; [done|].
  case_bool_decide; simpl; [done | by f_equal].
Qed.

Lemma alter_get {V} (f : V → V) k k' (d : list (string * V)) :
  Dict.get k' (Dict.alter f k d)
  = if decide (k = k') then f <$> Dict.get k' d else Dict.get k' d.
Proof.
  induction d as [|[k0 v] d IH]; simpl; [by case_decide|].
  destruct (decide (k0 = k)) as [->|Hk0].
  - rewrite bool_decide_eq_true_2 by done. simpl.
    case_decide as Hk.
    + subst. by rewrite !bool_decide_eq_true_2.
    + by rewrite !bool_decide_eq_false_2.
  - rewrite (bool_decide_eq_false_2 (k0 = k)) by done. simpl.
    case_bool_decide; [|exact IH]. subst. by rewrite decide_False by done.
Qed.

Lemma mark_columns_keys cols columns :
  Dict.keys (mark_columns cols columns) = Dict.keys columns.
Proof.
  revert columns. induction cols as [|c cols IH]; intros columns; simpl; [done|].
  unfold mark_columns in IH. by rewrite IH, alter_keys.
Qed.

Lemma mark_auto_pk_idemp c : mark_auto_pk (mark_auto_pk c) = mark_auto_pk c.
Proof. done. Qed.

Lemma mark_columns_get cols columns k :
  Dict.get k (mark_columns cols columns)
  = if decide (k ∈ cols) then mark_auto_pk <$> Dict.get k columns else Dict.get k columns.
Proof.
  revert columns. induction cols as [|c cols IH]; intros columns; simpl; [done|].
  unfold mark_columns in IH. rewrite IH, alter_get.
  destruct (decide (c = k)) as [->|Hck].
  - rewrite (decide_True (P := k ∈ k :: cols)) by apply list_elem_of_here.
    case_decide; [|done]. destruct (Dict.get k columns); simpl; by rewrite ?mark_auto_pk_idemp.
  - case_decide as Hin.
    + by rewrite decide_True by by apply list_elem_of_further.
    + rewrite decide_False; [done|]. intros [?|?]%elem_of_cons; congruence.
Qed.

Lemma get_map_tables (f : string → table_info → table_info) k (d : list (string * table_info)) :
  Dict.get k (map (λ '(name, t), (name, f name t)) d) = f k <$> Dict.get k d.
Proof.
  induction d as [|[k' v] d IH]; simpl; [done|].
  case_bool_decide; [by subst | exact IH].
Qed.

Definition stored_constraints (lines : list string) (table_name : string)
    : option (list constraint) :=
  s ← parsed lines; constraints_of table_name s.

Definition serial_dump : list string :=
  ["CREATE TABLE t (";
   "    id integer NOT NULL,";
   "    name text";
   ");";
   "CREATE SEQUENCE t_id_seq";
   "    START WITH 1;";
   "ALTER SEQUENCE t_id_seq OWNED BY t.id;";
   "ALTER TABLE t ADD CONSTRAINT t_pkey PRIMARY KEY (id);"].

Definition text_key_dump : list string :=
  ["CREATE TABLE t (";
   "    id text NOT NULL";
   ");";
   "CREATE SEQUENCE t_id_seq;";
   "ALTER SEQUENCE t_id_seq OWNED BY t.id;";
   "ALTER TABLE t ADD CONSTRAINT t_pkey PRIMARY KEY (id);"].

(** C2, as stated, fails on the type: the post-pass marks the column and
    drops the constraint but leaves the declared type, here [text]. *)
Lemma C2_type_not_forced :
  stored_column text_key_dump "t" "id"
  = Some {| col_type := "text"; not_null := true; default := None; auto_pk := true |}
  ∧ stored_constraints text_key_dump "t" = Some []
  ∧ ("text" ∉ integer_family).
Proof.
  split; [vm_compute; reflexivity|]. split; [vm_compute; reflexivity|].
  unfold integer_family. intros H. repeat (apply elem_of_cons in H as [H|H]; [done|]).
  by apply elem_of_nil in H.
Qed.

(** C2 (amended). For a table with a single-column primary key constraint
    whose column is owned by a parsed sequence, the post-pass leaves no such
    constraint (all other constraints stay, in order), keeps the column
    order, marks the column [auto_pk] when the table has it, and changes
    nothing else of the column: the type stays as declared.  On the example
    dump, column [id] of [t] is marked and [t] keeps no constraint. *)
Theorem C2_auto_pk_normalization :
  (∀ s table_name t pk_col,
     Dict.get table_name (tables s) = Some t →
     PRIMARY_KEY [pk_col] ∈ constraints t →
     owned (sequences s) table_name pk_col = true →
     ∃ t', Dict.get table_name (tables (_identify_auto_pk_columns s)) = Some t'
       ∧ (PRIMARY_KEY [pk_col] ∉ constraints t')
       ∧ constraints t'
         = filter (λ c, ¬ implied_by_sequence (sequences s) table_name c) (constraints t)
       ∧ Dict.keys (columns t') = Dict.keys (columns t)
       ∧ indexes t' = indexes t
       ∧ ∀ c, Dict.get pk_col (columns t) = Some c →
           Dict.get pk_col (columns t')
           = Some {| col_type := col_type c; not_null := not_null c;
                     default := Compress.default c; auto_pk := true |})
  ∧ auto_pk <$> stored_column serial_dump "t" "id" = Some true
  ∧ stored_constraints serial_dump "t" = Some [].
Proof.
  split; [|split; vm_compute; reflexivity].
  intros s table_name t pk_col Ht Hpk Howned.
  exists (auto_pk_table (sequences s) table_name t).
  unfold _identify_auto_pk_columns. simpl. rewrite get_map_tables, Ht. simpl.
  split; [done|]. rewrite auto_pk_table_closed. simpl.
  split; [|split; [done|split; [apply mark_columns_keys|split; [done|]]]].
  - intros [Hnot _]%list_elem_of_filter. apply Hnot. simpl. by rewrite Howned.
  - intros c Hc. rewrite mark_columns_get, Hc. rewrite decide_True; [done|].
    apply list_elem_of_fmap. exists (PRIMARY_KEY [pk_col]). split; [done|].
    apply list_elem_of_filter. split; [|done]. simpl. by rewrite Howned.
Qed.

Definition bigint_key_table : table_info :=
  {| columns := [("id", {| col_type := "bigint"; not_null := true;
                           default := None; auto_pk := false |})];
     constraints := [PRIMARY_KEY ["id"]];
     indexes := [] |}.

Definition bigint_key_state : SchemaCompressor :=
  {| tables := [("t", bigint_key_table)];
     sequences := [("t_id_seq", Some ("t", "id"))];
     default_owner := None; default_schema := "public"; current_table := None;
     debug := false; printed := [] |}.

Lemma C2_auto_pk_normalization_witness :
  ∃ t', Dict.get "t" (tables (_identify_auto_pk_columns bigint_key_state)) = Some t'
    ∧ (PRIMARY_KEY ["id"] ∉ constraints t')
    ∧ constraints t'
      = filter (λ c, ¬ implied_by_sequence (sequences bigint_key_state) "t" c)
          (constraints bigint_key_table)
    ∧ Dict.keys (columns t') = Dict.keys (columns bigint_key_table)
    ∧ indexes t' = indexes bigint_key_table
    ∧ ∀ c, Dict.get "id" (columns bigint_key_table) = Some c →
        Dict.get "id" (columns t')
        = Some {| col_type := col_type c; not_null := not_null c;
                  default := Compress.default c; auto_pk := true |}.
Proof.
  apply (proj1 C2_auto_pk_normalization bigint_key_state "t" bigint_key_table "id").
  - reflexivity.
  - apply list_elem_of_here.
  - reflexivity.
Defined.

End AutoPk.

(** ** Constraints and indexes on tables that are not in the model *)
Section Dangling.
Import Str Re Compress.

(** the text printed by a run, when [debug] is set *)
Definition print_all (ds : list diag) (s : SchemaCompressor) : SchemaCompressor :=
  fold_left (λ s d, debug_print d s) ds s.

Lemma debug_print_off d s : debug s = false → debug_print d s = s.
Proof. intros Hoff. unfold debug_print. by rewrite Hoff. Qed.

Lemma print_all_off ds s : debug s = false → print_all ds s = s.
Proof.
  intros Hoff. induction ds as [|d ds IH]; simpl; [done|].
  by rewrite debug_print_off.
Qed.

Lemma debug_print_fields d s :
  tables (debug_print d s) = tables s
  ∧ sequences (debug_print d s) = sequences s
  ∧ default_owner (debug_print d s) = default_owner s
  ∧ current_table (debug_print d s) = current_table s
  ∧ debug (debug_print d s) = debug s
  ∧ printed (debug_print d s) = printed s ++ (if debug s then [d] else []).
Proof. unfold debug_print. destruct (debug s) eqn:Hd; simpl; by rewrite ?app_nil_r. Qed.

Lemma tables_debug_print d s : tables (debug_print d s) = tables s.
Proof. apply debug_print_fields. Qed.

Lemma print_all_fields ds s :
  tables (print_all ds s) = tables s
  ∧ sequences (print_all ds s) = sequences s
  ∧ default_owner (print_all ds s) = default_owner s
  ∧ current_table (print_all ds s) = current_table s
  ∧ printed (print_all ds s) = printed s ++ (if debug s then ds else []).
Proof.
  destruct (debug s) eqn:Hd.
  - revert s Hd. induction ds as [|d ds IH]; intros s Hd; simpl.
    + by rewrite app_nil_r.
    + destruct (debug_print_fields d s) as (Ht & Hs & Ho & Hc & Hd' & Hp).
      rewrite Hd in Hd', Hp.
      destruct (IH _ Hd') as (-> & -> & -> & -> & ->).
      rewrite Ht, Hs, Ho, Hc, Hp. by rewrite <- app_assoc.
  - rewrite print_all_off by done. by rewrite app_nil_r.
Qed.

(** the line is handled by [_parse_alter_table_constraint] and by nothing else *)
Definition alter_constraint_line (line : string) : bool :=
  startswith "ALTER TABLE" line && contains "ADD CONSTRAINT" line
  && negb (contains "OWNER TO" line)
  && negb (startswith "CREATE TABLE" line) && negb (startswith "CREATE SEQUENCE" line)
  && negb (contains "SEQUENCE" line && contains "OWNED BY" line).

(** the line is handled by [_parse_create_index] and by nothing else *)
Definition create_index_line (line : string) : bool :=
  startswith "CREATE" line && contains "INDEX" line
  && negb (startswith "ALTER TABLE" line)
  && negb (startswith "CREATE TABLE" line) && negb (startswith "CREATE SEQUENCE" line)
  && negb (contains "SEQUENCE" line && contains "OWNED BY" line).

Lemma statement_alter_constraint lines i raw s :
  alter_constraint_line (strip raw) = true →
  statement lines i raw s = (i, _parse_alter_table_constraint (strip raw) s).
Proof.
  unfold alter_constraint_line, statement, note_owner.
  intros H. repeat (apply andb_prop in H as [H ?]).
  repeat match goal with
         | H : negb _ = true |- _ => apply negb_true_iff in H
         end.
  by repeat match goal with
            | H : _ = _ |- _ => rewrite H; simpl
            end.
Qed.

Lemma statement_create_index lines i raw s :
  create_index_line (strip raw) = true →
  statement lines i raw s = (i, _parse_create_index (strip raw) s).
Proof.
  unfold create_index_line, statement, note_owner.
  intros H. repeat (apply andb_prop in H as [H ?]).
  repeat match goal with
         | H : negb _ = true |- _ => apply negb_true_iff in H
         end.
  by repeat match goal with
            | H : _ = _ |- _ => rewrite H; simpl
            end.
Qed.

(** *** Dropping the first line of a dump *)

Lemma table_body_shift rest i table_name s :
  table_body rest (S i) table_name s
  = ((λ p, (S p.1, p.2)) (table_body rest i table_name s)).
Proof.
  revert i s. induction rest as [|raw rest IH]; intros i s; simpl; [done|].
  destruct (_ || _); [done|]. by rewrite IH.
Qed.

Lemma statement_shift first lines i raw s :
  statement (first :: lines) (S i) raw s
  = ((λ p, (S p.1, p.2)) (statement lines i raw s)).
Proof.
  unfold statement, _parse_create_table, _parse_create_sequence. simpl.
  repeat case_match; simplify_eq/=; try done; try congruence.
  all: by rewrite table_body_shift.
Qed.

Lemma parse_loop_shift fuel first lines i s :
  parse_loop fuel (first :: lines) (S i) s = parse_loop fuel lines i s.
Proof.
  revert i s. induction fuel as [|fuel IH]; intros i s; simpl; [done|].
  destruct (lines !! i) as [raw|]; [|done].
  rewrite statement_shift. destruct (statement lines i raw s) as [i' s']. simpl.
  apply IH.
Qed.

(** a first line that leaves the state alone might as well not be there *)
Lemma parse_schema_skip first lines s :
  statement (first :: lines) 0 first s = (0, s) →
  parse_schema (first :: lines) s = parse_schema lines s.
Proof.
  intros Hstep. unfold parse_schema.
  change (parse_loop (S (length (first :: lines))) (first :: lines) 0 s)
    with (let '(i', s') := statement (first :: lines) 0 first s in
          parse_loop (S (length lines)) (first :: lines) (S i') s').
  by rewrite Hstep, parse_loop_shift.
Qed.

Definition dangling_dump : list string :=
  ["ALTER TABLE ONLY public.ghost ADD CONSTRAINT ghost_pkey PRIMARY KEY (id);";
   "CREATE INDEX ghost_idx ON public.ghost USING btree (name);";
   "CREATE TABLE public.ghost (";
   "    id integer NOT NULL,";
   "    name text";
   ");"].

(** C8, as stated, fails on the diagnostic: a run with debugging off, which
    is how [main] builds the compressor, drops both statements and prints
    nothing. *)
Lemma C8_dropped_without_diagnostic :
  printed <$> parsed dangling_dump = Some []
  ∧ stored_constraints dangling_dump "ghost" = Some []
  ∧ indexes <$> (parsed dangling_dump ≫= λ s, Dict.get "ghost" (tables s)) = Some [].
Proof. repeat split; vm_compute; reflexivity. Qed.

(** C8 (amended). A constraint or an index on a table that is not yet in
    the model is dropped: tables, sequences, owner and current table are
    unchanged, and a diagnostic is printed only when the debug flag is set.
    Nothing is kept for later: with debugging off, a dump that starts with
    such a statement parses to the model of the dump without it, whatever
    follows. *)
Theorem C8_dangling_reference_dropped :
  (∀ s line m,
     search re_alter_table line = Some m →
     Dict.mem (group_str 2 m) (tables s) = false →
     _parse_alter_table_constraint line s
     = print_all [TableNotFound (group_str 2 m) (list.take 5 (Dict.keys (tables s)))] s)
  ∧ (∀ s line m,
       search re_create_index line = Some m →
       Dict.mem (group_str 3 m) (tables s) = false →
       _parse_create_index line s
       = print_all [ProcessingIndex (group_str 1 m) (group_str 3 m);
                    AvailableTables (list.take 5 (Dict.keys (tables s)));
                    IndexTableNotFound (group_str 3 m)] s)
  ∧ (∀ ds s,
       tables (print_all ds s) = tables s
       ∧ sequences (print_all ds s) = sequences s
       ∧ default_owner (print_all ds s) = default_owner s
       ∧ current_table (print_all ds s) = current_table s
       ∧ printed (print_all ds s) = printed s ++ (if debug s then ds else []))
  ∧ (∀ s first rest m,
       debug s = false →
       alter_constraint_line (strip first) = true →
       search re_alter_table (strip first) = Some m →
       Dict.mem (group_str 2 m) (tables s) = false →
       parse_schema (first :: rest) s = parse_schema rest s)
  ∧ (∀ s first rest m,
       debug s = false →
       create_index_line (strip first) = true →
       search re_create_index (strip first) = Some m →
       Dict.mem (group_str 3 m) (tables s) = false →
       parse_schema (first :: rest) s = parse_schema rest s).
Proof.
  assert (∀ s line m,
     search re_alter_table line = Some m →
     Dict.mem (group_str 2 m) (tables s) = false →
     _parse_alter_table_constraint line s
     = print_all [TableNotFound (group_str 2 m) (list.take 5 (Dict.keys (tables s)))] s)
    as Halter.
  { intros s line m Hm Hmem. unfold _parse_alter_table_constraint.
    by rewrite Hm, Hmem. }
  assert (∀ s line m,
       search re_create_index line = Some m →
       Dict.mem (group_str 3 m) (tables s) = false →
       _parse_create_index line s
       = print_all [ProcessingIndex (group_str 1 m) (group_str 3 m);
                    AvailableTables (list.take 5 (Dict.keys (tables s)));
                    IndexTableNotFound (group_str 3 m)] s)
    as Hindex.
  { intros s line m Hm Hmem. unfold _parse_create_index. rewrite Hm.
    cbv zeta. rewrite !tables_debug_print. by rewrite Hmem. }
  split; [exact Halter|]. split; [exact Hindex|]. split; [|split].
  - intros ds s. apply print_all_fields.
  - intros s first rest m Hoff Hline Hm Hmem. apply parse_schema_skip.
    rewrite statement_alter_constraint by done.
    by rewrite (Halter _ _ _ Hm Hmem), print_all_off.
  - intros s first rest m Hoff Hline Hm Hmem. apply parse_schema_skip.
    rewrite statement_create_index by done.
    by rewrite (Hindex _ _ _ Hm Hmem), print_all_off.
Qed.

Definition ghost_constraint_line : string :=
  "ALTER TABLE ONLY public.ghost ADD CONSTRAINT ghost_pkey PRIMARY KEY (id);".
Definition ghost_index_line : string :=
  "CREATE INDEX ghost_idx ON public.ghost USING btree (name);".
Definition ghost_table_lines : list string :=
  ["CREATE TABLE public.ghost ("; "    id integer NOT NULL"; ");"].
Definition ghost_constraint_match : gmap nat string := <[1 := "public."]> {[2 := "ghost"]}.
Definition ghost_index_match : gmap nat string :=
  <[1 := "ghost_idx"]> (<[2 := "public."]> {[3 := "ghost"]}).

Lemma C8_dangling_reference_dropped_witness :
  _parse_alter_table_constraint ghost_constraint_line (new true)
  = print_all [TableNotFound "ghost" []] (new true)
  ∧ _parse_create_index ghost_index_line (new true)
    = print_all [ProcessingIndex "ghost_idx" "ghost"; AvailableTables [];
                 IndexTableNotFound "ghost"] (new true)
  ∧ parse_schema (ghost_constraint_line :: ghost_table_lines) (new false)
    = parse_schema ghost_table_lines (new false)
  ∧ parse_schema (ghost_index_line :: ghost_table_lines) (new false)
    = parse_schema ghost_table_lines (new false).
Proof.
  destruct C8_dangling_reference_dropped as (Halter & Hindex & _ & Hlater & Hlater').
  split; [|split; [|split]].
  - apply (Halter (new true) ghost_constraint_line ghost_constraint_match);
      vm_compute; reflexivity.
  - apply (Hindex (new true) ghost_index_line ghost_index_match); vm_compute; reflexivity.
  - apply (Hlater (new false) ghost_constraint_line ghost_table_lines ghost_constraint_match);
      vm_compute; reflexivity.
  - apply (Hlater' (new false) ghost_index_line ghost_table_lines ghost_index_match);
      vm_compute; reflexivity.
Defined.

End Dangling.

(** ** Facts about the string primitives *)
Section Strings.
Import Str.

Lemma append_nil_l (s : string) : "" +:+ s = s.
Proof. reflexivity. Qed.

Lemma append_cons a (p s : string) : String a p +:+ s = String a (p +:+ s).
Proof. reflexivity. Qed.

Lemma append_assoc (a b c : string) : (a +:+ b) +:+ c = a +:+ (b +:+ c).
Proof.
  induction a as [|x a IH]; [done|]. rewrite !append_cons. by rewrite IH.
Qed.

Lemma append_nil_r (a : string) : a +:+ "" = a.
Proof. induction a as [|x a IH]; [done|]. rewrite append_cons. by rewrite IH. Qed.

Lemma startswith_true p s : startswith p s = true ↔ ∃ r, strip_prefix p s = Some r.
Proof. unfold startswith. rewrite bool_decide_eq_true. done. Qed.

Lemma strip_prefix_app p s r : strip_prefix p s = Some r ↔ s = p +:+ r.
Proof.
  revert s. induction p as [|a p IH]; intros s; simpl.
  - change ("" +:+ r) with r. split; [by intros [= ->] | by intros ->].
  - change (String a p +:+ r) with (String a (p +:+ r)).
    destruct s as [|b s]; [split; discriminate|].
    case_bool_decide as Hab.
    + subst. rewrite IH. split; [by intros -> | by intros [= ->]].
    + split; [discriminate | intros [= -> ->]; done].
Qed.

Lemma startswith_app p r : startswith p (p +:+ r) = true.
Proof. apply startswith_true. exists r. by apply strip_prefix_app. Qed.

Lemma startswith_app_l p q s : startswith (p +:+ q) s = true → startswith p s = true.
Proof.
  rewrite !startswith_true. intros [r Hr]. apply strip_prefix_app in Hr as ->.
  exists (q +:+ r). apply strip_prefix_app. apply append_assoc.
Qed.

Lemma contains_app_l p q s : contains (p +:+ q) s = true → contains p s = true.
Proof.
  induction s as [|c s IH]; simpl.
  - rewrite !orb_false_r. apply startswith_app_l.
  - intros [H|H]%orb_prop; apply orb_true_iff; [left | right; auto].
    by eapply startswith_app_l.
Qed.

Section Strip.
Variable p : ascii → bool.

Lemma rstrip_by_cons c s : p c = false → ∃ r, rstrip_by p (String c s) = String c r.
Proof. intros Hc. simpl. destruct (rstrip_by p s); rewrite ?Hc; by eexists. Qed.

Lemma rstrip_by_idemp s : rstrip_by p (rstrip_by p s) = rstrip_by p s.
Proof.
  induction s as [|c s IH]; simpl; [done|].
  destruct (rstrip_by p s) as [|d r] eqn:Hr.
  - destruct (p c) eqn:Hc; simpl; by rewrite ?Hc.
  - change (rstrip_by p (String c (String d r))) with
      (match rstrip_by p (String d r) with
       | "" => if p c then "" else String c ""
       | r' => String c r'
       end).
    by rewrite IH.
Qed.

(** the text has no leading character of the stripped class *)
Definition clean_start (s : string) : Prop :=
  match s with
  | "" => True
  | String c _ => p c = false
  end.

Lemma lstrip_by_clean s : clean_start (lstrip_by p s).
Proof. induction s as [|c s IH]; simpl; [done|]. by destruct (p c) eqn:Hc. Qed.

Lemma lstrip_by_id s : clean_start s → lstrip_by p s = s.
Proof. destruct s as [|c s]; simpl; [done|]. by intros ->. Qed.

Lemma rstrip_by_clean s : clean_start s → clean_start (rstrip_by p s).
Proof.
  destruct s as [|c s]; [done|]. intros Hc.
  by destruct (rstrip_by_cons c s Hc) as [r ->].
Qed.

Lemma strip_by_idemp s : strip_by p (strip_by p s) = strip_by p s.
Proof.
  unfold strip_by.
  rewrite (lstrip_by_id (rstrip_by p (lstrip_by p s)))
    by apply rstrip_by_clean, lstrip_by_clean.
  apply rstrip_by_idemp.
Qed.
End Strip.

Lemma strip_idemp s : strip (strip s) = strip s.
Proof. apply strip_by_idemp. Qed.

End Strings.

(** ** The [: PK] shorthand in the compact parser *)
Section PkShorthand.
Import Str Re Context.

(** the column name [_parse_column] takes from a [: PK] line *)
Definition pk_column_name (line : string) : string :=
  strip_char quote (strip (split_fields colon (strip line)).1).

Lemma _parse_column_pk line table_name s :
  contains ": PK" (strip line) = true →
  _parse_column line table_name s
  = with_tables (Dict.alter (add_pk_column (pk_column_name line)) table_name) s.
Proof. intros Hpk. unfold _parse_column. by rewrite Hpk. Qed.

Definition prefixed_pk_text : string :=
  join (String nl "") ["t:"; "  IDX_note: PKEY"; "  -- legacy: PK"; "  id: PK"].

(** C10, as stated, fails for indented lines that never reach the column
    parser: a line starting with [  IDX] and a comment line both contain
    [: PK] and register nothing; only [id] becomes a column. *)
Lemma C10_not_every_indented_line :
  (λ s, (columns <$> Dict.get "t" (tables s), primary_keys <$> Dict.get "t" (tables s)))
    (parse_compressed_schema prefixed_pk_text new)
  = (Some ["id"], Some ["id"])
  ∧ contains ": PK" "  IDX_note: PKEY" = true
  ∧ contains ": PK" "  -- legacy: PK" = true.
Proof. repeat split; vm_compute; reflexivity. Qed.

(** C10 (amended). A two-space-indented line inside a table block that is
    not a comment, does not start with [  FK], [  UNIQUE], [  IDX] or
    [  PRIMARY], and contains [: PK] anywhere is taken as an auto-increment
    primary key: the text before the first colon is appended to the columns
    and to the primary keys of the table, [integer] is counted once more and
    so is a required column; the rest of the line is ignored. *)
Theorem C10_pk_shorthand_by_substring :
  (∀ s t original_line,
     startswith "  " original_line = true →
     startswith "--" (strip original_line) = false →
     startswith "  FK" original_line = false →
     startswith "  UNIQUE" original_line = false →
     startswith "  IDX" original_line = false →
     startswith "  PRIMARY" original_line = false →
     contains ": PK" (strip original_line) = true →
     parse_line (s, Some t) original_line
     = (with_tables (Dict.alter (add_pk_column (pk_column_name original_line)) t) s, Some t))
  ∧ (∀ name tb,
       columns (add_pk_column name tb) = columns tb ++ [name]
       ∧ primary_keys (add_pk_column name tb) = primary_keys tb ++ [name]
       ∧ (∀ ty, count_of ty (column_types (add_pk_column name tb))
                = if decide (ty = "integer") then S (count_of ty (column_types tb))
                  else count_of ty (column_types tb))
       ∧ required_columns (add_pk_column name tb) = S (required_columns tb)
       ∧ nullable_columns (add_pk_column name tb) = nullable_columns tb)
  ∧ parse_line (with_tables (Dict.set "t" empty_table) new, Some "t") "  token: PKHASH NOT NULL"
    = (with_tables (Dict.set "t" (add_pk_column "token" empty_table)) new, Some "t").
Proof.
  split; [|split].
  - intros s t original_line Hind Hcomment Hfk Hunique Hidx Hprimary Hpk.
    unfold parse_line.
    assert (nonempty (strip original_line) = true) as ->.
    { destruct (strip original_line); [discriminate Hpk | done]. }
    rewrite Hcomment. simpl.
    assert (startswith " " original_line = true) as ->.
    { by apply (startswith_app_l " " " "). }
    rewrite andb_false_r, Hind, Hfk, Hunique, Hidx, Hprimary.
    assert (contains ":" (strip original_line) = true) as ->.
    { by apply (contains_app_l ":" " PK"). }
    simpl. rewrite _parse_column_pk by (by rewrite strip_idemp).
    unfold pk_column_name. by rewrite strip_idemp.
  - intros name tb. simpl. repeat split; try done.
    intros ty. rewrite count_of_incr. by repeat case_decide.
  - vm_compute. reflexivity.
Qed.

Lemma C10_pk_shorthand_by_substring_witness :
  parse_line (with_tables (Dict.set "t" empty_table) new, Some "t") "  token: PKHASH NOT NULL"
  = (with_tables (Dict.alter (add_pk_column (pk_column_name "  token: PKHASH NOT NULL")) "t")
       (with_tables (Dict.set "t" empty_table) new), Some "t").
Proof.
  apply (proj1 C10_pk_shorthand_by_substring
           (with_tables (Dict.set "t" empty_table) new) "t" "  token: PKHASH NOT NULL");
    vm_compute; reflexivity.
Defined.

End PkShorthand.

(** ** Tokens: facts about text without separators *)
Section Tokens.
Import Str.

Definition not_space (c : ascii) : bool := negb (is_space c).
(** a non-empty run of characters of one class *)
Definition token (p : ascii → bool) (s : string) : bool := nonempty s && all_chars p s.
(** a name in the sense of the pattern [\w+] *)
Definition ident : string → bool := token is_word.

Lemma all_chars_app p a b : all_chars p (a +:+ b) = all_chars p a && all_chars p b.
Proof.
  induction a as [|c a IH]; [done|]. rewrite append_cons. simpl.
  by rewrite IH, andb_assoc.
Qed.

Lemma all_chars_impl (p q : ascii → bool) s :
  (∀ c, p c = true → q c = true) → all_chars p s = true → all_chars q s = true.
Proof.
  intros Hpq. induction s as [|c s IH]; simpl; [done|].
  intros [Hc Hs]%andb_prop. by rewrite (Hpq c Hc), IH.
Qed.

Lemma map_chars_app f a b : map_chars f (a +:+ b) = map_chars f a +:+ map_chars f b.
Proof.
  induction a as [|c a IH]; [done|]. rewrite append_cons. simpl.
  by rewrite IH.
Qed.

Lemma upper_app a b : upper (a +:+ b) = upper a +:+ upper b.
Proof. apply map_chars_app. Qed.

Lemma length_app a b : String.length (a +:+ b) = String.length a + String.length b.
Proof.
  induction a as [|c a IH]; [done|]. rewrite append_cons. simpl. by rewrite IH.
Qed.

Lemma take_app a b : take (String.length (a +:+ b) - String.length b) (a +:+ b) = a.
Proof.
  rewrite length_app. replace (_ + _ - _) with (String.length a) by lia.
  induction a as [|c a IH]; [by destruct b|]. rewrite append_cons. simpl. by rewrite IH.
Qed.

Lemma is_word_not_space c : is_word c = true → not_space c = true.
Proof. revert c. by intros [[] [] [] [] [] [] [] []]. Qed.

Lemma upper_char_space c : is_space (upper_char c) = is_space c.
Proof. revert c. by intros [[] [] [] [] [] [] [] []]. Qed.

Lemma upper_not_space s : all_chars not_space s = true → all_chars not_space (upper s) = true.
Proof.
  unfold upper. induction s as [|c s IH]; simpl; [done|].
  intros [Hc Hs]%andb_prop. rewrite (IH Hs), andb_true_r.
  unfold not_space in *. by rewrite upper_char_space.
Qed.

(** *** Prefixes and substrings *)

Lemma startswith_nil s : startswith "" s = true.
Proof. done. Qed.

Lemma startswith_cons a p b s :
  startswith (String a p) (String b s) = bool_decide (a = b) && startswith p s.
Proof.
  unfold startswith. simpl. by destruct (bool_decide (a = b)).
Qed.

Lemma startswith_empty a p : startswith (String a p) "" = false.
Proof. done. Qed.

(** a prefix match cannot run over a character that the pattern lacks *)
Lemma startswith_app_sep p a x b :
  all_chars (λ c, negb (bool_decide (c = x))) p = true →
  startswith p (a +:+ String x b) = startswith p a.
Proof.
  revert a. induction p as [|c p IH]; intros a Hp; [done|].
  simpl in Hp. apply andb_prop in Hp as [Hc Hp].
  destruct a as [|d a].
  - rewrite append_nil_l, startswith_cons, startswith_empty.
    apply negb_true_iff, bool_decide_eq_false in Hc.
    by rewrite bool_decide_eq_false_2.
  - rewrite append_cons, !startswith_cons. by rewrite IH.
Qed.

Lemma contains_cons p c s : contains p (String c s) = startswith p (String c s) || contains p s.
Proof. done. Qed.

Lemma contains_app_sep p a x b :
  all_chars (λ c, negb (bool_decide (c = x))) p = true → nonempty p = true →
  contains p (a +:+ String x b) = contains p a || contains p b.
Proof.
  intros Hp Hne. induction a as [|d a IH].
  - rewrite append_nil_l, contains_cons.
    destruct p as [|c p]; [done|]. simpl in Hp. apply andb_prop in Hp as [Hc _].
    apply negb_true_iff, bool_decide_eq_false in Hc.
    rewrite startswith_cons, bool_decide_eq_false_2 by done. done.
  - rewrite append_cons, !contains_cons, IH.
    rewrite <- (append_cons d a), startswith_app_sep by done.
    by rewrite orb_assoc.
Qed.

Lemma contains_start p s : startswith p s = true → contains p s = true.
Proof. intros H. destruct s; simpl; by rewrite H. Qed.

Lemma contains_app_r p a s : contains p s = true → contains p (a +:+ s) = true.
Proof.
  intros H. induction a as [|c a IH]; [done|].
  rewrite append_cons, contains_cons, IH. apply orb_true_r.
Qed.

(** [p in a + p + b] *)
Lemma contains_here p a b : contains p (a +:+ p +:+ b) = true.
Proof. apply contains_app_r, contains_start, startswith_app. Qed.

(** a substring has only characters of the text *)
Lemma startswith_all_chars q p s :
  startswith p s = true → all_chars q s = true → all_chars q p = true.
Proof.
  revert s. induction p as [|a p IH]; intros s; [done|].
  destruct s as [|b s]; [done|]. rewrite startswith_cons.
  intros [Hab Hp]%andb_prop [Hb Hs]%andb_prop. apply bool_decide_eq_true in Hab as ->.
  simpl. rewrite Hb. simpl. by eapply IH.
Qed.

Lemma contains_all_chars q p s :
  contains p s = true → all_chars q s = true → all_chars q p = true.
Proof.
  induction s as [|c s IH].
  - simpl. rewrite orb_false_r. intros H _. by eapply startswith_all_chars.
  - rewrite contains_cons. intros [H|H]%orb_prop Hs.
    + by eapply startswith_all_chars.
    + simpl in Hs. apply andb_prop in Hs as [_ Hs]. by apply IH.
Qed.

(** the text before a separator can be skipped when no match starts in it *)
Lemma contains_skip p a b :
  (∀ a1 c a2, a = a1 +:+ String c a2 → startswith p (String c a2 +:+ b) = false) →
  contains p (a +:+ b) = contains p b.
Proof.
  induction a as [|c a IH]; intros Hno; [done|].
  rewrite append_cons, contains_cons, <- append_cons.
  rewrite (Hno "" c a) by done. simpl. apply IH.
  intros a1 c' a2 ->. apply (Hno (String c a1) c' a2). done.
Qed.

End Tokens.

(** ** Stripping, splitting and joining *)
Section Splitting.
Import Str.

Definition is_not (x : ascii) (c : ascii) : bool := negb (bool_decide (c = x)).

Lemma append_nonempty a b : nonempty b = true → nonempty (a +:+ b) = true.
Proof. destruct a, b; done. Qed.

Lemma nonempty_true s : nonempty s = true ↔ s ≠ "".
Proof. unfold nonempty. rewrite negb_true_iff, bool_decide_eq_false. done. Qed.

Section Strip.
Variable p : ascii → bool.

Lemma rstrip_by_app a b :
  nonempty (rstrip_by p b) = true → rstrip_by p (a +:+ b) = a +:+ rstrip_by p b.
Proof.
  intros Hb. induction a as [|c a IH]; [done|].
  rewrite !append_cons. simpl. rewrite IH.
  pose proof (append_nonempty a _ Hb) as Hne.
  by destruct (a +:+ rstrip_by p b).
Qed.

Lemma rstrip_by_token s : all_chars (λ c, negb (p c)) s = true → rstrip_by p s = s.
Proof.
  induction s as [|c s IH]; simpl; [done|].
  intros [Hc Hs]%andb_prop. rewrite (IH Hs). apply negb_true_iff in Hc.
  destruct s; by rewrite ?Hc.
Qed.

(** text that [rstrip] leaves alone, and that is not empty *)
Definition tidy (s : string) : Prop := rstrip_by p s = s ∧ nonempty s = true.

Lemma tidy_app a b : tidy b → tidy (a +:+ b).
Proof.
  intros [Hb Hne]. split; [|by apply append_nonempty].
  rewrite rstrip_by_app, Hb; [done|]. by rewrite Hb.
Qed.

Lemma tidy_token s : nonempty s = true → all_chars (λ c, negb (p c)) s = true → tidy s.
Proof. intros Hne Hs. split; [by apply rstrip_by_token | done]. Qed.

Lemma strip_by_tidy s : clean_start p s → tidy s → strip_by p s = s.
Proof. intros Hs [Ht _]. unfold strip_by. by rewrite lstrip_by_id. Qed.

Lemma clean_start_app a b : nonempty a = true → clean_start p a → clean_start p (a +:+ b).
Proof. by destruct a. Qed.

Lemma clean_start_token s : all_chars (λ c, negb (p c)) s = true → clean_start p s.
Proof. destruct s as [|c s]; simpl; [done|]. by intros [Hc%negb_true_iff _]%andb_prop. Qed.

Lemma strip_by_token s : all_chars (λ c, negb (p c)) s = true → strip_by p s = s.
Proof.
  intros Hs. unfold strip_by. rewrite lstrip_by_id by by apply clean_start_token.
  by apply rstrip_by_token.
Qed.

(** trailing characters of the stripped class vanish *)
Lemma rstrip_by_app_class a b :
  all_chars p b = true → rstrip_by p (a +:+ b) = rstrip_by p a.
Proof.
  intros Hb. induction a as [|c a IH].
  - rewrite append_nil_l. induction b as [|d b IHb]; simpl; [done|].
    simpl in Hb. apply andb_prop in Hb as [Hd Hb]. by rewrite (IHb Hb), Hd.
  - rewrite append_cons. simpl. by rewrite IH.
Qed.
End Strip.

(** *** Splitting at a separator *)
Section Split.
Variable sep : ascii.

Lemma split_once_app a b :
  all_chars (is_not sep) a = true → split_once sep (a +:+ String sep b) = (a, Some b).
Proof.
  induction a as [|c a IH]; intros Ha.
  - rewrite append_nil_l. simpl. by rewrite bool_decide_eq_true_2.
  - simpl in Ha. apply andb_prop in Ha as [Hc Ha].
    apply negb_true_iff, bool_decide_eq_false in Hc.
    rewrite append_cons. simpl. by rewrite bool_decide_eq_false_2, IH.
Qed.

Lemma split_fields_app a b :
  all_chars (is_not sep) a = true →
  split_fields sep (a +:+ String sep b) = (a, split_on sep b).
Proof.
  induction a as [|c a IH]; intros Ha.
  - rewrite append_nil_l. simpl. unfold split_on.
    destruct (split_fields sep b). by rewrite bool_decide_eq_true_2.
  - simpl in Ha. apply andb_prop in Ha as [Hc Ha].
    apply negb_true_iff, bool_decide_eq_false in Hc.
    rewrite append_cons. simpl. rewrite IH by done. by rewrite bool_decide_eq_false_2.
Qed.

Lemma split_fields_token a : all_chars (is_not sep) a = true → split_fields sep a = (a, []).
Proof.
  induction a as [|c a IH]; intros Ha; [done|].
  simpl in Ha. apply andb_prop in Ha as [Hc Ha].
  apply negb_true_iff, bool_decide_eq_false in Hc.
  simpl. rewrite IH by done. by rewrite bool_decide_eq_false_2.
Qed.

Lemma split_on_app a b :
  all_chars (is_not sep) a = true → split_on sep (a +:+ String sep b) = a :: split_on sep b.
Proof. intros Ha. unfold split_on at 1. by rewrite split_fields_app. Qed.

Lemma split_on_token a : all_chars (is_not sep) a = true → split_on sep a = [a].
Proof. intros Ha. unfold split_on. by rewrite split_fields_token. Qed.

(** [sep.join(l).split(sep)] gives [l] back *)
Lemma split_on_join l :
  l ≠ [] → Forall (λ s, all_chars (is_not sep) s = true) l →
  split_on sep (join (String sep "") l) = l.
Proof.
  intros Hne Hl. induction Hl as [|a l Ha Hl IH]; [done|].
  destruct l as [|b l]; simpl.
  - by apply split_on_token.
  - rewrite append_cons, append_nil_l, split_on_app by done. f_equal. by apply IH.
Qed.
End Split.

(** the first word of a text that starts with a token *)
Lemma split_ws_first tok rest :
  token not_space tok = true →
  (rest = "" ∨ ∃ c r, rest = String c r ∧ is_space c = true) →
  ∃ ws, split_ws (tok +:+ rest) = tok :: ws.
Proof.
  unfold token. intros [Hne Htok]%andb_prop Hrest.
  induction tok as [|c tok IH]; [done|].
  simpl in Htok. apply andb_prop in Htok as [Hc Htok].
  unfold not_space in Hc. apply negb_true_iff in Hc.
  rewrite append_cons. simpl. rewrite Hc.
  destruct tok as [|c' tok].
  - rewrite append_nil_l. destruct Hrest as [->|(d & r & -> & Hd)]; [by eexists|].
    rewrite Hd. by eexists.
  - rewrite append_cons. simpl in Htok. pose proof Htok as Htok'.
    apply andb_prop in Htok as [Hc' Htok].
    unfold not_space in Hc'. apply negb_true_iff in Hc'. rewrite Hc'.
    destruct IH as [ws Hws]; [done | done |].
    rewrite append_cons in Hws. rewrite Hws. by eexists.
Qed.

End Splitting.

(** ** Column lists, names and the regex engine on emitted text *)
Section Emitted.
Import Str Re.

Lemma ident_chars (q : ascii → bool) s :
  (∀ c, is_word c = true → q c = true) → ident s = true → all_chars q s = true.
Proof.
  intros Hq [_ Hs]%andb_prop. by eapply all_chars_impl.
Qed.

Lemma ident_nonempty s : ident s = true → nonempty s = true.
Proof. by intros [? _]%andb_prop. Qed.

Lemma is_word_is_not x c : is_word x = false → is_word c = true → is_not x c = true.
Proof.
  intros Hx Hc. unfold is_not. apply negb_true_iff, bool_decide_eq_false. congruence.
Qed.

Lemma ident_not_space s : ident s = true → all_chars not_space s = true.
Proof. apply ident_chars, is_word_not_space. Qed.

Lemma ident_strip s : ident s = true → strip s = s.
Proof. intros Hs. apply strip_by_token. by apply ident_not_space. Qed.

Lemma strip_space_ident s : ident s = true → strip (" " +:+ s) = s.
Proof. intros Hs. rewrite <- (ident_strip s Hs) at 2. done. Qed.

(** [[col.strip() for col in ', '.join(cols).split(',')]] gives [cols] back *)
Lemma column_list_join_from pre cols :
  pre = "" ∨ pre = " " →
  cols ≠ [] → Forall (λ c, ident c = true) cols →
  strip <$> split_on comma (pre +:+ join ", " cols) = cols.
Proof.
  intros Hpre Hne Hcols. revert pre Hpre.
  induction Hcols as [|a cols Ha Hcols IH]; intros pre Hpre; [done|].
  assert (all_chars (is_not comma) (pre +:+ a) = true) as Hpa.
  { rewrite all_chars_app. apply andb_true_iff. split.
    - by destruct Hpre as [-> | ->].
    - eapply ident_chars; [|done]. intros c Hc. by apply is_word_is_not. }
  assert (strip (pre +:+ a) = a) as Hstrip.
  { destruct Hpre as [-> | ->]; [by apply ident_strip | by apply strip_space_ident]. }
  destruct cols as [|b cols].
  - simpl. rewrite split_on_token by done. simpl. by rewrite Hstrip.
  - change (join ", " (a :: b :: cols)) with (a +:+ ", " +:+ join ", " (b :: cols)).
    rewrite <- append_assoc.
    change (", " +:+ join ", " (b :: cols)) with (String comma (" " +:+ join ", " (b :: cols))).
    rewrite split_on_app by done. rewrite fmap_cons, Hstrip. f_equal.
    apply IH; [done | by right].
Qed.

Lemma column_list_join cols :
  cols ≠ [] → Forall (λ c, ident c = true) cols →
  Compress.column_list (join ", " cols) = cols
  ∧ Context.column_list (join ", " cols) = cols.
Proof.
  intros Hne Hcols. split; apply (column_list_join_from "" cols); auto.
Qed.

Lemma join_all_chars (q : ascii → bool) sep cols :
  all_chars q sep = true → Forall (λ c, all_chars q c = true) cols →
  all_chars q (join sep cols) = true.
Proof.
  intros Hsep. induction 1 as [|a cols Ha Hcols IH]; [done|].
  destruct cols as [|b cols]; [done|].
  change (join sep (a :: b :: cols)) with (a +:+ sep +:+ join sep (b :: cols)).
  by rewrite !all_chars_app, Ha, Hsep, IH.
Qed.

Lemma join_nonempty sep cols :
  cols ≠ [] → Forall (λ c, ident c = true) cols → nonempty (join sep cols) = true.
Proof.
  intros Hne Hcols. destruct Hcols as [|a cols Ha%ident_nonempty Hcols]; [done|].
  destruct cols; [done|].
  change (join sep (a :: s :: cols)) with (a +:+ sep +:+ join sep (s :: cols)).
  by destruct a.
Qed.

(** *** Matching emitted text *)

Lemma rmatch_lit {A} l s g (k : string → groups → option A) :
  rmatch (Lit l) (l +:+ s) g k = k s g.
Proof.
  simpl. by rewrite (proj2 (strip_prefix_app l (l +:+ s) s) eq_refl).
Qed.

(** the text after a token ends the class of the token *)
Definition stops (p : ascii → bool) (rest : string) : Prop :=
  match rest with
  | "" => True
  | String c _ => p c = false
  end.

Lemma plus_rest_greedy {A} p tok rest (k : string → option A) r :
  all_chars p tok = true → stops p rest → k rest = Some r →
  plus_rest p (tok +:+ rest) k = Some r.
Proof.
  intros Htok Hrest Hk. induction tok as [|c tok IH].
  - rewrite append_nil_l. destruct rest as [|d rest]; simpl; [done|].
    simpl in Hrest. by rewrite Hrest.
  - simpl in Htok. apply andb_prop in Htok as [Hc Htok].
    rewrite append_cons. simpl. by rewrite Hc, IH.
Qed.

(** a capture group over a token takes the whole token *)
Lemma rmatch_group_token {A} n p tok rest g (k : string → groups → option A) r :
  token p tok = true → stops p rest →
  k rest (<[n := tok]> g) = Some r →
  rmatch (Grp n (Plus p)) (tok +:+ rest) g k = Some r.
Proof.
  intros [Hne Htok]%andb_prop Hrest Hk.
  destruct tok as [|c tok]; [done|].
  simpl in Htok. apply andb_prop in Htok as [Hc Htok].
  cbn [rmatch]. rewrite append_cons. rewrite Hc.
  apply plus_rest_greedy; [done | done |].
  rewrite <- append_cons, take_app. exact Hk.
Qed.

Lemma rmatch_seq {A} r1 r2 s g (k : string → groups → option A) :
  rmatch (Seq r1 r2) s g k = rmatch r1 s g (λ s' g', rmatch r2 s' g' k).
Proof. done. Qed.

Lemma search_here r s g rest : match_here r s = Some (g, rest) → search r s = Some g.
Proof. intros H. destruct s; simpl; by rewrite H. Qed.

Lemma stops_rp p more : p rp = false → stops p (")" +:+ more).
Proof. done. Qed.

(** [prefix(tok)more], the shape of the constraint and index lines *)
Lemma search_bracketed (prefix tok more : string) :
  token not_rp tok = true →
  search (cat [Lit prefix; Grp 1 (Plus not_rp); Lit ")"]) (prefix +:+ tok +:+ ")" +:+ more)
  = Some (<[1 := tok]> ∅).
Proof.
  intros Htok. apply (search_here _ _ _ more). unfold match_here, cat.
  rewrite rmatch_seq, rmatch_lit, rmatch_seq.
  eapply rmatch_group_token; [done | by apply stops_rp |].
  by rewrite rmatch_lit.
Qed.

Lemma ident_not_rp s : ident s = true → token not_rp s = true.
Proof.
  intros Hs. unfold token. rewrite (ident_nonempty s Hs). simpl.
  eapply ident_chars; [|done]. intros c Hc. unfold not_rp, not_in.
  apply negb_true_iff, bool_decide_eq_false. intros Hin%list_elem_of_singleton. by subst.
Qed.

Lemma search_re_fk (lc rt rc more : string) :
  ident lc = true → ident rt = true → ident rc = true →
  search Context.re_fk ("FK (" +:+ lc +:+ ") > " +:+ rt +:+ "(" +:+ rc +:+ ")" +:+ more)
  = Some (<[3 := rc]> (<[2 := rt]> (<[1 := lc]> ∅))).
Proof.
  intros Hlc Hrt Hrc. apply (search_here _ _ _ more). unfold match_here, Context.re_fk, cat.
  rewrite rmatch_seq, rmatch_lit, rmatch_seq.
  eapply rmatch_group_token; [by apply ident_not_rp | by apply stops_rp |].
  rewrite rmatch_seq, rmatch_lit, rmatch_seq.
  eapply rmatch_group_token; [done | done |].
  rewrite rmatch_seq, rmatch_lit, rmatch_seq.
  eapply rmatch_group_token; [by apply ident_not_rp | by apply stops_rp |].
  by rewrite rmatch_lit.
Qed.

End Emitted.

(** ** Keywords in emitted lines *)
Section Keywords.
Import Str.

Lemma is_not_true x c : is_not x c = true ↔ c ≠ x.
Proof. unfold is_not. by rewrite negb_true_iff, bool_decide_eq_false. Qed.

Lemma not_space_is_not c : not_space c = true → is_not " " c = true.
Proof. revert c. by intros [[] [] [] [] [] [] [] []]. Qed.

(** no match starts at a character other than the first of the pattern *)
Lemma contains_skip_class p0 p a b :
  all_chars (is_not p0) a = true →
  contains (String p0 p) (a +:+ b) = contains (String p0 p) b.
Proof.
  induction a as [|c a IH]; intros Ha; [done|].
  simpl in Ha. apply andb_prop in Ha as [Hc%is_not_true Ha].
  rewrite append_cons, contains_cons, startswith_cons.
  rewrite bool_decide_eq_false_2 by done. simpl. by apply IH.
Qed.

Lemma startswith_app_long p l more :
  String.length p ≤ String.length l → startswith p (l +:+ more) = startswith p l.
Proof.
  revert l. induction p as [|a p IH]; intros l Hlen; [done|].
  destruct l as [|b l]; simpl in Hlen; [lia|].
  rewrite append_cons, !startswith_cons. rewrite IH by lia. done.
Qed.

(** the text after a token: nothing, or a given separator *)
Definition after_token (x : ascii) (rest : string) : Prop :=
  rest = "" ∨ ∃ rest', rest = String x rest'.

(** a pattern with a separator inside matches across the end of a token
    only when the token is the part of the pattern before the separator *)
Lemma startswith_across x p1 p2 tok rest :
  all_chars (is_not x) p1 = true → all_chars (is_not x) tok = true →
  after_token x rest →
  startswith (p1 +:+ String x p2) (tok +:+ rest)
  = bool_decide (tok = p1) && startswith (String x p2) rest.
Proof.
  revert tok. induction p1 as [|a p1 IH]; intros tok Hp Htok Hrest.
  - rewrite append_nil_l. destruct tok as [|c tok].
    + by rewrite append_nil_l.
    + simpl in Htok. apply andb_prop in Htok as [Hc%is_not_true _].
      rewrite append_cons, startswith_cons.
      rewrite bool_decide_eq_false_2 by done. done.
  - simpl in Hp. apply andb_prop in Hp as [Ha%is_not_true Hp].
    rewrite append_cons. destruct tok as [|c tok].
    + rewrite append_nil_l. simpl.
      destruct Hrest as [->|[rest' ->]]; [done|].
      rewrite startswith_cons. by rewrite bool_decide_eq_false_2.
    + simpl in Htok. apply andb_prop in Htok as [_ Htok].
      rewrite append_cons, startswith_cons, IH by done.
      destruct (decide (a = c)) as [->|Hac].
      * rewrite bool_decide_eq_true_2 by done. simpl. f_equal.
        apply bool_decide_ext. split; [by intros -> | by intros [= ->]].
      * rewrite bool_decide_eq_false_2 by done. simpl.
        symmetry. rewrite bool_decide_eq_false_2; [done|]. by intros [= -> ->].
Qed.

Lemma all_chars_suffix q a1 c a2 :
  all_chars q (a1 +:+ String c a2) = true → all_chars q (String c a2) = true.
Proof. rewrite all_chars_app. by intros [_ ?]%andb_prop. Qed.

(** a pattern with a separator inside is not found in a token, nor across
    its end when the text that follows does not continue the pattern *)
Lemma contains_token_boundary x p1 p2 tok rest :
  all_chars (is_not x) p1 = true → all_chars (is_not x) tok = true →
  after_token x rest → startswith (String x p2) rest = false →
  contains (p1 +:+ String x p2) (tok +:+ rest) = contains (p1 +:+ String x p2) rest.
Proof.
  intros Hp Htok Hrest Hno. apply contains_skip.
  intros a1 c a2 ->. apply all_chars_suffix in Htok.
  rewrite startswith_across by done. by rewrite Hno, andb_false_r.
Qed.

Lemma contains_nil_text p : nonempty p = true → contains p "" = false.
Proof. by destruct p. Qed.

(** a pattern with a separator inside is not found in text without it *)
Lemma contains_token x p tok :
  all_chars (is_not x) tok = true → all_chars (is_not x) p = false →
  contains p tok = false.
Proof.
  intros Htok Hp. destruct (contains p tok) eqn:Hc; [|done].
  by rewrite (contains_all_chars _ _ _ Hc Htok) in Hp.
Qed.

Lemma contains_drop_first c p s : contains (String c p) s = true → contains p s = true.
Proof.
  induction s as [|d s IH]; [done|].
  rewrite !contains_cons. intros [H|H]%orb_prop.
  - rewrite startswith_cons in H. apply andb_prop in H as [_ H].
    apply orb_true_iff. right. by apply contains_start.
  - rewrite (IH H). apply orb_true_r.
Qed.

(** *** Names that do not spell a flag *)

(** [kw not in name.upper()] *)
Definition lacks (kw name : string) : bool := negb (contains kw (upper name)).

Lemma lacks_join kw cols :
  nonempty kw = true →
  all_chars (is_not ",") kw = true → all_chars (is_not " ") kw = true →
  forallb (lacks kw) cols = true →
  contains kw (upper (join ", " cols)) = false.
Proof.
  intros Hne Hcomma Hspace. induction cols as [|a cols IH]; intros Hcols.
  - by apply contains_nil_text.
  - simpl in Hcols. apply andb_prop in Hcols as [Ha Hcols].
    unfold lacks in Ha. apply negb_true_iff in Ha.
    destruct cols as [|b cols]; [done|].
    change (join ", " (a :: b :: cols)) with (a +:+ ", " +:+ join ", " (b :: cols)).
    rewrite !upper_app.
    change (upper ", " +:+ upper (join ", " (b :: cols)))
      with (String "," ("" +:+ String " " (upper (join ", " (b :: cols))))).
    rewrite contains_app_sep, contains_app_sep by done.
    rewrite Ha, (IH Hcols). by rewrite contains_nil_text.
Qed.

End Keywords.

(** ** Round trip: the compact text of a model, parsed again *)
Section RoundTrip.
Import Str Re.

(** *** Models whose text parses back *)

(** a column name that no line prefix of the compact notation shadows *)
Definition plain_column_name (name : string) : bool :=
  ident name && negb (startswith "FK" name) && negb (startswith "UNIQUE" name)
  && negb (startswith "IDX" name) && negb (startswith "PRIMARY" name).

Definition plain_type (col_type : string) : bool :=
  token not_space col_type && negb (startswith "PK" col_type).

Definition plain_default (default : option string) : bool :=
  match default with
  | Some d => all_chars not_space d
  | None => true
  end.

Definition column_ok (col : string * Compress.column_info) : bool :=
  plain_column_name col.1
  && (Compress.auto_pk col.2
      || plain_type (Compress.col_type col.2) && plain_default (Compress.default col.2)).

Definition names_ok (cols : list string) : bool :=
  negb (bool_decide (cols = [])) && forallb ident cols.

Definition constraint_ok (c : Compress.constraint) : bool :=
  match c with
  | Compress.PRIMARY_KEY cols => names_ok cols
  | Compress.UNIQUE cols => names_ok cols
  | Compress.FOREIGN_KEY local_cols ref_table ref_columns deferrable =>
      forallb ident local_cols && ident ref_table && names_ok ref_columns
      && (deferrable || forallb (lacks "DEFERRABLE") (ref_table :: local_cols ++ ref_columns))
  end.

Definition index_ok (index : Compress.index_info) : bool :=
  names_ok (Compress.idx_columns index)
  && (Compress.idx_unique index || forallb (lacks "UNIQUE") (Compress.idx_columns index))
  && (Compress.idx_like_ops index || forallb (lacks "LIKE") (Compress.idx_columns index)).

Definition table_ok (p : string * Compress.table_info) : bool :=
  ident p.1 && forallb column_ok (Compress.columns p.2)
  && forallb constraint_ok (Compress.constraints p.2)
  && forallb index_ok (Compress.indexes p.2).

Definition header_ok (s : Compress.SchemaCompressor) : bool :=
  ident (Compress.default_schema s)
  && match Compress.default_owner s with
     | Some owner => ident owner
     | None => true
     end.

Definition roundtrip_ok (s : Compress.SchemaCompressor) : bool :=
  header_ok s && bool_decide (NoDup (Dict.keys (Compress.tables s)))
  && forallb table_ok (Compress.tables s).

(** *** What the compact parser makes of a model *)

Definition reparse_column (tb : Context.table) (col : string * Compress.column_info)
    : Context.table :=
  if Compress.auto_pk col.2 then Context.add_pk_column col.1 tb
  else Context.count_column (lower (Compress.col_type col.2)) (Compress.not_null col.2)
         (Context.add_column_name col.1 tb).

(** one relationship per local column of a foreign key, from index [i] *)
Fixpoint fk_infos (i : nat) (table_name : string) (local_cols : list string)
    (ref_table : string) (ref_columns : list string) (deferrable : bool)
    : list Context.fk_info :=
  match local_cols with
  | [] => []
  | local_col :: rest =>
      {| Context.from_table := table_name; Context.from_column := local_col;
         Context.to_table := ref_table;
         Context.to_column := from_option id "" (Compress.ref_col_at ref_columns i);
         Context.deferrable := deferrable |}
      :: fk_infos (S i) table_name rest ref_table ref_columns deferrable
  end.

Definition constraint_fks (table_name : string) (c : Compress.constraint)
    : list Context.fk_info :=
  match c with
  | Compress.FOREIGN_KEY local_cols ref_table ref_columns deferrable =>
      fk_infos 0 table_name local_cols ref_table ref_columns deferrable
  | _ => []
  end.

Definition reparse_constraint (table_name : string) (tb : Context.table)
    (c : Compress.constraint) : Context.table :=
  match c with
  | Compress.FOREIGN_KEY _ _ _ _ =>
      fold_left (λ tb fk, Context.add_foreign_key fk tb) (constraint_fks table_name c) tb
  | Compress.UNIQUE cols => Context.add_unique cols tb
  | Compress.PRIMARY_KEY cols => Context.extend_primary_keys cols tb
  end.

Definition reparse_index (tb : Context.table) (index : Compress.index_info) : Context.table :=
  Context.add_index
    {| Context.columns_of := Compress.idx_columns index;
       Context.unique := Compress.idx_unique index;
       Context.like_ops := Compress.idx_like_ops index |} tb.

Definition reparse_table (table_name : string) (t : Compress.table_info) : Context.table :=
  fold_left reparse_index (Compress.indexes t)
    (fold_left (reparse_constraint table_name) (Compress.constraints t)
       (fold_left reparse_column (Compress.columns t) Context.empty_table)).

Definition table_fks (p : string * Compress.table_info) : list Context.fk_info :=
  concat (map (constraint_fks p.1) (Compress.constraints p.2)).

(** the model that re-parsing the compact text of [s] gives *)
Definition reparsed (s : Compress.SchemaCompressor) : Context.SchemaContextGenerator :=
  {| Context.tables := map (λ p, (p.1, reparse_table p.1 p.2)) (Compress.tables s);
     Context.relationships := concat (map table_fks (Compress.tables s)) |}.

(** *** Lines *)

Lemma endswith_app_self a p : endswith p (a +:+ p) = true.
Proof.
  induction a as [|c a IH].
  - rewrite append_nil_l. destruct p; cbn [endswith]; by rewrite bool_decide_eq_true_2.
  - rewrite append_cons. cbn [endswith]. rewrite IH. apply orb_true_r.
Qed.

Lemma ident_first (q : ascii → bool) name :
  (∀ c, is_word c = true → q c = true) → ident name = true →
  ∃ c rest, name = String c rest ∧ q c = true.
Proof.
  intros Hq [Hne Hname]%andb_prop. destruct name as [|c rest]; [done|].
  simpl in Hname. apply andb_prop in Hname as [Hc _]. eauto.
Qed.

Lemma ident_startswith_other a p name more :
  is_word a = false → ident name = true → startswith (String a p) (name +:+ more) = false.
Proof.
  intros Ha Hname.
  destruct (ident_first (is_not a) name) as (c & rest & -> & Hc%is_not_true);
    [intros c Hc; by apply is_word_is_not | done |].
  rewrite append_cons, startswith_cons. by rewrite bool_decide_eq_false_2.
Qed.

Lemma parse_line_blank st : Context.parse_line st "" = st.
Proof. by destruct st. Qed.

Lemma parse_line_table g cur name :
  ident name = true →
  Context.parse_line (g, cur) (name +:+ ":")
  = (Context.with_tables (Dict.set name Context.empty_table) g, Some name).
Proof.
  intros Hname. unfold Context.parse_line.
  assert (strip (name +:+ ":") = name +:+ ":") as ->.
  { apply strip_by_token. rewrite all_chars_app. apply andb_true_iff. split; [|done].
    by apply ident_not_space. }
  rewrite append_nonempty by done.
  rewrite (ident_startswith_other "-" "-" name ":") by done.
  rewrite (ident_startswith_other " " "" name ":") by done.
  rewrite endswith_app_self. simpl.
  change 1 with (String.length ":"). by rewrite take_app.
Qed.

(** the dispatch of [parse_compressed_schema] on an indented line, in terms
    of the stripped line *)
Definition indented (text : string) (t : string) (g : Context.SchemaContextGenerator)
    : Context.SchemaContextGenerator :=
  if contains ":" text && negb (startswith "FK" text) && negb (startswith "UNIQUE" text)
     && negb (startswith "IDX" text) && negb (startswith "PRIMARY" text)
  then Context._parse_column text t g
  else if startswith "FK (" text then Context._parse_foreign_key text t g
  else if startswith "UNIQUE (" text then Context._parse_unique_constraint text t g
  else if startswith "PRIMARY KEY (" text then Context._parse_primary_key text t g
  else if startswith "IDX (" text then Context._parse_index text t g
  else g.

Lemma parse_line_indented g t text :
  clean_start is_space text → tidy is_space text → startswith "--" text = false →
  Context.parse_line (g, Some t) ("  " +:+ text) = (indented text t g, Some t).
Proof.
  intros Hstart [Hr Hne] Hcomment. unfold Context.parse_line, indented.
  assert (strip ("  " +:+ text) = text) as ->.
  { unfold strip, strip_by. simpl. rewrite lstrip_by_id by done. exact Hr. }
  rewrite Hne, Hcomment. simpl. rewrite andb_false_r.
  change ("  " +:+ text) with (String " " (String " " text)).
  rewrite !startswith_cons.
  rewrite !(bool_decide_eq_true_2 (" "%char = " "%char)) by done. cbn [andb].
  by repeat case_match.
Qed.

(** **** Foreign key lines *)

Lemma fk_flag lc rt rc (d : bool) :
  d || forallb (lacks "DEFERRABLE") [rt; lc; rc] = true →
  contains "DEFERRABLE"
    (upper ("FK (" +:+ lc +:+ ") > " +:+ rt +:+ "(" +:+ rc +:+ ")"
            +:+ (if d then " DEFERRABLE" else "")))
  = d.
Proof.
  intros Hd. rewrite !upper_app. destruct d.
  - do 6 apply contains_app_r. reflexivity.
  - simpl in Hd. rewrite !andb_true_r in Hd.
    apply andb_prop in Hd as [Hrt [Hlc Hrc]%andb_prop].
    unfold lacks in *. apply negb_true_iff in Hrt, Hlc, Hrc.
    change (contains "DEFERRABLE"
              ("FK " +:+ String "(" (upper lc +:+ String ")" (" >" +:+ String " "
                 (upper rt +:+ String "(" (upper rc +:+ String ")" ""))))) = false).
    rewrite !contains_app_sep by done. by rewrite Hlc, Hrt, Hrc.
Qed.

Lemma fk_groups lc rt rc :
  let m : groups := <[3 := rc]> (<[2 := rt]> (<[1 := lc]> ∅)) in
  group_str 1 m = lc ∧ group_str 2 m = rt ∧ group_str 3 m = rc.
Proof. done. Qed.

Lemma parse_line_fk g t lc rt rc d :
  ident lc = true → ident rt = true → ident rc = true →
  d || forallb (lacks "DEFERRABLE") [rt; lc; rc] = true →
  Context.parse_line (g, Some t) (Compress.fk_line lc rt rc d)
  = (let fk := {| Context.from_table := t; Context.from_column := lc;
                  Context.to_table := rt; Context.to_column := rc;
                  Context.deferrable := d |} in
     {| Context.tables := Dict.alter (Context.add_foreign_key fk) t (Context.tables g);
        Context.relationships := Context.relationships g ++ [fk] |}, Some t).
Proof.
  intros Hlc Hrt Hrc Hd. unfold Compress.fk_line.
  set (flag := if d then " DEFERRABLE" else "").
  change ("  FK (" +:+ lc +:+ ") > " +:+ rt +:+ "(" +:+ rc +:+ ")" +:+ flag)
    with ("  " +:+ "FK (" +:+ lc +:+ ") > " +:+ rt +:+ "(" +:+ rc +:+ ")" +:+ flag).
  rewrite parse_line_indented; [|done| |done].
  - unfold indented.
    assert (∀ p more, String.length p ≤ 4 →
              startswith p ("FK (" +:+ more) = startswith p "FK (") as Hlit.
    { intros. by apply startswith_app_long. }
    rewrite (Hlit "FK"), (Hlit "FK (") by (simpl; lia).
    change (startswith "FK" "FK (") with true. change (startswith "FK (" "FK (") with true.
    cbn [negb]. rewrite andb_false_r. cbn [andb].
    unfold Context._parse_foreign_key. rewrite search_re_fk by done.
    destruct (fk_groups lc rt rc) as (-> & -> & ->).
    rewrite !ident_strip by done. subst flag. by rewrite fk_flag.
  - do 6 apply tidy_app. subst flag. by destruct d.
Qed.

(** **** Unique, primary key and index lines *)

Lemma names_ok_spec cols :
  names_ok cols = true → cols ≠ [] ∧ Forall (λ c, ident c = true) cols.
Proof.
  intros [Hne Hcols]%andb_prop. split.
  - by apply negb_true_iff, bool_decide_eq_false in Hne.
  - apply Forall_forall. intros c Hc. rewrite forallb_forall in Hcols.
    apply Hcols. by apply list_elem_of_In.
Qed.

Lemma names_ok_joined cols : names_ok cols = true → token not_rp (join ", " cols) = true.
Proof.
  intros [Hne Hcols]%names_ok_spec. unfold token.
  rewrite (join_nonempty ", " cols) by done.
  rewrite (join_all_chars not_rp); [done | done |].
  eapply Forall_impl; [exact Hcols|]. intros c Hc. simpl.
  by destruct (andb_prop _ _ (ident_not_rp c Hc)).
Qed.

Lemma group_one tok : group_str 1 (<[1 := tok]> (∅ : groups)) = tok.
Proof. done. Qed.

Lemma parse_line_unique g t cols :
  names_ok cols = true →
  Context.parse_line (g, Some t) ("  UNIQUE (" +:+ join ", " cols +:+ ")")
  = (Context.with_tables (Dict.alter (Context.add_unique cols) t) g, Some t).
Proof.
  intros Hcols.
  change ("  UNIQUE (" +:+ join ", " cols +:+ ")")
    with ("  " +:+ "UNIQUE (" +:+ join ", " cols +:+ ")" +:+ "").
  rewrite parse_line_indented; [|done| |done].
  - unfold indented.
    assert (∀ p more, String.length p ≤ 8 →
              startswith p ("UNIQUE (" +:+ more) = startswith p "UNIQUE (") as Hlit.
    { intros. by apply startswith_app_long. }
    rewrite (Hlit "FK"), (Hlit "UNIQUE"), (Hlit "FK ("), (Hlit "UNIQUE (") by (simpl; lia).
    change (startswith "UNIQUE" "UNIQUE (") with true.
    cbn [negb]. rewrite andb_false_r. cbn [andb].
    change (startswith "FK (" "UNIQUE (") with false.
    change (startswith "UNIQUE (" "UNIQUE (") with true. cbn iota.
    unfold Context._parse_unique_constraint, Context.re_unique.
    rewrite search_bracketed by by apply names_ok_joined.
    rewrite group_one.
    destruct (names_ok_spec _ Hcols) as [Hne Hids].
    by rewrite (proj2 (column_list_join cols Hne Hids)).
  - by do 2 apply tidy_app.
Qed.

Lemma parse_line_primary_key g t cols :
  names_ok cols = true →
  Context.parse_line (g, Some t) ("  PRIMARY KEY (" +:+ join ", " cols +:+ ")")
  = (Context.with_tables (Dict.alter (Context.extend_primary_keys cols) t) g, Some t).
Proof.
  intros Hcols.
  change ("  PRIMARY KEY (" +:+ join ", " cols +:+ ")")
    with ("  " +:+ "PRIMARY KEY (" +:+ join ", " cols +:+ ")" +:+ "").
  rewrite parse_line_indented; [|done| |done].
  - unfold indented.
    assert (∀ p more, String.length p ≤ 13 →
              startswith p ("PRIMARY KEY (" +:+ more) = startswith p "PRIMARY KEY (") as Hlit.
    { intros. by apply startswith_app_long. }
    rewrite (Hlit "FK"), (Hlit "UNIQUE"), (Hlit "IDX"), (Hlit "PRIMARY"), (Hlit "FK ("),
      (Hlit "UNIQUE ("), (Hlit "PRIMARY KEY (") by (simpl; lia).
    change (startswith "PRIMARY" "PRIMARY KEY (") with true.
    cbn [negb]. rewrite andb_false_r.
    change (startswith "FK (" "PRIMARY KEY (") with false.
    change (startswith "UNIQUE (" "PRIMARY KEY (") with false.
    change (startswith "PRIMARY KEY (" "PRIMARY KEY (") with true. cbn iota.
    unfold Context._parse_primary_key, Context.re_primary_key.
    rewrite search_bracketed by by apply names_ok_joined.
    rewrite group_one.
    destruct (names_ok_spec _ Hcols) as [Hne Hids].
    by rewrite (proj2 (column_list_join cols Hne Hids)).
  - by do 2 apply tidy_app.
Qed.

Lemma idx_flags cols (like uniq : bool) :
  uniq || forallb (lacks "UNIQUE") cols = true →
  like || forallb (lacks "LIKE") cols = true →
  let line := upper ("IDX (" +:+ join ", " cols +:+ ")"
                     +:+ (if like then " (LIKE)" else "")
                     +:+ (if uniq then " UNIQUE" else "")) in
  contains "UNIQUE" line = uniq ∧ contains "(LIKE)" line = like.
Proof.
  intros Huniq Hlike. cbv zeta. rewrite !upper_app. split.
  - destruct uniq.
    + do 4 apply contains_app_r. reflexivity.
    + simpl in Huniq.
      change (contains "UNIQUE"
                ("IDX " +:+ String "(" (upper (join ", " cols) +:+ String ")"
                   (upper (if like then " (LIKE)" else "") +:+ ""))) = false).
      rewrite !contains_app_sep by done. rewrite lacks_join by done.
      by destruct like.
  - destruct like.
    + do 3 apply contains_app_r.
      change (upper " (LIKE)") with (" " +:+ "(LIKE)" +:+ "").
      rewrite append_assoc. apply contains_app_r. rewrite append_assoc.
      apply contains_start, startswith_app.
    + simpl in Hlike.
      match goal with |- contains _ ?line = false => destruct (contains "(LIKE)" line) eqn:Hc end;
        [|done].
      apply (contains_app_l "(LIKE" ")"), contains_drop_first in Hc.
      change (contains "LIKE"
                ("IDX " +:+ String "(" (upper (join ", " cols) +:+ String ")"
                   ("" +:+ upper (if uniq then " UNIQUE" else ""))) ) = true) in Hc.
      rewrite !contains_app_sep in Hc by done. rewrite lacks_join in Hc by done.
      by destruct uniq.
Qed.

Lemma parse_line_index g t index :
  index_ok index = true →
  Context.parse_line (g, Some t) (Compress.index_line index)
  = (Context.with_tables
       (Dict.alter
          (Context.add_index
             {| Context.columns_of := Compress.idx_columns index;
                Context.unique := Compress.idx_unique index;
                Context.like_ops := Compress.idx_like_ops index |}) t) g, Some t).
Proof.
  intros [[Hcols Huniq]%andb_prop Hlike]%andb_prop. unfold Compress.index_line.
  set (cols := Compress.idx_columns index) in *.
  set (like := Compress.idx_like_ops index) in *.
  set (uniq := Compress.idx_unique index) in *.
  change ("  IDX (" +:+ join ", " cols +:+ ")" +:+ (if like then " (LIKE)" else "")
          +:+ (if uniq then " UNIQUE" else ""))
    with ("  " +:+ "IDX (" +:+ join ", " cols +:+ ")" +:+ (if like then " (LIKE)" else "")
          +:+ (if uniq then " UNIQUE" else "")).
  rewrite parse_line_indented; [|done| |done].
  - unfold indented.
    assert (∀ p more, String.length p ≤ 5 →
              startswith p ("IDX (" +:+ more) = startswith p "IDX (") as Hlit.
    { intros. by apply startswith_app_long. }
    rewrite (Hlit "FK"), (Hlit "IDX"), (Hlit "FK ("), (Hlit "IDX (") by (simpl; lia).
    change (startswith "IDX" "IDX (") with true.
    cbn [negb]. rewrite !andb_false_r, andb_false_l.
    change (startswith "FK (" "IDX (") with false.
    assert (∀ a p more, a ≠ "I"%char → startswith (String a p) ("IDX (" +:+ more) = false)
      as Hother.
    { intros a p more Ha. change ("IDX (" +:+ more) with (String "I" ("DX (" +:+ more)).
      rewrite startswith_cons. by rewrite bool_decide_eq_false_2. }
    rewrite !Hother by done.
    change (startswith "IDX (" "IDX (") with true. cbn iota.
    unfold Context._parse_index, Context.re_idx.
    rewrite search_bracketed by by apply names_ok_joined.
    rewrite group_one.
    destruct (names_ok_spec _ Hcols) as [Hne Hids].
    rewrite (proj2 (column_list_join cols Hne Hids)).
    destruct (idx_flags cols like uniq Huniq Hlike) as [-> ->]. done.
  - do 2 apply tidy_app. by destruct like, uniq.
Qed.

(** **** Column lines *)

(** what follows the type on a column line *)
Definition column_rest (c : Compress.column_info) : string :=
  (if Compress.not_null c then " NOT NULL" else "")
  +:+ (match Compress.default c with
       | Some d => if nonempty d then " DEFAULT " +:+ d else ""
       | None => ""
       end).

Lemma column_line_rest name c :
  Compress.auto_pk c = false →
  Compress.column_line name c
  = "  " +:+ name +:+ ": " +:+ Compress.col_type c +:+ column_rest c.
Proof. intros Hc. unfold Compress.column_line. by rewrite Hc. Qed.

(** the shapes of the text after the type *)
Inductive rest_shape (nn : bool) : string → Prop :=
| rest_plain : rest_shape nn ((if nn then " NOT NULL" else "") +:+ "")
| rest_default d :
    token not_space d = true →
    rest_shape nn ((if nn then " NOT NULL" else "") +:+ " DEFAULT " +:+ d).

Lemma column_rest_shape c :
  plain_default (Compress.default c) = true → rest_shape (Compress.not_null c) (column_rest c).
Proof.
  unfold column_rest, plain_default. destruct (Compress.default c) as [d|]; [|constructor].
  intros Hd. destruct (nonempty d) eqn:Hne; [|constructor].
  constructor. unfold token. by rewrite Hne, Hd.
Qed.

Lemma token_is_not_space s : token not_space s = true → all_chars (is_not " ") s = true.
Proof.
  intros [_ Hs]%andb_prop. eapply all_chars_impl; [|done]. apply not_space_is_not.
Qed.

Lemma token_tidy s : token not_space s = true → tidy is_space s.
Proof. intros [Hne Hs]%andb_prop. by apply tidy_token. Qed.

Section Rest.
Variable nn : bool.
Variable rest : string.
Hypothesis Hrest : rest_shape nn rest.

Lemma rest_after_token : after_token " " rest.
Proof. destruct Hrest; destruct nn; (by left) || (right; by eexists). Qed.

Lemma rest_tidy ty : token not_space ty = true → tidy is_space (ty +:+ rest).
Proof.
  intros Hty. destruct Hrest as [|d Hd]; destruct nn.
  - by apply tidy_app.
  - rewrite append_nil_l, append_nil_r. by apply token_tidy.
  - do 3 apply tidy_app. by apply token_tidy.
  - do 3 apply tidy_app. by apply token_tidy.
Qed.

Lemma rest_no_pk_start : startswith " PK" rest = false.
Proof.
  destruct Hrest as [|d Hd]; destruct nn; try done.
  all: rewrite ?append_nil_l; by rewrite startswith_app_long by (simpl; lia).
Qed.

Lemma rest_no_pk : contains ": PK" rest = false.
Proof.
  assert (∀ d, token not_space d = true → contains ": PK" d = false) as Htok.
  { intros d Hd. apply (contains_token " "); [by apply token_is_not_space | done]. }
  destruct Hrest as [|d Hd]; destruct nn; try done.
  - rewrite (contains_skip_class ":" " PK" " NOT NULL") by done.
    rewrite (contains_skip_class ":" " PK" " DEFAULT ") by done. by apply Htok.
  - rewrite append_nil_l.
    rewrite (contains_skip_class ":" " PK" " DEFAULT ") by done. by apply Htok.
Qed.

Lemma rest_not_null ty :
  token not_space ty = true → contains "NOT NULL" (upper (ty +:+ rest)) = nn.
Proof.
  intros Hty. rewrite upper_app.
  assert (∀ d, token not_space d = true → contains "NOT NULL" (upper d) = false) as Htok.
  { intros d [_ Hd]%andb_prop. apply (contains_token " "); [|done].
    eapply all_chars_impl; [apply not_space_is_not|]. by apply upper_not_space. }
  assert (all_chars (is_not " ") (upper ty) = true) as Huty.
  { apply andb_prop in Hty as [_ Hty].
    eapply all_chars_impl; [apply not_space_is_not|]. by apply upper_not_space. }
  destruct Hrest as [|d Hd]; destruct nn.
  - apply contains_app_r. reflexivity.
  - change (upper ("" +:+ "")) with "". rewrite append_nil_r.
    apply (contains_token " "); done.
  - apply contains_app_r. rewrite upper_app. change (upper " NOT NULL") with (" " +:+ "NOT NULL").
    rewrite append_assoc. apply contains_app_r, contains_start, startswith_app.
  - rewrite append_nil_l, upper_app. change (upper " DEFAULT ") with " DEFAULT ".
    rewrite (contains_token_boundary " " "NOT" "NULL"); [|done|done| |].
    + rewrite (contains_skip_class "N" "OT NULL" " DEFAULT ") by done. by apply Htok.
    + right. by eexists.
    + by rewrite startswith_app_long by (simpl; lia).
Qed.

Lemma rest_first_word ty :
  token not_space ty = true → ∃ ws, split_ws (ty +:+ rest) = ty :: ws.
Proof.
  intros Hty. apply split_ws_first; [done|].
  destruct rest_after_token as [->|[r ->]]; [by left | right; by eexists _, _].
Qed.
End Rest.

Lemma strip_tidy s : clean_start is_space s → tidy is_space s → strip s = s.
Proof. apply strip_by_tidy. Qed.

Lemma alter_alter {V} (f1 f2 : V → V) k (d : list (string * V)) :
  Dict.alter f2 k (Dict.alter f1 k d) = Dict.alter (λ v, f2 (f1 v)) k d.
Proof.
  induction d as [|[k' v] d IH]; simpl; [done|].
  case_bool_decide as Hk; simpl.
  - by rewrite bool_decide_eq_true_2.
  - rewrite bool_decide_eq_false_2 by done. by rewrite IH.
Qed.

Lemma plain_column_name_spec name :
  plain_column_name name = true →
  ident name = true ∧ startswith "FK" name = false ∧ startswith "UNIQUE" name = false
  ∧ startswith "IDX" name = false ∧ startswith "PRIMARY" name = false.
Proof.
  unfold plain_column_name. intros H. repeat (apply andb_prop in H as [H ?]).
  repeat match goal with H : negb _ = true |- _ => apply negb_true_iff in H end.
  repeat split; try done. unfold ident, token. by apply andb_true_iff.
Qed.

Lemma ident_no_colon name : ident name = true → all_chars (is_not ":") name = true.
Proof. intros H. eapply ident_chars; [|done]. intros c Hc. by apply is_word_is_not. Qed.

Lemma ident_unquoted name : ident name = true → strip_char Context.quote name = name.
Proof.
  intros H. apply strip_by_token. eapply ident_chars; [|done].
  intros c Hc. unfold is_char. apply negb_true_iff, bool_decide_eq_false.
  intros ->. done.
Qed.

(** the dispatch sends a line that starts with a plain column name and a
    colon to the column parser *)
Lemma indented_column name more t g :
  plain_column_name name = true →
  indented (name +:+ ":" +:+ more) t g = Context._parse_column (name +:+ ":" +:+ more) t g.
Proof.
  intros (Hid & Hfk & Hunique & Hidx & Hprimary)%plain_column_name_spec.
  unfold indented. rewrite contains_here.
  change (name +:+ ":" +:+ more) with (name +:+ String ":" more).
  rewrite !startswith_app_sep by done.
  by rewrite Hfk, Hunique, Hidx, Hprimary.
Qed.

Lemma parse_line_pk_column g t name :
  plain_column_name name = true →
  Context.parse_line (g, Some t) ("  " +:+ name +:+ ": PK")
  = (Context.with_tables (Dict.alter (Context.add_pk_column name) t) g, Some t).
Proof.
  intros Hname. pose proof (plain_column_name_spec _ Hname) as (Hid & _).
  assert (tidy is_space (name +:+ ": PK")) as Htidy by by apply tidy_app.
  assert (clean_start is_space (name +:+ ": PK")) as Hstart.
  { apply clean_start_app; [by apply ident_nonempty|].
    apply clean_start_token. by apply ident_not_space. }
  rewrite parse_line_indented; [|done|done|by apply ident_startswith_other].
  change (name +:+ ": PK") with (name +:+ ":" +:+ " PK").
  rewrite indented_column by done.
  change (name +:+ ":" +:+ " PK") with (name +:+ ": PK").
  rewrite _parse_column_pk.
  - unfold pk_column_name. rewrite (strip_tidy (name +:+ ": PK")) by done.
    change (name +:+ ": PK") with (name +:+ String Context.colon " PK").
    rewrite split_fields_app by by apply ident_no_colon.
    simpl. by rewrite ident_strip, ident_unquoted.
  - rewrite strip_tidy by done. apply contains_app_r. reflexivity.
Qed.

Lemma parse_line_column g t name c :
  plain_column_name name = true → Compress.auto_pk c = false →
  plain_type (Compress.col_type c) = true → plain_default (Compress.default c) = true →
  Context.parse_line (g, Some t) (Compress.column_line name c)
  = (Context.with_tables
       (Dict.alter
          (λ tb, Context.count_column (lower (Compress.col_type c)) (Compress.not_null c)
                   (Context.add_column_name name tb)) t) g, Some t).
Proof.
  intros Hname Hauto [Hty Hpk%negb_true_iff]%andb_prop Hdef.
  pose proof (plain_column_name_spec _ Hname) as (Hid & _).
  pose proof (column_rest_shape c Hdef) as Hrest.
  rewrite column_line_rest by done.
  set (ty := Compress.col_type c) in *. set (rest := column_rest c) in *.
  set (nn := Compress.not_null c) in *.
  assert (tidy is_space (ty +:+ rest)) as Htail by by eapply rest_tidy.
  assert (clean_start is_space (ty +:+ rest)) as Htail_start.
  { apply andb_prop in Hty as [Hne Hty].
    apply clean_start_app; [done | by apply clean_start_token]. }
  assert (tidy is_space (name +:+ ": " +:+ ty +:+ rest)) as Htidy by by do 2 apply tidy_app.
  assert (clean_start is_space (name +:+ ": " +:+ ty +:+ rest)) as Hstart.
  { apply clean_start_app; [by apply ident_nonempty|].
    apply clean_start_token. by apply ident_not_space. }
  rewrite parse_line_indented; [|done|done|by apply ident_startswith_other].
  change (name +:+ ": " +:+ ty +:+ rest) with (name +:+ ":" +:+ " " +:+ ty +:+ rest).
  rewrite indented_column by done.
  unfold Context._parse_column.
  change (name +:+ ":" +:+ " " +:+ ty +:+ rest) with (name +:+ ": " +:+ ty +:+ rest).
  rewrite strip_tidy by done.
  assert (contains ": PK" (name +:+ ": " +:+ ty +:+ rest) = false) as ->.
  { change (name +:+ ": " +:+ ty +:+ rest) with (name +:+ String ":" (String " " (ty +:+ rest))).
    rewrite contains_skip_class by by apply ident_no_colon.
    rewrite contains_cons, !startswith_cons.
    rewrite !bool_decide_eq_true_2 by done. cbn [andb].
    assert (startswith "PK" (ty +:+ rest) = false) as ->.
    { destruct (rest_after_token nn rest Hrest) as [->|[r ->]].
      - by rewrite append_nil_r.
      - by rewrite startswith_app_sep. }
    cbn [orb]. rewrite contains_cons, startswith_cons.
    rewrite bool_decide_eq_false_2 by done. cbn [andb orb].
    rewrite (contains_token_boundary " " ":" "PK");
      [by eapply rest_no_pk | done | by apply token_is_not_space
       | by eapply rest_after_token | by eapply rest_no_pk_start]. }
  change (name +:+ ": " +:+ ty +:+ rest)
    with (name +:+ String Context.colon (" " +:+ ty +:+ rest)).
  rewrite split_once_app by by apply ident_no_colon.
  rewrite (ident_strip name), (ident_unquoted name) by done.
  assert (strip (" " +:+ ty +:+ rest) = ty +:+ rest) as ->.
  { unfold strip, strip_by. simpl. rewrite lstrip_by_id by done. apply Htail. }
  rewrite (proj2 Htail).
  destruct (rest_first_word nn rest Hrest ty Hty) as [ws ->].
  rewrite (rest_not_null nn rest Hrest ty Hty).
  unfold Context.with_tables. simpl. by rewrite alter_alter.
Qed.

End RoundTrip.

(** *** Table blocks *)
Section Blocks.
Import Str Re.

(** the parser state while it reads the block of table [name] *)
Definition block (pre : list (string * Context.table)) (name : string) (tb : Context.table)
    (rels : list Context.fk_info) : Context.SchemaContextGenerator :=
  {| Context.tables := pre ++ [(name, tb)]; Context.relationships := rels |}.

(** [parse_lines] from a given state *)
Definition feed (lines : list string) (st : Context.SchemaContextGenerator * option string)
    : Context.SchemaContextGenerator * option string :=
  fold_left Context.parse_line lines st.

Lemma feed_app l1 l2 st : feed (l1 ++ l2) st = feed l2 (feed l1 st).
Proof. apply fold_left_app. Qed.

Lemma alter_last {V} (f : V → V) k v (pre : list (string * V)) :
  k ∉ Dict.keys pre → Dict.alter f k (pre ++ [(k, v)]) = pre ++ [(k, f v)].
Proof.
  unfold Dict.keys. induction pre as [|[k' v'] pre IH]; simpl; intros Hk.
  - by rewrite bool_decide_eq_true_2.
  - apply not_elem_of_cons in Hk as [Hne Hk].
    rewrite bool_decide_eq_false_2 by done. by rewrite IH.
Qed.

Lemma set_fresh {V} k (v : V) (pre : list (string * V)) :
  k ∉ Dict.keys pre → Dict.set k v pre = pre ++ [(k, v)].
Proof.
  unfold Dict.keys. induction pre as [|[k' v'] pre IH]; simpl; intros Hk; [done|].
  apply not_elem_of_cons in Hk as [Hne Hk].
  rewrite bool_decide_eq_false_2 by done. by rewrite IH.
Qed.

Section Block.
Variable pre : list (string * Context.table).
Variable name : string.
Hypothesis Hfresh : name ∉ Dict.keys pre.

Lemma block_alter f tb rels :
  Context.with_tables (Dict.alter f name) (block pre name tb rels) = block pre name (f tb) rels.
Proof. unfold Context.with_tables, block. simpl. by rewrite alter_last. Qed.

Lemma parse_line_column_block n c tb rels :
  column_ok (n, c) = true →
  Context.parse_line (block pre name tb rels, Some name) (Compress.column_line n c)
  = (block pre name (reparse_column tb (n, c)) rels, Some name).
Proof.
  intros [Hn Hc]%andb_prop. simpl in Hn, Hc. unfold reparse_column. cbn [fst snd].
  destruct (Compress.auto_pk c) eqn:Hauto.
  - unfold Compress.column_line. rewrite Hauto. cbv iota.
    by rewrite parse_line_pk_column, block_alter.
  - simpl in Hc. apply andb_prop in Hc as [Hty Hdef].
    by rewrite parse_line_column, block_alter.
Qed.

Lemma feed_columns cols tb rels :
  forallb column_ok cols = true →
  feed (map (λ '(col_name, c), Compress.column_line col_name c) cols)
    (block pre name tb rels, Some name)
  = (block pre name (fold_left reparse_column cols tb) rels, Some name).
Proof.
  revert tb. induction cols as [|[n c] cols IH]; intros tb Hcols; [done|].
  simpl in Hcols. apply andb_prop in Hcols as [Hc Hcols].
  unfold feed in *. cbn [map fold_left].
  rewrite parse_line_column_block by done. by apply IH.
Qed.

Lemma ref_col_at_in ref_columns i :
  ref_columns ≠ [] → ∃ rc, Compress.ref_col_at ref_columns i = Some rc ∧ rc ∈ ref_columns.
Proof.
  intros Hne. unfold Compress.ref_col_at. case_bool_decide as Hi.
  - destruct (lookup_lt_is_Some_2 ref_columns i Hi) as [rc Hrc].
    exists rc. split; [done|]. by eapply list_elem_of_lookup_2.
  - destruct ref_columns as [|rc ?]; [done|]. exists rc. split; [done|]. apply list_elem_of_here.
Qed.

Lemma forallb_elem {A} (f : A → bool) l x : forallb f l = true → x ∈ l → f x = true.
Proof. rewrite forallb_forall. intros H Hx. apply H. by apply list_elem_of_In. Qed.

Lemma feed_fk_lines lcs rt rcs d i :
  forallb ident lcs = true → ident rt = true → names_ok rcs = true →
  d || forallb (lacks "DEFERRABLE") (rt :: lcs ++ rcs) = true →
  ∃ lines, Compress.fk_lines i lcs rt rcs d = Some lines
    ∧ ∀ tb rels,
        feed lines (block pre name tb rels, Some name)
        = (block pre name
             (fold_left (λ tb fk, Context.add_foreign_key fk tb)
                (fk_infos i name lcs rt rcs d) tb)
             (rels ++ fk_infos i name lcs rt rcs d), Some name).
Proof.
  intros Hlcs Hrt Hrcs Hd. revert i.
  induction lcs as [|lc lcs IH]; intros i.
  - exists []. split; [done|]. intros tb rels. simpl. by rewrite app_nil_r.
  - simpl in Hlcs. apply andb_prop in Hlcs as [Hlc Hlcs].
    destruct (names_ok_spec _ Hrcs) as [Hne Hids].
    destruct (ref_col_at_in rcs i Hne) as (rc & Href & Hin).
    assert (ident rc = true) as Hrc.
    { rewrite Forall_forall in Hids. by apply Hids. }
    assert (d || forallb (lacks "DEFERRABLE") [rt; lc; rc] = true) as Hflag.
    { destruct d; [done|]. simpl in *. apply andb_prop in Hd as [-> Hd].
      apply andb_prop in Hd as [-> Hd]. simpl.
      rewrite (forallb_elem _ _ rc Hd); [done|]. apply elem_of_app. by right. }
    assert (d || forallb (lacks "DEFERRABLE") (rt :: lcs ++ rcs) = true) as Hd'.
    { destruct d; [done|]. simpl in *. apply andb_prop in Hd as [-> Hd].
      by apply andb_prop in Hd as [_ ->]. }
    destruct (IH Hlcs Hd' (S i)) as (more & Hmore & Hfeed).
    exists (Compress.fk_line lc rt rc d :: more). split.
    + simpl. by rewrite Href, Hmore.
    + intros tb rels. cbn [feed fold_left]. rewrite parse_line_fk by done.
      cbv zeta. unfold block at 1. simpl Context.tables. simpl Context.relationships.
      rewrite alter_last by done.
      change (fold_left Context.parse_line more ?st) with (feed more st).
      fold (block pre name
              (Context.add_foreign_key
                 {| Context.from_table := name; Context.from_column := lc;
                    Context.to_table := rt; Context.to_column := rc;
                    Context.deferrable := d |} tb)
              (rels ++ [{| Context.from_table := name; Context.from_column := lc;
                           Context.to_table := rt; Context.to_column := rc;
                           Context.deferrable := d |}])).
      rewrite Hfeed. simpl. rewrite Href. simpl. by rewrite <- app_assoc.
Qed.

Lemma feed_constraints cs :
  forallb constraint_ok cs = true →
  ∃ lines, Compress.all_constraint_lines cs = Some lines
    ∧ ∀ tb rels,
        feed lines (block pre name tb rels, Some name)
        = (block pre name (fold_left (reparse_constraint name) cs tb)
             (rels ++ concat (map (constraint_fks name) cs)), Some name).
Proof.
  induction cs as [|c cs IH]; intros Hcs.
  - exists []. split; [done|]. intros tb rels. simpl. by rewrite app_nil_r.
  - simpl in Hcs. apply andb_prop in Hcs as [Hc Hcs].
    destruct (IH Hcs) as (more & Hmore & Hfeed).
    destruct c as [cols|lcs rt rcs d|cols]; simpl in Hc.
    + eexists. split; [simpl; by rewrite Hmore|].
      intros tb rels. unfold feed in *. cbn [app fold_left].
      rewrite parse_line_primary_key, block_alter by done. apply Hfeed.
    + apply andb_prop in Hc as [[[Hlcs Hrt]%andb_prop Hrcs]%andb_prop Hd].
      destruct (feed_fk_lines lcs rt rcs d 0) as (lines & Hlines & Hfk); [done..|].
      exists (lines ++ more). split; [simpl; by rewrite Hlines, Hmore|].
      intros tb rels. rewrite feed_app, Hfk, Hfeed. simpl. by rewrite <- app_assoc.
    + eexists. split; [simpl; by rewrite Hmore|].
      intros tb rels. unfold feed in *. cbn [app fold_left].
      rewrite parse_line_unique, block_alter by done. apply Hfeed.
Qed.

Lemma feed_indexes ixs tb rels :
  forallb index_ok ixs = true →
  feed (map Compress.index_line ixs) (block pre name tb rels, Some name)
  = (block pre name (fold_left reparse_index ixs tb) rels, Some name).
Proof.
  revert tb. induction ixs as [|ix ixs IH]; intros tb Hixs; [done|].
  simpl in Hixs. apply andb_prop in Hixs as [Hix Hixs].
  cbn [map feed fold_left]. rewrite parse_line_index, block_alter by done.
  by apply IH.
Qed.

(** the block of one table, read from any state that does not know the table *)
Lemma feed_table t rels cur :
  table_ok (name, t) = true →
  ∃ lines, Compress.table_lines name t = Some lines
    ∧ feed lines ({| Context.tables := pre; Context.relationships := rels |}, cur)
      = (block pre name (reparse_table name t) (rels ++ table_fks (name, t)), Some name).
Proof.
  intros [[[Hname Hcols]%andb_prop Hcs]%andb_prop Hixs]%andb_prop. simpl in *.
  destruct (feed_constraints _ Hcs) as (cl & Hcl & Hfeed).
  unfold Compress.table_lines. rewrite Hcl. simpl. eexists. split; [done|].
  cbn [feed fold_left]. rewrite parse_line_table by done.
  unfold Context.with_tables. simpl. rewrite set_fresh by done.
  fold (block pre name Context.empty_table rels).
  change (fold_left Context.parse_line ?l ?st) with (feed l st).
  rewrite !feed_app, feed_columns, Hfeed, feed_indexes by done.
  cbn [feed fold_left]. by rewrite parse_line_blank.
Qed.
End Block.

End Blocks.

(** *** All the tables, and the shape of the emitted lines *)
Section Tables.
Import Str Re.

Lemma keys_snoc {V} (pre : list (string * V)) k v :
  Dict.keys (pre ++ [(k, v)]) = Dict.keys pre ++ [k].
Proof. unfold Dict.keys. by rewrite fmap_app. Qed.

Lemma feed_tables ts pre rels cur :
  forallb table_ok ts = true → NoDup (Dict.keys ts) →
  (∀ n, n ∈ Dict.keys ts → n ∉ Dict.keys pre) →
  ∃ lines, Compress.all_table_lines ts = Some lines
    ∧ (feed lines ({| Context.tables := pre; Context.relationships := rels |}, cur)).1
      = {| Context.tables := pre ++ map (λ p, (p.1, reparse_table p.1 p.2)) ts;
           Context.relationships := rels ++ concat (map table_fks ts) |}.
Proof.
  revert pre rels cur. induction ts as [|[name t] ts IH]; intros pre rels cur Hts Hnodup Hpre.
  - exists []. split; [done|]. simpl. by rewrite !app_nil_r.
  - simpl in Hts. apply andb_prop in Hts as [Ht Hts].
    unfold Dict.keys in Hnodup. rewrite fmap_cons in Hnodup.
    apply NoDup_cons in Hnodup as [Hname Hnodup]. simpl in Hname.
    assert (name ∉ Dict.keys pre) as Hfresh.
    { apply Hpre. unfold Dict.keys. rewrite fmap_cons. apply list_elem_of_here. }
    destruct (feed_table pre name Hfresh t rels cur Ht) as (lines & Hlines & Hfeed).
    destruct (IH (pre ++ [(name, reparse_table name t)]) (rels ++ table_fks (name, t))
                (Some name) Hts Hnodup) as (more & Hmore & Hrest).
    { intros n Hn. rewrite keys_snoc. intros [Hin|Hin%list_elem_of_singleton]%elem_of_app.
      - eapply Hpre; [|exact Hin]. unfold Dict.keys. rewrite fmap_cons.
        by apply list_elem_of_further.
      - subst. by apply Hname. }
    exists (lines ++ more). split; [simpl; by rewrite Hlines, Hmore|].
    rewrite feed_app, Hfeed. unfold block. rewrite Hrest. simpl.
    by rewrite <- !app_assoc.
Qed.

(** *** Every emitted line is a line: no newline inside, no trailing blank *)

Definition line_ok (l : string) : Prop :=
  all_chars (is_not nl) l = true ∧ (l = "" ∨ tidy is_space l).

Lemma not_space_nl c : not_space c = true → is_not nl c = true.
Proof. revert c. by intros [[] [] [] [] [] [] [] []]. Qed.

Lemma ident_nl_free s : ident s = true → all_chars (is_not nl) s = true.
Proof.
  intros Hs. eapply all_chars_impl; [apply not_space_nl|]. by apply ident_not_space.
Qed.

Lemma token_nl_free s : token not_space s = true → all_chars (is_not nl) s = true.
Proof. intros [_ Hs]%andb_prop. eapply all_chars_impl; [apply not_space_nl | done]. Qed.

Lemma names_nl_free cols :
  names_ok cols = true → all_chars (is_not nl) (join ", " cols) = true.
Proof.
  intros [_ Hids]%names_ok_spec. apply join_all_chars; [done|].
  eapply Forall_impl; [exact Hids|]. intros c Hc. by apply ident_nl_free.
Qed.

Lemma line_ok_blank : line_ok "".
Proof. split; [done | by left]. Qed.

Lemma line_ok_table name : ident name = true → line_ok (name +:+ ":").
Proof.
  intros Hname. split.
  - by rewrite all_chars_app, (ident_nl_free name).
  - right. by apply tidy_app.
Qed.

Lemma rest_nl_free nn rest : rest_shape nn rest → all_chars (is_not nl) rest = true.
Proof.
  intros [|d Hd]; destruct nn; try done.
  all: by rewrite !all_chars_app, (token_nl_free d Hd).
Qed.

Lemma line_ok_column n c : column_ok (n, c) = true → line_ok (Compress.column_line n c).
Proof.
  intros [Hn Hc]%andb_prop. simpl in Hn, Hc.
  apply plain_column_name_spec in Hn as (Hid & _).
  destruct (Compress.auto_pk c) eqn:Hauto.
  - unfold Compress.column_line. rewrite Hauto. cbv iota. split.
    + by rewrite !all_chars_app, (ident_nl_free n).
    + right. by do 2 apply tidy_app.
  - simpl in Hc. apply andb_prop in Hc as [[Hty _]%andb_prop Hdef].
    pose proof (column_rest_shape c Hdef) as Hrest.
    rewrite column_line_rest by done. split.
    + rewrite !all_chars_app, (ident_nl_free n), (token_nl_free (Compress.col_type c)) by done.
      by rewrite (rest_nl_free _ _ Hrest).
    + right. do 3 apply tidy_app. by eapply rest_tidy.
Qed.

Lemma line_ok_fk lc rt rc d :
  ident lc = true → ident rt = true → ident rc = true →
  line_ok (Compress.fk_line lc rt rc d).
Proof.
  intros Hlc Hrt Hrc. unfold Compress.fk_line. split.
  - rewrite !all_chars_app, (ident_nl_free lc), (ident_nl_free rt), (ident_nl_free rc) by done.
    by destruct d.
  - right. do 6 apply tidy_app. by destruct d.
Qed.

Lemma line_ok_bracketed prefix cols :
  all_chars (is_not nl) prefix = true → names_ok cols = true →
  line_ok (prefix +:+ join ", " cols +:+ ")").
Proof.
  intros Hprefix Hcols. split.
  - by rewrite !all_chars_app, Hprefix, names_nl_free.
  - right. by do 2 apply tidy_app.
Qed.

Lemma line_ok_index index : index_ok index = true → line_ok (Compress.index_line index).
Proof.
  intros [[Hcols _]%andb_prop _]%andb_prop. unfold Compress.index_line. split.
  - rewrite !all_chars_app, names_nl_free by done.
    by destruct (Compress.idx_like_ops index), (Compress.idx_unique index).
  - right. do 2 apply tidy_app.
    by destruct (Compress.idx_like_ops index), (Compress.idx_unique index).
Qed.

Lemma line_ok_fk_lines lcs rt rcs d i lines :
  forallb ident lcs = true → ident rt = true → names_ok rcs = true →
  Compress.fk_lines i lcs rt rcs d = Some lines → Forall line_ok lines.
Proof.
  intros Hlcs Hrt Hrcs. revert i lines.
  induction lcs as [|lc lcs IH]; intros i lines; simpl.
  - intros [= <-]. constructor.
  - simpl in Hlcs. apply andb_prop in Hlcs as [Hlc Hlcs].
    destruct (names_ok_spec _ Hrcs) as [Hne Hids].
    destruct (ref_col_at_in rcs i Hne) as (rc & -> & Hin). simpl.
    destruct (Compress.fk_lines (S i) lcs rt rcs d) as [more|] eqn:Hmore; [|done].
    simpl. intros [= <-]. constructor; [|by eapply IH].
    apply line_ok_fk; try done. rewrite Forall_forall in Hids. by apply Hids.
Qed.

Lemma line_ok_constraints cs lines :
  forallb constraint_ok cs = true →
  Compress.all_constraint_lines cs = Some lines → Forall line_ok lines.
Proof.
  revert lines. induction cs as [|c cs IH]; intros lines Hcs; simpl.
  - intros [= <-]. constructor.
  - simpl in Hcs. apply andb_prop in Hcs as [Hc Hcs].
    destruct (Compress.constraint_lines c) as [l|] eqn:Hl; [|done]. simpl.
    destruct (Compress.all_constraint_lines cs) as [more|]; [|done]. simpl.
    intros [= <-]. apply Forall_app. split; [|by apply IH].
    destruct c as [cols|lcs rt rcs d|cols]; simpl in Hc, Hl.
    + injection Hl as <-. constructor; [|constructor].
      by apply (line_ok_bracketed "  PRIMARY KEY (").
    + apply andb_prop in Hc as [[[Hlcs Hrt]%andb_prop Hrcs]%andb_prop Hd].
      by eapply line_ok_fk_lines.
    + injection Hl as <-. constructor; [|constructor].
      by apply (line_ok_bracketed "  UNIQUE (").
Qed.

Lemma line_ok_table_lines name t lines :
  table_ok (name, t) = true → Compress.table_lines name t = Some lines → Forall line_ok lines.
Proof.
  intros [[[Hname Hcols]%andb_prop Hcs]%andb_prop Hixs]%andb_prop. simpl in *.
  unfold Compress.table_lines.
  destruct (Compress.all_constraint_lines _) as [cl|] eqn:Hcl; [|done]. simpl.
  intros [= <-]. constructor; [by apply line_ok_table|]. repeat apply Forall_app_2.
  - apply Forall_fmap, Forall_forall. intros [n c] Hin. simpl.
    apply line_ok_column. eapply forallb_elem; [exact Hcols | done].
  - by eapply line_ok_constraints.
  - apply Forall_fmap, Forall_forall. intros ix Hin. simpl.
    apply line_ok_index. eapply forallb_elem; [exact Hixs | done].
  - constructor; [apply line_ok_blank | constructor].
Qed.

Lemma line_ok_all_tables ts lines :
  forallb table_ok ts = true → Compress.all_table_lines ts = Some lines → Forall line_ok lines.
Proof.
  revert lines. induction ts as [|[name t] ts IH]; intros lines Hts; simpl.
  - intros [= <-]. constructor.
  - simpl in Hts. apply andb_prop in Hts as [Ht Hts].
    destruct (Compress.table_lines name t) as [l|] eqn:Hl; [|done]. simpl.
    destruct (Compress.all_table_lines ts) as [more|]; [|done]. simpl.
    intros [= <-]. apply Forall_app. split; [by eapply line_ok_table_lines | by apply IH].
Qed.

Lemma header_shape s :
  header_ok s = true →
  ∃ more, Compress.header s = "-- Schema: " +:+ more ∧ line_ok (Compress.header s).
Proof.
  intros [Hschema Howner]%andb_prop. unfold Compress.header.
  eexists. split; [done|].
  destruct (Compress.default_owner s) as [owner|].
  - rewrite (ident_nonempty owner Howner). split.
    + by rewrite !all_chars_app, (ident_nl_free owner), (ident_nl_free (Compress.default_schema s)).
    + right. do 3 apply tidy_app. apply token_tidy.
      unfold token. rewrite (ident_nonempty owner Howner). by apply ident_not_space.
  - split.
    + by rewrite !all_chars_app, (ident_nl_free (Compress.default_schema s)).
    + right. rewrite append_nil_r. apply tidy_app, token_tidy.
      unfold token. rewrite (ident_nonempty _ Hschema). by apply ident_not_space.
Qed.

End Tables.

(** *** The text: joined, stripped and split again *)
Section Text.
Import Str Re.

(** the lines without the blank lines at the end *)
Fixpoint trim (lines : list string) : list string :=
  match lines with
  | [] => []
  | l :: lines' =>
      match trim lines' with
      | [] => if nonempty l then [l] else []
      | rest => l :: rest
      end
  end.

Lemma rstrip_by_app_blank p a b :
  rstrip_by p b = "" → rstrip_by p (a +:+ b) = rstrip_by p a.
Proof.
  intros Hb. induction a as [|c a IH]; [done|].
  rewrite append_cons. simpl. by rewrite IH.
Qed.

Lemma rstrip_by_cons_blank p c s :
  p c = true → rstrip_by p s = "" → rstrip_by p (String c s) = "".
Proof. intros Hc Hs. simpl. by rewrite Hs, Hc. Qed.

Definition newline : string := String nl "".

Lemma join_cons_cons sep a b l : join sep (a :: b :: l) = a +:+ sep +:+ join sep (b :: l).
Proof. done. Qed.

Lemma trim_last_nonempty lines :
  trim lines ≠ [] → nonempty (join newline (trim lines)) = true.
Proof.
  induction lines as [|l lines IH]; [done|]. simpl.
  destruct (trim lines) as [|r rest] eqn:Htrim.
  - destruct (nonempty l) eqn:Hl; [done|]. done.
  - intros _. rewrite join_cons_cons. by apply append_nonempty.
Qed.

Lemma rstrip_join lines :
  Forall (λ l, l = "" ∨ tidy is_space l) lines →
  rstrip_by is_space (join newline lines) = join newline (trim lines).
Proof.
  induction 1 as [|l lines Hl Hlines IH]; [done|].
  assert (rstrip_by is_space l = l) as Hrl.
  { destruct Hl as [->|[? _]]; done. }
  destruct lines as [|l' lines].
  - simpl. destruct (nonempty l) eqn:Hne; [done|].
    apply negb_false_iff, bool_decide_eq_true in Hne. by subst.
  - rewrite join_cons_cons. cbn [trim]. cbn [trim] in IH.
    destruct (match trim lines with
              | [] => if nonempty l' then [l'] else []
              | rest => l' :: rest
              end) as [|r rest] eqn:Htrim.
    + rewrite rstrip_by_app_blank.
      * rewrite Hrl. destruct (nonempty l) eqn:Hne; [done|].
        apply negb_false_iff, bool_decide_eq_true in Hne. by subst.
      * change (newline +:+ join newline (l' :: lines))
          with (String nl (join newline (l' :: lines))).
        apply rstrip_by_cons_blank; [done | exact IH].
    + rewrite (join_cons_cons newline l r rest), <- !append_assoc.
      rewrite rstrip_by_app.
      * by rewrite IH.
      * rewrite IH. rewrite <- Htrim.
        apply (trim_last_nonempty (l' :: lines)). cbn [trim]. by rewrite Htrim.
Qed.

Lemma feed_trim lines st : feed (trim lines) st = feed lines st.
Proof.
  revert st. induction lines as [|l lines IH]; intros st; [done|].
  cbn [trim]. unfold feed in *. cbn [fold_left].
  destruct (trim lines) as [|r rest] eqn:Htrim.
  - rewrite <- IH. destruct (nonempty l) eqn:Hne; [done|].
    apply negb_false_iff, bool_decide_eq_true in Hne. subst.
    by rewrite parse_line_blank.
  - cbn [fold_left]. by rewrite <- IH.
Qed.

Lemma trim_Forall (P : string → Prop) lines : Forall P lines → Forall P (trim lines).
Proof.
  induction 1 as [|l lines Hl Hlines IH]; [done|]. cbn [trim].
  destruct (trim lines); [|by constructor].
  destruct (nonempty l); by repeat constructor.
Qed.

Lemma trim_nonempty l lines : nonempty l = true → trim (l :: lines) ≠ [].
Proof. intros Hl. cbn [trim]. destruct (trim lines); by rewrite ?Hl. Qed.

Lemma parse_line_header st more :
  tidy is_space ("-- Schema: " +:+ more) →
  Context.parse_line st ("-- Schema: " +:+ more) = st.
Proof.
  intros Htidy. destruct st as [g cur]. unfold Context.parse_line.
  rewrite strip_tidy by done. rewrite (proj2 Htidy).
  rewrite startswith_app_long by (simpl; lia). done.
Qed.

(** the compact text, parsed, is the emitted lines, fed one by one *)
Lemma parse_output lines more :
  Forall line_ok (("-- Schema: " +:+ more) :: lines) →
  Context.parse_compressed_schema (join newline (("-- Schema: " +:+ more) :: lines)) Context.new
  = (feed lines (Context.new, None)).1.
Proof.
  intros Hok. unfold Context.parse_compressed_schema, Context.parse_lines.
  set (out := ("-- Schema: " +:+ more) :: lines) in *.
  assert (Forall (λ l, l = "" ∨ tidy is_space l) out) as Htidy.
  { eapply Forall_impl; [exact Hok|]. by intros l [_ ?]. }
  assert (Forall (λ l, all_chars (is_not nl) l = true) out) as Hnl.
  { eapply Forall_impl; [exact Hok|]. by intros l [? _]. }
  assert (tidy is_space ("-- Schema: " +:+ more)) as Hheader.
  { apply Forall_cons in Htidy as [[Hh|Hh] _]; [by destruct more | done]. }
  assert (strip (join newline out) = join newline (trim out)) as ->.
  { unfold strip, strip_by. rewrite lstrip_by_id; [by apply rstrip_join|].
    subst out. destruct lines; [done|]. rewrite join_cons_cons. done. }
  change (join newline (trim out)) with (join (String nl "") (trim out)).
  rewrite split_on_join;
    [|apply trim_nonempty, (proj2 Hheader) | by apply trim_Forall].
  change (fold_left Context.parse_line (trim out) (Context.new, None))
    with (feed (trim out) (Context.new, None)).
  rewrite feed_trim. subst out. unfold feed. cbn [fold_left].
  by rewrite parse_line_header.
Qed.

(** C1 (amended), the core: the compact text of a model whose names are
    plain parses back to [reparsed]. *)
Lemma roundtrip_reparsed s :
  roundtrip_ok s = true →
  ∃ text, Compress.generate_compressed_schema s = Some text
    ∧ Context.parse_compressed_schema text Context.new = reparsed s.
Proof.
  intros [[Hheader Hnodup%bool_decide_eq_true]%andb_prop Htables]%andb_prop.
  destruct (feed_tables (Compress.tables s) [] [] None Htables Hnodup)
    as (body & Hbody & Hfeed).
  { intros n _. apply not_elem_of_nil. }
  destruct (header_shape s Hheader) as (more & Hh & Hline).
  unfold Compress.generate_compressed_schema, Compress.output_lines.
  rewrite Hbody. exists (join newline (Compress.header s :: "" :: body)). split; [done|].
  rewrite Hh in *.
  rewrite (parse_output ("" :: body) more).
  - unfold feed in *. cbn [fold_left]. rewrite parse_line_blank.
    exact Hfeed.
  - constructor; [done|]. constructor; [apply line_ok_blank|].
    by eapply line_ok_all_tables.
Qed.

End Text.

(** *** The re-parsed model, field by field *)
Section Reparsed.
Import Str Re.

(** the type the compact parser counts for a column *)
Definition reparsed_type (c : Compress.column_info) : string :=
  if Compress.auto_pk c then "integer" else lower (Compress.col_type c).

(** the column counts as required *)
Definition reparsed_required (c : Compress.column_info) : bool :=
  Compress.auto_pk c || Compress.not_null c.

Definition auto_pk_names (cols : list (string * Compress.column_info)) : list string :=
  (filter (λ col, Compress.auto_pk col.2) cols).*1.

Definition primary_key_columns (c : Compress.constraint) : list string :=
  match c with
  | Compress.PRIMARY_KEY cols => cols
  | _ => []
  end.

Definition unique_columns (c : Compress.constraint) : option (list string) :=
  match c with
  | Compress.UNIQUE cols => Some cols
  | _ => None
  end.

Definition index_entry_of (index : Compress.index_info) : Context.index_entry :=
  {| Context.columns_of := Compress.idx_columns index;
     Context.unique := Compress.idx_unique index;
     Context.like_ops := Compress.idx_like_ops index |}.

Definition type_histogram (cols : list (string * Compress.column_info))
    (m : gmap string nat) : gmap string nat :=
  fold_left (λ m col, Context.incr (reparsed_type col.2) m) cols m.

Lemma type_histogram_count cols m ty :
  Context.count_of ty (type_histogram cols m)
  = Context.count_of ty m + length (filter (λ col, reparsed_type col.2 = ty) cols).
Proof.
  revert m. induction cols as [|col cols IH]; intros m; simpl; [lia|].
  unfold type_histogram in IH. rewrite IH, count_of_incr, filter_cons.
  repeat case_decide; simpl; lia.
Qed.

Lemma reparse_columns cols tb :
  fold_left reparse_column cols tb
  = {| Context.columns := Context.columns tb ++ Dict.keys cols;
       Context.primary_keys := Context.primary_keys tb ++ auto_pk_names cols;
       Context.foreign_keys := Context.foreign_keys tb;
       Context.unique_constraints := Context.unique_constraints tb;
       Context.indexes := Context.indexes tb;
       Context.column_types := type_histogram cols (Context.column_types tb);
       Context.nullable_columns :=
         Context.nullable_columns tb
         + length (filter (λ col, ¬ reparsed_required col.2) cols);
       Context.required_columns :=
         Context.required_columns tb
         + length (filter (λ col, reparsed_required col.2) cols) |}.
Proof.
  revert tb. induction cols as [|[n c] cols IH]; intros tb.
  - destruct tb. simpl. rewrite !app_nil_r. f_equal; lia.
  - cbn [fold_left]. rewrite IH. clear IH.
    unfold auto_pk_names, Dict.keys, type_histogram, reparse_column, reparsed_required,
      reparsed_type.
    rewrite !filter_cons, !fmap_cons. cbn [fst snd fold_left].
    destruct c as [ty nn df [|]]; [|destruct nn]; simpl.
    all: f_equal; rewrite <- ?app_assoc; simpl; try done; lia.
Qed.

Lemma add_foreign_keys fks tb :
  fold_left (λ tb fk, Context.add_foreign_key fk tb) fks tb
  = {| Context.columns := Context.columns tb;
       Context.primary_keys := Context.primary_keys tb;
       Context.foreign_keys := Context.foreign_keys tb ++ fks;
       Context.unique_constraints := Context.unique_constraints tb;
       Context.indexes := Context.indexes tb;
       Context.column_types := Context.column_types tb;
       Context.nullable_columns := Context.nullable_columns tb;
       Context.required_columns := Context.required_columns tb |}.
Proof.
  revert tb. induction fks as [|fk fks IH]; intros tb.
  - destruct tb. simpl. by rewrite app_nil_r.
  - cbn [fold_left]. rewrite IH. simpl. by rewrite <- app_assoc.
Qed.

Lemma reparse_constraints name cs tb :
  fold_left (reparse_constraint name) cs tb
  = {| Context.columns := Context.columns tb;
       Context.primary_keys := Context.primary_keys tb ++ concat (map primary_key_columns cs);
       Context.foreign_keys := Context.foreign_keys tb ++ concat (map (constraint_fks name) cs);
       Context.unique_constraints := Context.unique_constraints tb ++ omap unique_columns cs;
       Context.indexes := Context.indexes tb;
       Context.column_types := Context.column_types tb;
       Context.nullable_columns := Context.nullable_columns tb;
       Context.required_columns := Context.required_columns tb |}.
Proof.
  revert tb. induction cs as [|c cs IH]; intros tb.
  - destruct tb. simpl. by rewrite !app_nil_r.
  - cbn [fold_left]. rewrite IH.
    destruct c as [cols|lcs rt rcs d|cols]; unfold reparse_constraint.
    + simpl. by rewrite <- ?app_assoc, ?app_nil_r.
    + rewrite add_foreign_keys. simpl. by rewrite <- ?app_assoc, ?app_nil_r.
    + simpl. by rewrite <- ?app_assoc, ?app_nil_r.
Qed.

Lemma reparse_indexes ixs tb :
  fold_left reparse_index ixs tb
  = {| Context.columns := Context.columns tb;
       Context.primary_keys := Context.primary_keys tb;
       Context.foreign_keys := Context.foreign_keys tb;
       Context.unique_constraints := Context.unique_constraints tb;
       Context.indexes := Context.indexes tb ++ map index_entry_of ixs;
       Context.column_types := Context.column_types tb;
       Context.nullable_columns := Context.nullable_columns tb;
       Context.required_columns := Context.required_columns tb |}.
Proof.
  revert tb. induction ixs as [|ix ixs IH]; intros tb.
  - destruct tb. simpl. by rewrite app_nil_r.
  - cbn [fold_left]. rewrite IH. simpl. by rewrite <- app_assoc.
Qed.

(** the re-parsed table in closed form *)
Lemma reparse_table_closed name t :
  reparse_table name t
  = {| Context.columns := Dict.keys (Compress.columns t);
       Context.primary_keys :=
         auto_pk_names (Compress.columns t)
         ++ concat (map primary_key_columns (Compress.constraints t));
       Context.foreign_keys := table_fks (name, t);
       Context.unique_constraints := omap unique_columns (Compress.constraints t);
       Context.indexes := map index_entry_of (Compress.indexes t);
       Context.column_types := type_histogram (Compress.columns t) ∅;
       Context.nullable_columns :=
         length (filter (λ col, ¬ reparsed_required col.2) (Compress.columns t));
       Context.required_columns :=
         length (filter (λ col, reparsed_required col.2) (Compress.columns t)) |}.
Proof.
  unfold reparse_table. by rewrite reparse_indexes, reparse_constraints, reparse_columns.
Qed.

(** the relationship at position [i] of a foreign key pairs the local
    column with the [i]-th referenced column, or with the first one *)
Lemma fk_infos_lookup name lcs rt rcs d i j lc :
  lcs !! j = Some lc →
  fk_infos i name lcs rt rcs d !! j
  = Some {| Context.from_table := name; Context.from_column := lc;
            Context.to_table := rt;
            Context.to_column :=
              from_option id ""
                (rcs !! (if bool_decide (i + j < length rcs) then i + j else 0));
            Context.deferrable := d |}.
Proof.
  revert i j. induction lcs as [|lc' lcs IH]; intros i j; [done|].
  destruct j as [|j]; simpl.
  - intros [= ->]. rewrite Nat.add_0_r. unfold Compress.ref_col_at. by case_bool_decide.
  - intros Hj. rewrite (IH (S i) j Hj). by rewrite Nat.add_succ_r.
Qed.

Lemma get_reparsed s name :
  Dict.get name (Context.tables (reparsed s))
  = reparse_table name <$> Dict.get name (Compress.tables s).
Proof.
  unfold reparsed. simpl. induction (Compress.tables s) as [|[k t] ts IH]; simpl; [done|].
  case_bool_decide; [by subst | exact IH].
Qed.

Lemma keys_reparsed s :
  Dict.keys (Context.tables (reparsed s)) = Dict.keys (Compress.tables s).
Proof. unfold reparsed, Dict.keys. simpl. by rewrite <- list_fmap_compose. Qed.

End Reparsed.

(** *** The round trip *)
Section RoundTripTheorem.
Import Str Re.

(** a dump, compressed to compact text and parsed again *)
Definition roundtrip (lines : list string) : option Context.SchemaContextGenerator :=
  s ← parsed lines;
  text ← Compress.generate_compressed_schema s;
  Some (Context.parse_compressed_schema text Context.new).

Definition reparsed_types_of (table_name : string) (types : list string)
    (g : Context.SchemaContextGenerator) : option (list nat) :=
  tb ← Dict.get table_name (Context.tables g);
  Some (map (λ ty, Context.count_of ty (Context.column_types tb)) types).

Definition item_dump : list string :=
  ["CREATE TABLE public.item (";
   "    id bigint NOT NULL,";
   "    title TEXT";
   ");";
   "CREATE SEQUENCE public.item_id_seq";
   "    START WITH 1;";
   "ALTER SEQUENCE public.item_id_seq OWNED BY public.item.id;";
   "ALTER TABLE ONLY public.item";
   "    ADD CONSTRAINT item_pkey PRIMARY KEY (id);"].

(** C1, as stated, fails on the column types: the parsed model types [id]
    as [bigint] and [title] as [TEXT]; the model re-parsed from its compact
    text counts one [integer] and one [text], and neither [bigint] nor [TEXT]. *)
Lemma C1_types_not_identical :
  Compress.col_type <$> stored_column item_dump "item" "id" = Some "bigint"
  ∧ Compress.col_type <$> stored_column item_dump "item" "title" = Some "TEXT"
  ∧ roundtrip item_dump ≫= reparsed_types_of "item" ["bigint"; "TEXT"; "integer"; "text"]
    = Some [0; 0; 1; 1].
Proof. split; [|split]; vm_compute; reflexivity. Qed.

(** C1 (amended). Take a model in which the schema, owner, table, column,
    constraint, index and referenced names are identifiers, table names are
    distinct, no column name starts with [FK], [UNIQUE], [IDX] or [PRIMARY],
    the types of the columns that are not auto-PK are whitespace-free tokens
    that do not start with [PK], defaults are whitespace-free, column lists
    are not empty, and no name on a line spells a flag the line does not
    carry ([DEFERRABLE], [UNIQUE], [LIKE]).  Its compact text exists and
    parses back to the same table names in order and, per table, the same
    column names in order, one relationship per foreign-key column pair, the
    same unique column lists and the same index entries, in order.  Types
    and nullability come back as the compact model keeps them: a histogram
    of lower-cased types in which an auto-PK column counts as [integer], and
    the numbers of required (NOT NULL or auto-PK) and nullable columns. *)
Theorem C1_round_trip_plain_models (s : Compress.SchemaCompressor) :
  roundtrip_ok s = true →
  ∃ text g,
    Compress.generate_compressed_schema s = Some text
    ∧ Context.parse_compressed_schema text Context.new = g
    ∧ Dict.keys (Context.tables g) = Dict.keys (Compress.tables s)
    ∧ Context.relationships g = concat (map table_fks (Compress.tables s))
    ∧ (∀ name t,
         Dict.get name (Compress.tables s) = Some t →
         ∃ tb, Dict.get name (Context.tables g) = Some tb
           ∧ Context.columns tb = Dict.keys (Compress.columns t)
           ∧ (∀ ty, Context.count_of ty (Context.column_types tb)
                    = length (filter (λ col, reparsed_type col.2 = ty) (Compress.columns t)))
           ∧ Context.required_columns tb
             = length (filter (λ col, reparsed_required col.2) (Compress.columns t))
           ∧ Context.nullable_columns tb
             = length (filter (λ col, ¬ reparsed_required col.2) (Compress.columns t))
           ∧ Context.primary_keys tb
             = auto_pk_names (Compress.columns t)
               ++ concat (map primary_key_columns (Compress.constraints t))
           ∧ Context.foreign_keys tb
             = concat (map (constraint_fks name) (Compress.constraints t))
           ∧ Context.unique_constraints tb = omap unique_columns (Compress.constraints t)
           ∧ Context.indexes tb = map index_entry_of (Compress.indexes t))
    ∧ (∀ name local_cols ref_table ref_columns deferrable i local_col,
         local_cols !! i = Some local_col →
         constraint_fks name
           (Compress.FOREIGN_KEY local_cols ref_table ref_columns deferrable) !! i
         = Some {| Context.from_table := name; Context.from_column := local_col;
                   Context.to_table := ref_table;
                   Context.to_column :=
                     from_option id ""
                       (ref_columns !! (if bool_decide (i < length ref_columns) then i else 0));
                   Context.deferrable := deferrable |}).
Proof.
  intros Hok. destruct (roundtrip_reparsed s Hok) as (text & Htext & Hparse).
  exists text, (reparsed s). split; [done|]. split; [done|].
  split; [apply keys_reparsed|]. split; [done|]. split.
  - intros name t Ht. exists (reparse_table name t).
    rewrite get_reparsed, Ht. split; [done|].
    rewrite reparse_table_closed. simpl.
    repeat split; try done.
    intros ty. by rewrite type_histogram_count.
  - intros name lcs rt rcs d i lc Hi. simpl.
    by rewrite (fk_infos_lookup name lcs rt rcs d 0 i lc Hi).
Qed.

Definition shop_dump : list string :=
  ["CREATE TABLE public.customer (";
   "    id bigint NOT NULL,";
   "    email character varying(255) NOT NULL,";
   "    note text DEFAULT 'none'::text";
   ");";
   "ALTER TABLE public.customer OWNER TO shop;";
   "CREATE SEQUENCE public.customer_id_seq";
   "    START WITH 1;";
   "ALTER SEQUENCE public.customer_id_seq OWNED BY public.customer.id;";
   "CREATE TABLE public.purchase (";
   "    customer_id bigint NOT NULL,";
   "    item_id bigint NOT NULL,";
   "    amount numeric(10,2)";
   ");";
   "ALTER TABLE ONLY public.customer";
   "    ADD CONSTRAINT customer_pkey PRIMARY KEY (id);";
   "ALTER TABLE ONLY public.customer";
   "    ADD CONSTRAINT customer_email_key UNIQUE (email);";
   "ALTER TABLE ONLY public.purchase";
   "    ADD CONSTRAINT purchase_pkey PRIMARY KEY (customer_id, item_id);";
   "ALTER TABLE ONLY public.purchase";
   "    ADD CONSTRAINT purchase_customer_fk FOREIGN KEY (customer_id) REFERENCES public.customer(id) DEFERRABLE INITIALLY DEFERRED;";
   "CREATE INDEX purchase_item_idx ON public.purchase USING btree (item_id);";
   "CREATE UNIQUE INDEX customer_email_idx ON public.customer USING btree (email varchar_pattern_ops);"].

(** the model the DDL parser builds from [shop_dump] *)
Definition shop_model : Compress.SchemaCompressor :=
  from_option id (Compress.new false) (parsed shop_dump).

Lemma C1_round_trip_plain_models_witness :
  roundtrip_ok shop_model = true
  ∧ ∃ text g,
      Compress.generate_compressed_schema shop_model = Some text
      ∧ Context.parse_compressed_schema text Context.new = g
      ∧ Dict.keys (Context.tables g) = Dict.keys (Compress.tables shop_model)
      ∧ Context.relationships g = concat (map table_fks (Compress.tables shop_model)).
Proof.
  assert (roundtrip_ok shop_model = true) as Hok by (vm_compute; reflexivity).
  split; [exact Hok|].
  destruct (C1_round_trip_plain_models shop_model Hok)
    as (text & g & Htext & Hg & Hkeys & Hrels & _).
  exists text, g. exact (conj Htext (conj Hg (conj Hkeys Hrels))).
Defined.

End RoundTripTheorem.

(** ** Supplements *)
Section Supplements.
Import Str Re.

Definition audited_shop : Context.SchemaContextGenerator :=
  {| Context.tables := [("users", Context.empty_table); ("orders", Context.empty_table);
                        ("user_log", Context.empty_table)];
     Context.relationships := [] |}.

(** [user_log] holds the keyword [user] of the first pair and the keyword
    [log] of the second: it is filed under the first, [auth_security] *)
Lemma C7_category_totality_witness :
  "user_log" ∈ Dict.keys (Context.tables audited_shop)
  ∧ "user_log" ∈ default []
      (Context._fallback_categorize_tables Context.default_fallback_categorization
         audited_shop !! "auth_security")
  ∧ "user_log" ∉ default []
      (Context._fallback_categorize_tables Context.default_fallback_categorization
         audited_shop !! "audit_logging").
Proof.
  assert ("user_log" ∈ Dict.keys (Context.tables audited_shop)) as Hin.
  { apply list_elem_of_further, list_elem_of_further, list_elem_of_here. }
  pose proof (proj1 (proj2 (proj2 (C7_category_totality
                Context.default_fallback_categorization audited_shop)))) as Hbucket.
  simpl in Hbucket.
  assert (first_match_wins Context.default_fallback_categorization "user_log" "auth_security")
    as Hwins.
  { left. exists [], ["auth"; "user"; "permission"; "role"; "token"; "session"],
      (tail Context.default_fallback_categorization).
    split; [reflexivity|]. split; [|constructor].
    exists "user". split; [apply list_elem_of_further, list_elem_of_here | reflexivity]. }
  split; [exact Hin|]. split.
  - exact (proj2 (Hbucket "user_log" "auth_security" Hin) Hwins).
  - intros Hlog. apply (Hbucket "user_log" "audit_logging" Hin) in Hlog.
    destruct Hlog as [(before & keywords & after & Heq & _ & Hbefore) | [Hc _]];
      [|discriminate Hc].
    destruct before as [|p before]; [discriminate Heq|].
    injection Heq as <- _. apply Forall_cons in Hbefore as [Hfirst _].
    apply Hfirst. exists "user".
    split; [apply list_elem_of_further, list_elem_of_here | reflexivity].
Defined.

(** *** The extractor after any INSERT line *)

Lemma startswith_exclusive p q s :
  startswith p s = true → String.length q ≤ String.length p → startswith q p = false →
  startswith q s = false.
Proof.
  intros [r Hr]%startswith_true Hlen Hq. apply strip_prefix_app in Hr as ->.
  by rewrite startswith_app_long.
Qed.

(** whatever follows a line that starts with [INSERT INTO] is dropped *)
Lemma insert_line_drops_next st line next :
  Extract.in_copy_block st = false →
  startswith "INSERT INTO" (upper (strip line)) = true →
  Extract.schema_lines (Extract.step (Extract.step st line) next) = Extract.schema_lines st.
Proof.
  intros Hcopy Hinsert.
  assert (Extract.step st line
          = {| Extract.schema_lines := Extract.schema_lines st;
               Extract.in_copy_block := false; Extract.in_insert_block := true |}) as ->.
  { unfold Extract.step.
    rewrite (startswith_exclusive "INSERT INTO" "COPY " _ Hinsert) by (simpl; lia || done).
    by rewrite Hcopy, Hinsert. }
  unfold Extract.step. simpl. by repeat case_match.
Qed.

(** *** Type patterns on a single token *)

Lemma sub_go_no_match fuel r repl s :
  (∀ a b, s = a +:+ b → match_here r b = None) → sub_go fuel r repl s = s.
Proof.
  revert s. induction fuel as [|fuel IH]; intros s Hno; [done|]. simpl.
  rewrite (Hno "" s) by done. destruct s as [|c s]; [done|]. f_equal. apply IH.
  intros a b ->. by apply (Hno (String c a) b).
Qed.

Lemma match_here_literal_start l rest s :
  all_chars not_space l = false → all_chars not_space s = true →
  match_here (cat (Lit l :: rest)) s = None ∧ match_here (Lit l) s = None.
Proof.
  intros Hl Hs.
  assert (strip_prefix l s = None) as Hnone.
  { destruct (strip_prefix l s) as [r|] eqn:Hr; [|done].
    apply strip_prefix_app in Hr as ->. rewrite all_chars_app in Hs.
    apply andb_prop in Hs as [Hs _]. congruence. }
  unfold match_here. split; [|simpl; by rewrite Hnone].
  destruct rest as [|r rest]; simpl; by rewrite Hnone.
Qed.

Lemma plus_rest_suffix_chars {A} q (P : A → Prop) p s (k : string → option A) x :
  (∀ s' y, all_chars q s' = true → k s' = Some y → P y) →
  all_chars q s = true → plus_rest p s k = Some x → P x.
Proof.
  intros Hk. induction s as [|c s IH]; intros Hs; [by apply Hk|].
  pose proof Hs as [Hc Hs']%andb_prop. simpl.
  destruct (p c); [|by apply Hk].
  destruct (plus_rest p s k) as [y|] eqn:Hy.
  - intros [= <-]. by apply IH.
  - by apply Hk.
Qed.

(** what is left after a match is a suffix of the text *)
Lemma rmatch_suffix_chars {A} q (P : A → Prop) r :
  ∀ s g (k : string → groups → option A) x,
    (∀ s' g' y, all_chars q s' = true → k s' g' = Some y → P y) →
    all_chars q s = true → rmatch r s g k = Some x → P x.
Proof.
  induction r as [l|p|r1 IH1 r2 IH2|r IH|r1 IH1 r2 IH2|n r IH]; intros s g k x Hk Hs; simpl.
  - destruct (strip_prefix l s) as [s'|] eqn:Hl; [|done].
    apply strip_prefix_app in Hl as ->. rewrite all_chars_app in Hs.
    apply andb_prop in Hs as [_ Hs]. by apply Hk.
  - destruct s as [|c s]; [done|]. simpl in Hs. apply andb_prop in Hs as [_ Hs].
    destruct (p c); [|done]. apply plus_rest_suffix_chars with (q := q); [|done].
    intros s' y Hs'. by apply Hk.
  - apply IH1; [|done]. intros s' g' y Hs'. by apply IH2.
  - destruct (rmatch r s g k) as [y|] eqn:Hy.
    + intros [= <-]. by eapply IH.
    + by apply Hk.
  - destruct (rmatch r1 s g k) as [y|] eqn:Hy.
    + intros [= <-]. by eapply IH1.
    + by apply IH2.
  - apply IH; [|done]. intros s' g' y Hs'. by apply Hk.
Qed.

Lemma match_here_rest_chars q r s g rest :
  all_chars q s = true → match_here r s = Some (g, rest) → all_chars q rest = true.
Proof.
  intros Hs Hm. unfold match_here in Hm.
  refine (rmatch_suffix_chars q (λ x, all_chars q x.2 = true) r s ∅ _ (g, rest) _ Hs Hm).
  by intros s' g' y Hs' [= <-].
Qed.

(** on a token without whitespace only the [character(n)] pattern can
    fire: the three patterns that contain a space never match *)
Lemma simplify_type_token w :
  all_chars not_space w = true →
  Compress._simplify_type w = sub Compress.re_char "char" w.
Proof.
  intros Hw. unfold Compress._simplify_type.
  assert (∀ s l rest repl, all_chars not_space s = true → all_chars not_space l = false →
            sub (cat (Lit l :: rest)) repl s = s ∧ sub (Lit l) repl s = s) as Hdead.
  { intros s l rest repl Hs Hl. unfold sub.
    split; apply sub_go_no_match; intros a b ->;
      rewrite all_chars_app in Hs; apply andb_prop in Hs as [_ Hb];
      by apply (match_here_literal_start l rest b). }
  unfold Compress.re_varchar at 1.
  rewrite (proj1 (Hdead w "character varying(" _ "varchar" Hw eq_refl)).
  set (w' := sub Compress.re_char "char" w).
  assert (all_chars not_space w' = true) as Hw'.
  { subst w'. unfold sub. generalize (S (String.length w)). intros fuel.
    revert w Hw. induction fuel as [|fuel IH]; intros w Hw; [done|]. simpl.
    destruct (match_here Compress.re_char w) as [[g rest]|] eqn:Hm.
    - change ("char" +:+ sub_go fuel Compress.re_char "char" rest)
        with (String "c" (String "h" (String "a" (String "r"
                (sub_go fuel Compress.re_char "char" rest))))).
      simpl. apply IH. clear IH. by eapply match_here_rest_chars.
    - destruct w as [|c w]; [done|]. simpl in *.
      apply andb_prop in Hw as [-> Hw]. by apply IH. }
  unfold Compress.re_timestamptz, Compress.re_timestamp.
  rewrite (proj2 (Hdead w' "timestamp with time zone" [] "timestamptz" Hw' eq_refl)).
  by rewrite (proj2 (Hdead w' "timestamp without time zone" [] "timestamp" Hw' eq_refl)).
Qed.

End Supplements.

(** * Further properties of the pipeline *)

(** ** step_01_extract_schema.py : the line classifiers *)
Module Classify.
Import Str.

Definition schema_keywords : list string :=
  ["CREATE TABLE"; "CREATE SEQUENCE"; "CREATE INDEX"; "CREATE UNIQUE INDEX"; "CREATE VIEW";
   "CREATE SCHEMA"; "CREATE FUNCTION"; "CREATE TRIGGER"; "CREATE TYPE"; "CREATE DOMAIN";
   "CREATE EXTENSION"; "ALTER TABLE"; "ALTER SEQUENCE"; "ALTER INDEX"; "ALTER VIEW";
   "ALTER SCHEMA"; "ALTER FUNCTION"; "ALTER TRIGGER"; "ALTER TYPE"; "ALTER DOMAIN";
   "COMMENT ON"; "SET "; "SELECT PG_CATALOG.SET_CONFIG"; "DROP TABLE"; "DROP SEQUENCE";
   "DROP INDEX"; "DROP VIEW"; "DROP SCHEMA"; "DROP FUNCTION"; "DROP TRIGGER"; "DROP TYPE";
   "DROP DOMAIN"; "DROP EXTENSION"].

Definition is_schema_statement (line : string) : bool :=
  let line_stripped := upper (strip line) in
  if negb (nonempty line_stripped) || startswith "--" line_stripped then true
  else if existsb (λ keyword, startswith keyword line_stripped) schema_keywords then true
  else if startswith "-- TOC ENTRY" line_stripped then true
  else if startswith "-- DEPENDENCIES:" line_stripped then true
  else if startswith "-- NAME:" line_stripped then true
  else false.

End Classify.

(** ** The extractor as a filter *)
Section Extraction.
Import Str Extract.

(** the two line shapes that open a data block *)
Definition opens_copy (line : string) : bool := startswith "COPY " (upper (strip line)).
Definition opens_insert (line : string) : bool := startswith "INSERT INTO" (upper (strip line)).
(** the line that closes a [COPY] block *)
Definition closes_copy (line : string) : bool := bool_decide (upper (strip line) = "\.").

Definition idle (st : state) : Prop := in_copy_block st = false ∧ in_insert_block st = false.

Lemma prefixes_comparable p q s :
  startswith p s = true → startswith q s = true →
  startswith p q = true ∨ startswith q p = true.
Proof.
  revert q s. induction p as [|a p IH]; intros q s Hp Hq.
  - left. apply startswith_nil.
  - destruct q as [|b q]; [right; apply startswith_nil|].
    destruct s as [|c s]; [by rewrite startswith_empty in Hp|].
    rewrite startswith_cons in Hp, Hq.
    apply andb_prop in Hp as [Ha Hp]. apply andb_prop in Hq as [Hb Hq].
    apply bool_decide_eq_true in Ha, Hb. subst.
    rewrite !startswith_cons. rewrite !bool_decide_eq_true_2 by done. simpl.
    by apply (IH q s).
Qed.

Lemma startswith_apart p q s :
  startswith p s = true → startswith p q = false → startswith q p = false →
  startswith q s = false.
Proof.
  intros Hp Hpq Hqp. destruct (startswith q s) eqn:Hq; [|done].
  destruct (prefixes_comparable p q s Hp Hq); congruence.
Qed.

Lemma is_insert_statement_opens line :
  opens_copy line = false → opens_insert line = false → is_insert_statement line = false.
Proof.
  unfold opens_copy, opens_insert, is_insert_statement. by intros -> ->.
Qed.

(** one step either keeps the kept lines or appends the current line, and
    it appends only outside the blocks and only a line that opens none *)
Lemma step_cases st line :
  schema_lines (step st line) = schema_lines st
  ∨ (schema_lines (step st line) = schema_lines st ++ [line]
     ∧ opens_copy line = false ∧ opens_insert line = false
     ∧ idle st ∧ idle (step st line)).
Proof.
  unfold step, idle. fold (opens_copy line). fold (opens_insert line).
  destruct (opens_copy line) eqn:Hc; [by left|].
  destruct (in_copy_block st) eqn:Hcb; [by left|].
  destruct (opens_insert line) eqn:Hi; [by left|].
  destruct (in_insert_block st) eqn:Hib; [by left|].
  rewrite is_insert_statement_opens by done. by right.
Qed.

Lemma fold_step_kept lines st :
  ∃ kept,
    schema_lines (fold_left step lines st) = schema_lines st ++ kept
    ∧ sublist kept lines
    ∧ Forall (λ line, opens_copy line = false ∧ opens_insert line = false) kept.
Proof.
  revert st. induction lines as [|line lines IH]; intros st; simpl.
  - exists []. by rewrite app_nil_r.
  - destruct (IH (step st line)) as (kept & Hkept & Hsub & Hall).
    destruct (step_cases st line) as [Hsame | (Happ & Hc & Hi & _)].
    + exists kept. rewrite Hkept, Hsame. split; [done|]. split; [by apply sublist_cons|done].
    + exists (line :: kept). rewrite Hkept, Happ, <- app_assoc. split; [done|].
      split; [by apply sublist_skip | by constructor].
Qed.

(** outside the blocks, lines that open no block are copied as they are *)
Lemma fold_step_plain lines st :
  idle st → Forall (λ line, opens_copy line = false ∧ opens_insert line = false) lines →
  fold_left step lines st
  = {| schema_lines := schema_lines st ++ lines; in_copy_block := false;
       in_insert_block := false |}.
Proof.
  revert st. induction lines as [|line lines IH]; intros st [Hcb Hib] Hall; simpl.
  - rewrite app_nil_r. destruct st; simpl in *; by subst.
  - apply Forall_cons in Hall as [[Hc Hi] Hall].
    assert (step st line
            = {| schema_lines := schema_lines st ++ [line]; in_copy_block := false;
                 in_insert_block := false |}) as ->.
    { unfold step. fold (opens_copy line). fold (opens_insert line).
      by rewrite Hc, Hcb, Hi, Hib, is_insert_statement_opens. }
    rewrite IH by done. simpl. by rewrite <- app_assoc.
Qed.

(** inside a [COPY] block nothing is kept until the closing line *)
Lemma fold_step_in_copy lines st :
  in_copy_block st = true → Forall (λ line, closes_copy line = false) lines →
  fold_left step lines st
  = {| schema_lines := schema_lines st; in_copy_block := true;
       in_insert_block := in_insert_block st |}.
Proof.
  revert st. induction lines as [|line lines IH]; intros st Hcb Hall; simpl.
  - destruct st; simpl in *; by subst.
  - apply Forall_cons in Hall as [Hline Hall].
    assert (step st line
            = {| schema_lines := schema_lines st; in_copy_block := true;
                 in_insert_block := in_insert_block st |}) as ->.
    { unfold step. fold (opens_copy line). destruct (opens_copy line); [done|].
      rewrite Hcb. unfold closes_copy in Hline. by rewrite Hline. }
    by rewrite IH.
Qed.

Lemma step_opens_copy st line :
  opens_copy line = true →
  step st line = {| schema_lines := schema_lines st; in_copy_block := true;
                    in_insert_block := in_insert_block st |}.
Proof. unfold step, opens_copy. by intros ->. Qed.

Lemma closes_not_opens line : closes_copy line = true → opens_copy line = false.
Proof.
  unfold closes_copy, opens_copy. intros Hline%bool_decide_eq_true. by rewrite Hline.
Qed.

(** the loop state reached at the end of [lines] *)
Definition after (lines : list string) : state := fold_left step lines init.

(** The extractor only deletes lines: what it writes is a subsequence of
    what it read. *)
Theorem extract_schema_sublist lines : sublist (extract_schema lines) lines.
Proof.
  unfold extract_schema. destruct (fold_step_kept lines init) as (kept & -> & Hsub & _).
  done.
Qed.

(** No kept line opens a data block, and none is an insert statement in
    the sense of [is_insert_statement]. *)
Theorem extract_schema_keeps_no_data lines :
  Forall (λ line, opens_copy line = false ∧ opens_insert line = false
                  ∧ is_insert_statement line = false) (extract_schema lines).
Proof.
  unfold extract_schema. destruct (fold_step_kept lines init) as (kept & -> & _ & Hall).
  simpl. eapply Forall_impl; [exact Hall|]. intros line [Hc Hi].
  by rewrite is_insert_statement_opens.
Qed.

(** A dump without [COPY] and [INSERT INTO] lines is returned unchanged. *)
Theorem extract_schema_plain lines :
  Forall (λ line, opens_copy line = false ∧ opens_insert line = false) lines →
  extract_schema lines = lines.
Proof.
  intros Hall. unfold extract_schema. by rewrite fold_step_plain.
Qed.

Lemma extract_schema_plain_witness :
  Forall (λ line, opens_copy line = false ∧ opens_insert line = false)
    ["CREATE TABLE t ("; "  copy_count integer"; ");"]
  ∧ extract_schema ["CREATE TABLE t ("; "  copy_count integer"; ");"]
    = ["CREATE TABLE t ("; "  copy_count integer"; ");"].
Proof.
  assert (Forall (λ line, opens_copy line = false ∧ opens_insert line = false)
            ["CREATE TABLE t ("; "  copy_count integer"; ");"]) as Hall.
  { repeat constructor. }
  split; [exact Hall|]. exact (extract_schema_plain _ Hall).
Defined.

(** Extracting twice is extracting once. *)
Theorem extract_schema_idempotent lines :
  extract_schema (extract_schema lines) = extract_schema lines.
Proof.
  unfold extract_schema at 1. rewrite fold_step_plain; [done|done|].
  destruct (fold_step_kept lines init) as (kept & Hkept & _ & Hall).
  unfold extract_schema. by rewrite Hkept.
Qed.

(** A [COPY] line whose block is never closed swallows the rest of the
    dump. *)
Theorem copy_without_terminator pre copy_line rest :
  opens_copy copy_line = true → Forall (λ line, closes_copy line = false) rest →
  extract_schema (pre ++ copy_line :: rest) = extract_schema pre.
Proof.
  intros Hc Hrest. unfold extract_schema. rewrite fold_left_app. simpl.
  by rewrite (step_opens_copy _ _ Hc), (fold_step_in_copy rest).
Qed.

Lemma copy_without_terminator_witness :
  opens_copy "COPY public.t (id) FROM stdin;" = true
  ∧ Forall (λ line, closes_copy line = false) ["1"; "2"; "CREATE TABLE u ("]
  ∧ extract_schema (["SET x = 1;"] ++ "COPY public.t (id) FROM stdin;"
                    :: ["1"; "2"; "CREATE TABLE u ("])
    = extract_schema ["SET x = 1;"].
Proof.
  assert (opens_copy "COPY public.t (id) FROM stdin;" = true) as Hc by reflexivity.
  assert (Forall (λ line, closes_copy line = false) ["1"; "2"; "CREATE TABLE u ("]) as Hrest.
  { repeat constructor. }
  split; [exact Hc|]. split; [exact Hrest|].
  exact (copy_without_terminator ["SET x = 1;"] _ _ Hc Hrest).
Defined.

(** A closed [COPY] block that starts outside any [COPY] block is
    invisible: the dump is extracted as if the block were not there. *)
Theorem copy_block_transparent pre copy_line data terminator post :
  in_copy_block (after pre) = false →
  opens_copy copy_line = true → Forall (λ line, closes_copy line = false) data →
  closes_copy terminator = true →
  extract_schema (pre ++ copy_line :: data ++ terminator :: post)
  = extract_schema (pre ++ post).
Proof.
  intros Hpre Hc Hdata Hterm. unfold extract_schema, after in *.
  rewrite !fold_left_app. simpl. rewrite fold_left_app. simpl.
  rewrite (step_opens_copy _ _ Hc), (fold_step_in_copy data) by done. simpl.
  set (st := fold_left step pre init) in *.
  assert (step {| schema_lines := schema_lines st; in_copy_block := true;
                  in_insert_block := in_insert_block st |} terminator = st) as ->; [|done].
  unfold step. fold (opens_copy terminator). rewrite (closes_not_opens _ Hterm). simpl.
  unfold closes_copy in Hterm. rewrite Hterm. simpl.
  destruct st; simpl in *; by subst.
Qed.

Lemma copy_block_transparent_witness :
  in_copy_block (after ["SET x = 1;"]) = false
  ∧ opens_copy "COPY public.t (id) FROM stdin;" = true
  ∧ Forall (λ line, closes_copy line = false) ["1"; "2"]
  ∧ closes_copy "\." = true
  ∧ extract_schema (["SET x = 1;"] ++ "COPY public.t (id) FROM stdin;"
                    :: ["1"; "2"] ++ "\." :: ["CREATE TABLE u ("])
    = extract_schema (["SET x = 1;"] ++ ["CREATE TABLE u ("]).
Proof.
  assert (in_copy_block (after ["SET x = 1;"]) = false) as Hpre by reflexivity.
  assert (opens_copy "COPY public.t (id) FROM stdin;" = true) as Hc by reflexivity.
  assert (Forall (λ line, closes_copy line = false) ["1"; "2"]) as Hdata.
  { repeat constructor. }
  assert (closes_copy "\." = true) as Hterm by reflexivity.
  split; [exact Hpre|]. split; [exact Hc|]. split; [exact Hdata|]. split; [exact Hterm|].
  exact (copy_block_transparent ["SET x = 1;"] _ _ _ ["CREATE TABLE u ("] Hpre Hc Hdata Hterm).
Defined.

(** The two classifiers never accept the same line. *)
Theorem insert_statement_is_no_schema_statement line :
  is_insert_statement line = true → Classify.is_schema_statement line = false.
Proof.
  unfold is_insert_statement, Classify.is_schema_statement.
  set (ls := upper (strip line)).
  intros Hdata.
  assert (∃ p, (p = "INSERT INTO" ∨ p = "COPY ") ∧ startswith p ls = true) as (p & Hp & Hls).
  { destruct (startswith "INSERT INTO" ls) eqn:Hi; [by exists "INSERT INTO"; auto|].
    destruct (startswith "COPY " ls) eqn:Hc; [by exists "COPY "; auto | done]. }
  assert (∀ q, startswith p q = false → startswith q p = false → startswith q ls = false)
    as Hapart.
  { intros q. by apply startswith_apart. }
  assert (nonempty ls = true) as ->.
  { destruct ls; [|done]. destruct Hp as [-> | ->]; by rewrite startswith_empty in Hls. }
  assert (existsb (λ keyword, startswith keyword ls) Classify.schema_keywords = false) as ->.
  { apply not_true_is_false. intros (kw & Hkw & Hsw)%existsb_exists.
    rewrite Hapart in Hsw; [done|..].
    - clear -Hp Hkw. unfold Classify.schema_keywords in Hkw.
      destruct Hp as [-> | ->];
        repeat (destruct Hkw as [<- | Hkw]; [reflexivity|]); destruct Hkw.
    - clear -Hp Hkw. unfold Classify.schema_keywords in Hkw.
      destruct Hp as [-> | ->];
        repeat (destruct Hkw as [<- | Hkw]; [reflexivity|]); destruct Hkw. }
  rewrite !Hapart; [done|..]; destruct Hp as [-> | ->]; reflexivity.
Qed.

Lemma insert_statement_is_no_schema_statement_witness :
  is_insert_statement "  insert into t values (1);" = true
  ∧ Classify.is_schema_statement "  insert into t values (1);" = false.
Proof.
  assert (is_insert_statement "  insert into t values (1);" = true) as H by reflexivity.
  split; [exact H|]. exact (insert_statement_is_no_schema_statement _ H).
Defined.

End Extraction.

(** ** 02_compress_schema.py : the post-pass with [list.remove] raising *)
Module Raising.
Import Compress.

(** [l.remove(x)] : [None] is Python's [ValueError] for an absent [x] *)
Fixpoint remove (x : constraint) (l : list constraint) : option (list constraint) :=
  match l with
  | [] => None
  | y :: l' => if bool_decide (y = x) then Some l' else cons y <$> remove x l'
  end.

Fixpoint claim_auto_pk (seqs : list (string * option (string * string)))
    (table_name pk_col : string) (pk_constraint : constraint)
    (t : table_info) : option table_info :=
  match seqs with
  | [] => Some t
  | (_, owned_by) :: seqs' =>
      if owns table_name pk_col owned_by then
        cs ← remove pk_constraint (constraints t);
        Some {| columns := Dict.alter mark_auto_pk pk_col (columns t);
                constraints := cs;
                indexes := indexes t |}
      else claim_auto_pk seqs' table_name pk_col pk_constraint t
  end.

Definition auto_pk_table (seqs : list (string * option (string * string)))
    (table_name : string) (t : table_info) : option table_info :=
  let pk_constraints := filter (λ c, is_primary_key c) (constraints t) in
  fold_left
    (λ ot pk_constraint,
       t ← ot;
       match pk_constraint with
       | PRIMARY_KEY [pk_col] => claim_auto_pk seqs table_name pk_col pk_constraint t
       | _ => Some t
       end)
    pk_constraints (Some t).

(** [for table_name, table_info in self.tables.items()] *)
Fixpoint all_tables (seqs : list (string * option (string * string)))
    (ts : list (string * table_info)) : option (list (string * table_info)) :=
  match ts with
  | [] => Some []
  | (table_name, t) :: ts' =>
      t' ← auto_pk_table seqs table_name t;
      ts'' ← all_tables seqs ts';
      Some ((table_name, t') :: ts'')
  end.

Definition _identify_auto_pk_columns (s : SchemaCompressor) : option SchemaCompressor :=
  ts ← all_tables (sequences s) (tables s);
  Some (with_tables (λ _, ts) s).

End Raising.

(** ** What the statement loop keeps *)
Section Frame.
Import Str Re Compress.

(** a relation between the state before and after, kept by every
    primitive update that the parser performs *)
Variable R : SchemaCompressor → SchemaCompressor → Prop.
Hypothesis R_refl : ∀ s, R s s.
Hypothesis R_trans : ∀ s1 s2 s3, R s1 s2 → R s2 s3 → R s1 s3.
Hypothesis R_alter : ∀ f k s, R s (with_tables (Dict.alter f k) s).
Hypothesis R_new_table :
  ∀ k s, Dict.mem k (tables s) = false → R s (with_tables (Dict.set k empty_table) s).
Hypothesis R_sequences : ∀ f s, R s (with_sequences f s).
Hypothesis R_current : ∀ t s, R s (with_current t s).
Hypothesis R_print : ∀ d s, R s (debug_print d s).
Hypothesis R_owner : ∀ o s, unset (default_owner s) = true → R s (with_owner o s).
Hypothesis R_post : ∀ s, R s (_identify_auto_pk_columns s).

Lemma R_column line table_name s : R s (_parse_column_definition line table_name s).
Proof. unfold _parse_column_definition. repeat case_match; auto. Qed.

Lemma R_body rest i table_name s : R s (table_body rest i table_name s).2.
Proof.
  revert i s. induction rest as [|raw rest IH]; intros i s; simpl; [done|].
  destruct (_ || _); simpl; [done|].
  eapply R_trans; [|apply IH]. case_match; [apply R_column | done].
Qed.

Lemma R_create_table lines i raw s : R s (_parse_create_table lines i raw s).2.
Proof.
  unfold _parse_create_table. destruct (search _ _) as [m|]; simpl; [|done].
  eapply R_trans; [|apply R_body].
  eapply R_trans; [apply (R_current (group_str 2 m))|].
  destruct (Dict.mem _ _) eqn:Hmem; [done|]. by apply R_new_table.
Qed.

Lemma R_alter_constraint line s : R s (_parse_alter_table_constraint line s).
Proof.
  unfold _parse_alter_table_constraint.
  repeat case_match; auto.
  all: eapply R_trans; [|apply R_print]; auto.
Qed.

Lemma R_create_index line s : R s (_parse_create_index line s).
Proof.
  unfold _parse_create_index.
  destruct (search re_create_index line) as [m|]; [|auto].
  eapply R_trans; [apply R_print|]. eapply R_trans; [apply R_print|].
  repeat case_match; auto.
  all: eapply R_trans; [apply R_print|]; auto.
Qed.

Lemma R_note_owner line s : R s (note_owner line s).
Proof. unfold note_owner. repeat case_match; auto. Qed.

Lemma R_statement lines i raw s : R s (statement lines i raw s).2.
Proof.
  unfold statement. eapply R_trans; [apply (R_note_owner (strip raw))|].
  unfold _parse_create_sequence, _parse_sequence_owned_by.
  repeat case_match; simpl; auto using R_create_table, R_alter_constraint, R_create_index.
Qed.

Lemma R_loop fuel lines i s s' : parse_loop fuel lines i s = Some s' → R s s'.
Proof.
  revert i s. induction fuel as [|fuel IH]; intros i s; simpl; [done|].
  destruct (lines !! i) as [raw|]; [|by intros [= <-]].
  pose proof (R_statement lines i raw s) as Hstep.
  destruct (statement lines i raw s) as [i' s'']. simpl in Hstep.
  intros Hloop. eapply R_trans; [exact Hstep|]. by eapply IH.
Qed.

Lemma R_parse_schema lines s s' : parse_schema lines s = Some s' → R s s'.
Proof.
  unfold parse_schema. destruct (parse_loop _ lines 0 s) as [s''|] eqn:Hloop; [|done].
  intros [= <-]. eapply R_trans; [by eapply R_loop | apply R_post].
Qed.

End Frame.

Section Kept.
Import Str Re Compress.

Lemma set_keys {V} k (v : V) (d : list (string * V)) :
  Dict.keys (Dict.set k v d) = if Dict.mem k d then Dict.keys d else Dict.keys d ++ [k].
Proof.
  unfold Dict.mem, Dict.keys. induction d as [|[k' v'] d IH]; [done|].
  cbn [Dict.set fmap list_fmap fst].
  destruct (decide (k' = k)) as [->|Hne].
  - rewrite (bool_decide_eq_true_2 (k = k)) by done.
    by rewrite bool_decide_eq_true_2 by apply list_elem_of_here.
  - rewrite (bool_decide_eq_false_2 (k' = k)) by done.
    cbn [fmap list_fmap fst]. rewrite IH.
    destruct (decide (k ∈ d.*1)) as [Hin|Hnin].
    + rewrite !bool_decide_eq_true_2; [done|by apply list_elem_of_further|done].
    + rewrite !bool_decide_eq_false_2; [done| |done].
      intros [?|?]%elem_of_cons; [congruence|done].
Qed.

Lemma post_keys s :
  Dict.keys (tables (_identify_auto_pk_columns s)) = Dict.keys (tables s).
Proof.
  unfold _identify_auto_pk_columns, Dict.keys. simpl. generalize (sequences s) as seqs.
  intros seqs. induction (tables s) as [|[name t] ts IH]; simpl; [done|]. f_equal. exact IH.
Qed.

Lemma debug_print_owner d s : default_owner (debug_print d s) = default_owner s.
Proof. unfold debug_print. by destruct (debug s). Qed.

Lemma debug_print_schema d s : default_schema (debug_print d s) = default_schema s.
Proof. unfold debug_print. by destruct (debug s). Qed.

Lemma debug_print_debug d s : debug (debug_print d s) = debug s.
Proof. unfold debug_print. by destruct (debug s) eqn:Hd. Qed.

(** The first owner found stays: once [default_owner] holds a non-empty
    name, no later statement changes it. *)
Theorem parse_schema_first_owner_wins lines s s' owner :
  parse_schema lines s = Some s' →
  default_owner s = Some owner → owner ≠ "" →
  default_owner s' = Some owner.
Proof.
  intros Hparse. revert owner.
  eapply (R_parse_schema
            (λ s s', ∀ o, default_owner s = Some o → o ≠ "" → default_owner s' = Some o));
    [..|exact Hparse]; clear; try done.
  - intros s1 s2 s3 H12 H23 o Ho Hne. eauto.
  - intros d s o. by rewrite debug_print_owner.
  - intros o s Hunset o' Ho' Hne. rewrite Ho' in Hunset. simpl in Hunset.
    apply negb_true_iff in Hunset. apply nonempty_true in Hne. congruence.
Qed.

Lemma parse_schema_first_owner_wins_witness :
  parse_schema ["ALTER TABLE public.t OWNER TO bob;"]
    (with_owner (Some "alice") (new false))
  = Some (with_owner (Some "alice") (new false))
  ∧ default_owner (with_owner (Some "alice") (new false)) = Some "alice"
  ∧ "alice" ≠ ""
  ∧ default_owner (with_owner (Some "alice") (new false)) = Some "alice".
Proof.
  assert (parse_schema ["ALTER TABLE public.t OWNER TO bob;"]
            (with_owner (Some "alice") (new false))
          = Some (with_owner (Some "alice") (new false))) as Hparse by reflexivity.
  assert ("alice" ≠ "") as Hne by discriminate.
  split; [exact Hparse|]. split; [reflexivity|]. split; [exact Hne|].
  exact (parse_schema_first_owner_wins _ _ _ "alice" Hparse eq_refl Hne).
Defined.

(** Parsing never removes or reorders tables: the tables present before
    come first, in their order, and new tables follow in the order of
    their first [CREATE TABLE]. *)
Theorem parse_schema_keeps_table_order lines s s' :
  parse_schema lines s = Some s' →
  Dict.keys (tables s) `prefix_of` Dict.keys (tables s').
Proof.
  apply (R_parse_schema (λ s s', Dict.keys (tables s) `prefix_of` Dict.keys (tables s')));
    clear; try done.
  - intros s1 s2 s3 H12 H23. by etrans.
  - intros f k s. simpl. by rewrite alter_keys.
  - intros k s Hmem. simpl. rewrite set_keys, Hmem. by apply prefix_app_r.
  - intros d s. unfold debug_print. by destruct (debug s).
  - intros s. by rewrite post_keys.
Qed.

Lemma parse_schema_keeps_table_order_witness :
  parse_schema ["CREATE TABLE b ("; ");"; "CREATE TABLE a ("; ");"; "CREATE TABLE b ("; ");"]
    (new false)
  = Some (with_current "b"
            (with_tables (λ _, [("b", empty_table); ("a", empty_table)]) (new false)))
  ∧ Dict.keys (tables (new false))
    `prefix_of` Dict.keys (tables (with_current "b"
            (with_tables (λ _, [("b", empty_table); ("a", empty_table)]) (new false)))).
Proof.
  assert (parse_schema
            ["CREATE TABLE b ("; ");"; "CREATE TABLE a ("; ");"; "CREATE TABLE b ("; ");"]
            (new false)
          = Some (with_current "b"
                    (with_tables (λ _, [("b", empty_table); ("a", empty_table)]) (new false))))
    as Hparse by reflexivity.
  split; [exact Hparse|]. exact (parse_schema_keeps_table_order _ _ _ Hparse).
Defined.

(** With [debug] off, as [main] runs it, the parser prints nothing; and
    neither the flag nor [default_schema] is ever changed, so the header
    always names the schema the compressor started with. *)
Theorem parse_schema_silent lines s s' :
  parse_schema lines s = Some s' →
  debug s' = debug s ∧ default_schema s' = default_schema s
  ∧ (debug s = false → printed s' = printed s).
Proof.
  apply (R_parse_schema
           (λ s s', debug s' = debug s ∧ default_schema s' = default_schema s
                    ∧ (debug s = false → printed s' = printed s)));
    clear; try done.
  - intros s1 s2 s3 (Hd12 & Hs12 & Hp12) (Hd23 & Hs23 & Hp23).
    split; [congruence|]. split; [congruence|].
    intros Hoff. rewrite Hp23, Hp12; congruence.
  - intros d s. rewrite debug_print_debug, debug_print_schema. split; [done|]. split; [done|].
    intros Hoff. unfold debug_print. by rewrite Hoff.
Qed.

Lemma parse_schema_silent_witness :
  parse_schema ["CREATE INDEX i ON ghost USING btree (a);"] (new false) = Some (new false)
  ∧ debug (new false) = debug (new false) ∧ default_schema (new false) = default_schema (new false)
  ∧ (debug (new false) = false → printed (new false) = printed (new false)).
Proof.
  assert (parse_schema ["CREATE INDEX i ON ghost USING btree (a);"] (new false)
          = Some (new false)) as Hparse by reflexivity.
  split; [exact Hparse|]. exact (parse_schema_silent _ _ _ Hparse).
Defined.

End Kept.

(** ** The post-pass: no [ValueError], and nothing left to do afterwards *)
Section PostPass.
Import Str Re Compress.

Lemma remove_middle x pre l :
  x ∉ pre → Raising.remove x (pre ++ x :: l) = Some (pre ++ l).
Proof.
  induction pre as [|y pre IH]; simpl; intros Hx.
  - by rewrite bool_decide_eq_true_2.
  - apply not_elem_of_cons in Hx as [Hxy Hx].
    rewrite bool_decide_eq_false_2 by done. by rewrite IH.
Qed.

Lemma raising_claim_owned seqs table_name pk_col pk t :
  Raising.claim_auto_pk seqs table_name pk_col pk t
  = if owned seqs table_name pk_col
    then cs ← Raising.remove pk (constraints t);
         Some {| columns := Dict.alter mark_auto_pk pk_col (columns t);
                 constraints := cs;
                 indexes := indexes t |}
    else Some t.
Proof.
  unfold owned. induction seqs as [|[name o] seqs IH]; simpl; [done|].
  destruct (owns table_name pk_col o); simpl; [done | exact IH].
Qed.

Section Table.
Variable seqs : list (string * option (string * string)).
Variable table_name : string.

Let claim (t : table_info) (pk_constraint : constraint) : table_info :=
  match pk_constraint with
  | PRIMARY_KEY [pk_col] => claim_auto_pk seqs table_name pk_col pk_constraint t
  | _ => t
  end.

Let claim_raising (ot : option table_info) (pk_constraint : constraint) : option table_info :=
  t ← ot;
  match pk_constraint with
  | PRIMARY_KEY [pk_col] => Raising.claim_auto_pk seqs table_name pk_col pk_constraint t
  | _ => Some t
  end.

(** every constraint that the loop removes is still in the list when its
    turn comes, also when the same constraint is stored more than once *)
Lemma raising_fold l pre cols ix :
  Forall (λ c, implied_by_sequence seqs table_name c = false) pre →
  fold_left claim_raising (filter (λ c, is_primary_key c) l)
    (Some {| columns := cols; constraints := pre ++ l; indexes := ix |})
  = Some (fold_left claim (filter (λ c, is_primary_key c) l)
            {| columns := cols; constraints := pre ++ l; indexes := ix |}).
Proof.
  revert pre cols. induction l as [|x l IH]; intros pre cols Hpre; [done|].
  destruct (implied_by_sequence seqs table_name x) eqn:Hx.
  - rewrite (filter_cons_True (λ c, is_primary_key c))
      by (by destruct x as [[|? [|? ?]]| |]).
    destruct x as [[|pk_col [|? ?]]| |]; try done. simpl in Hx.
    cbn [fold_left]. unfold claim_raising at 2, claim at 2. cbn [mbind option_bind].
    rewrite raising_claim_owned, claim_auto_pk_owned, Hx. cbn [constraints columns indexes].
    assert (PRIMARY_KEY [pk_col] ∉ pre) as Hout.
    { intros Hin. eapply Forall_forall in Hpre; [|exact Hin]. simpl in Hpre. congruence. }
    rewrite remove_middle, remove_first_middle by done. cbn [mbind option_bind].
    by apply IH.
  - assert (∀ t, claim t x = t) as Hclaim.
    { intros t. destruct x as [[|pk_col [|? ?]]| |]; try done. simpl in *.
      by rewrite claim_auto_pk_owned, Hx. }
    assert (∀ t, claim_raising (Some t) x = Some t) as Hraising.
    { intros t. destruct x as [[|pk_col [|? ?]]| |]; try done. simpl in *.
      by rewrite raising_claim_owned, Hx. }
    replace (pre ++ x :: l) with ((pre ++ [x]) ++ l) by (by rewrite <- app_assoc).
    assert (Forall (λ c, implied_by_sequence seqs table_name c = false) (pre ++ [x]))
      as Hpre' by (apply Forall_app; auto).
    rewrite filter_cons. case_decide; cbn [fold_left]; rewrite ?Hclaim, ?Hraising; by apply IH.
Qed.

Lemma raising_auto_pk_table t :
  Raising.auto_pk_table seqs table_name t = Some (auto_pk_table seqs table_name t).
Proof.
  unfold Raising.auto_pk_table, auto_pk_table. destruct t as [cols cs ix]. simpl.
  apply (raising_fold cs [] cols ix). constructor.
Qed.

Lemma filter_implied_twice (cs : list constraint) :
  filter (λ c, implied_by_sequence seqs table_name c)
    (filter (λ c, ¬ implied_by_sequence seqs table_name c) cs) = []
  ∧ filter (λ c, ¬ implied_by_sequence seqs table_name c)
      (filter (λ c, ¬ implied_by_sequence seqs table_name c) cs)
    = filter (λ c, ¬ implied_by_sequence seqs table_name c) cs.
Proof.
  induction cs as [|c cs [IH1 IH2]]; [done|].
  destruct (implied_by_sequence seqs table_name c) eqn:Hc.
  - rewrite (filter_cons_False (λ c, ¬ implied_by_sequence seqs table_name c))
      by (rewrite Hc; intros H; by apply H).
    done.
  - rewrite (filter_cons_True (λ c, ¬ implied_by_sequence seqs table_name c))
      by (rewrite Hc; intros []).
    rewrite (filter_cons_False (λ c, implied_by_sequence seqs table_name c))
      by (rewrite Hc; intros []).
    rewrite (filter_cons_True (λ c, ¬ implied_by_sequence seqs table_name c))
      by (rewrite Hc; intros []).
    by rewrite IH1, IH2.
Qed.

Lemma auto_pk_table_idemp t :
  auto_pk_table seqs table_name (auto_pk_table seqs table_name t)
  = auto_pk_table seqs table_name t.
Proof.
  rewrite (auto_pk_table_closed seqs table_name (auto_pk_table seqs table_name t)).
  rewrite (auto_pk_table_closed seqs table_name t). cbn [constraints columns indexes].
  destruct (filter_implied_twice (constraints t)) as [-> ->]. done.
Qed.

End Table.

Lemma raising_all_tables seqs ts :
  Raising.all_tables seqs ts
  = Some (map (λ '(table_name, t), (table_name, auto_pk_table seqs table_name t)) ts).
Proof.
  induction ts as [|[name t] ts IH]; [done|].
  cbn [Raising.all_tables map]. rewrite raising_auto_pk_table, IH. done.
Qed.

(** The post-pass never raises: every [remove] finds its constraint, so
    the pass with Python's [ValueError] agrees with the pass without it. *)
Theorem identify_auto_pk_columns_never_raises s :
  Raising._identify_auto_pk_columns s = Some (_identify_auto_pk_columns s).
Proof.
  unfold Raising._identify_auto_pk_columns. by rewrite raising_all_tables.
Qed.

(** Running the post-pass a second time changes nothing. *)
Theorem identify_auto_pk_columns_idempotent s :
  _identify_auto_pk_columns (_identify_auto_pk_columns s) = _identify_auto_pk_columns s.
Proof.
  unfold _identify_auto_pk_columns, with_tables. simpl. f_equal.
  generalize (sequences s) as seqs. intros seqs.
  induction (tables s) as [|[name t] ts IH]; [done|].
  cbn [map]. by rewrite auto_pk_table_idemp, IH.
Qed.

End PostPass.

(** ** Names are unique *)
Section UniqueNames.
Import Str Re Compress.

Lemma set_NoDup {V} k (v : V) (d : list (string * V)) :
  NoDup (Dict.keys d) → NoDup (Dict.keys (Dict.set k v d)).
Proof.
  intros Hd. rewrite set_keys. unfold Dict.mem. case_bool_decide as Hk; [done|].
  apply NoDup_app. split; [done|]. split; [|apply NoDup_singleton].
  intros x Hx [->|[]%elem_of_nil]%elem_of_cons. done.
Qed.

(** Table names of a parsed model are distinct, and so are the column
    names of each table: a table or a column declared twice is stored
    once. *)
Theorem parse_schema_unique_names lines dbg :
  ∃ s, parse_schema lines (new dbg) = Some s
       ∧ NoDup (Dict.keys (tables s))
       ∧ Forall (λ p, NoDup (Dict.keys (columns p.2))) (tables s).
Proof.
  destruct (parse_schema_total lines (new dbg)) as [s Hs]. exists s.
  split; [done|]. split.
  - assert (NoDup (Dict.keys (tables (new dbg)))) as Hnew by constructor.
    revert Hnew.
    eapply (R_parse_schema
              (λ s s', NoDup (Dict.keys (tables s)) → NoDup (Dict.keys (tables s'))));
      [..|exact Hs]; clear; try done.
    + intros s1 s2 s3 H12 H23 H1. auto.
    + intros f k s. simpl. by rewrite alter_keys.
    + intros k s _. simpl. apply set_NoDup.
    + intros d s. unfold debug_print. by destruct (debug s).
    + intros s. by rewrite post_keys.
  - unfold parse_schema in Hs.
    destruct (parse_loop _ lines 0 (new dbg)) as [s'|] eqn:Hloop; [|done].
    injection Hs as <-.
    assert (every_table (λ t, NoDup (Dict.keys (columns t))) s') as Hs'.
    { eapply (every_table_loop (λ t, NoDup (Dict.keys (columns t))) (λ _, True));
        [..|exact Hloop]; try done.
      - constructor.
      - intros name c t. simpl. apply set_NoDup.
      - constructor. }
    unfold every_table, _identify_auto_pk_columns in *. simpl.
    apply Forall_fmap. eapply Forall_impl; [exact Hs'|].
    intros [name t] Ht. simpl in *. rewrite auto_pk_table_closed. simpl.
    by rewrite mark_columns_keys.
Qed.

End UniqueNames.

(** ** Names in [CREATE TABLE] *)
Section TableNames.
Import Str Re Compress.

(** the text after a table name: nothing, or a character that neither
    continues the name nor qualifies it *)
Definition ends_name (rest : string) : Prop :=
  match rest with
  | "" => True
  | String c _ => is_word c = false ∧ c ≠ "."%char
  end.

Lemma rstrip_by_nil_inv p s : rstrip_by p s = "" → all_chars p s = true.
Proof.
  induction s as [|c s IH]; [done|]. simpl.
  destruct (rstrip_by p s) eqn:Hs; [|done].
  destruct (p c); [|done]. intros _. by rewrite IH.
Qed.

Lemma rstrip_by_app_tidy p a b : tidy p a → rstrip_by p (a +:+ b) = a +:+ rstrip_by p b.
Proof.
  intros [Ha Hne]. destruct (rstrip_by p b) eqn:Hb.
  - rewrite rstrip_by_app_class by (by apply rstrip_by_nil_inv).
    by rewrite Ha, append_nil_r.
  - rewrite rstrip_by_app; by rewrite Hb.
Qed.

Lemma rstrip_by_head p c s :
  rstrip_by p (String c s) = "" ∨ ∃ r, rstrip_by p (String c s) = String c r.
Proof. simpl. destruct (rstrip_by p s); [destruct (p c)|]; eauto. Qed.

Lemma ends_name_rstrip rest : ends_name rest → ends_name (rstrip_by is_space rest).
Proof.
  destruct rest as [|c rest]; [done|]. intros Hc.
  destruct (rstrip_by_head is_space c rest) as [-> | [r ->]]; done.
Qed.

Lemma ends_name_stops rest : ends_name rest → stops is_word rest.
Proof. destruct rest; [done|]. by intros [? _]. Qed.

Lemma rmatch_plus_token {A} p tok rest g (k : string → groups → option A) r :
  token p tok = true → stops p rest → k rest g = Some r →
  rmatch (Plus p) (tok +:+ rest) g k = Some r.
Proof.
  intros [Hne Htok]%andb_prop Hrest Hk.
  destruct tok as [|c tok]; [done|].
  simpl in Htok. apply andb_prop in Htok as [Hc Htok].
  cbn [rmatch]. rewrite append_cons. rewrite Hc.
  by apply plus_rest_greedy.
Qed.

(** a name that is followed by no dot is not read as a qualifier *)
Lemma plus_rest_no_dot {A} tok rest (k : string → option A) :
  all_chars is_word tok = true → ends_name rest →
  (∀ s, startswith "." s = false → k s = None) →
  plus_rest is_word (tok +:+ rest) k = None.
Proof.
  intros Htok Hrest Hk. induction tok as [|c tok IH].
  - rewrite append_nil_l. destruct rest as [|d rest]; simpl; [by apply Hk|].
    destruct Hrest as [-> Hd]. apply Hk. rewrite startswith_cons.
    by rewrite bool_decide_eq_false_2 by congruence.
  - simpl in Htok. apply andb_prop in Htok as [Hc Htok].
    rewrite append_cons. simpl. rewrite Hc, IH by done.
    apply Hk. rewrite startswith_cons.
    rewrite bool_decide_eq_false_2; [done|]. intros <-. done.
Qed.

Lemma rmatch_opt {A} r s g (k : string → groups → option A) :
  rmatch (Opt r) s g k = match rmatch r s g k with Some a => Some a | None => k s g end.
Proof. done. Qed.

Lemma rmatch_grp {A} n r s g (k : string → groups → option A) :
  rmatch (Grp n r) s g k
  = rmatch r s g (λ s' g', k s' (<[n := take (String.length s - String.length s') s]> g')).
Proof. done. Qed.

Lemma rmatch_plus_cons {A} p c s g (k : string → groups → option A) :
  rmatch (Plus p) (String c s) g k = if p c then plus_rest p s (λ s'', k s'' g) else None.
Proof. done. Qed.

Lemma ident_stops_dot more : stops is_word ("." +:+ more).
Proof. done. Qed.

(** [(\w+\.)?(\w+)] on a qualified and on a bare name *)
Lemma match_qualified_name (n1 n2 : nat) q w rest g :
  ident q = true → ident w = true → ends_name rest →
  ∃ g', rmatch (cat (qualified n1 n2)) (q +:+ "." +:+ w +:+ rest) g
          (λ s' g, Some (g, s')) = Some (<[n2 := w]> g', rest).
Proof.
  intros Hq Hw Hrest. unfold qualified, cat.
  rewrite rmatch_seq, rmatch_opt, rmatch_grp, rmatch_seq.
  erewrite rmatch_plus_token; [by eexists | done | apply ident_stops_dot |].
  rewrite rmatch_lit.
  eapply rmatch_group_token; [done | by apply ends_name_stops | done].
Qed.

Lemma match_bare_name (n1 n2 : nat) w rest g :
  ident w = true → ends_name rest →
  rmatch (cat (qualified n1 n2)) (w +:+ rest) g (λ s' g, Some (g, s'))
  = Some (<[n2 := w]> g, rest).
Proof.
  intros Hw Hrest. unfold qualified, cat.
  rewrite rmatch_seq, rmatch_opt, rmatch_grp, rmatch_seq.
  assert (rmatch (Plus is_word) (w +:+ rest) g
            (λ s' g', rmatch (Lit ".") s' g'
               (λ s'0 g'0, rmatch (Grp n2 (Plus is_word)) s'0
                  (<[n1 := take (String.length (w +:+ rest) - String.length s'0) (w +:+ rest)]>
                     g'0) (λ s'1 g0, Some (g0, s'1)))) = None) as ->.
  { pose proof Hw as [Hne Hchars]%andb_prop.
    destruct w as [|c w]; [done|].
    simpl in Hchars. apply andb_prop in Hchars as [Hc Hchars].
    rewrite append_cons, rmatch_plus_cons, Hc.
    apply plus_rest_no_dot; [done | done |].
    intros s Hs. unfold startswith in Hs. apply bool_decide_eq_false in Hs.
    cbn [rmatch]. destruct (strip_prefix "." s) eqn:Hdot; [|done]. destruct Hs. by eexists. }
  eapply rmatch_group_token; [done | by apply ends_name_stops | done].
Qed.

Lemma search_create_table_qualified q w rest :
  ident q = true → ident w = true → ends_name rest →
  ∃ m, search re_create_table ("CREATE TABLE " +:+ q +:+ "." +:+ w +:+ rest) = Some m
       ∧ group_str 2 m = w.
Proof.
  intros Hq Hw Hrest.
  destruct (match_qualified_name 1 2 q w rest ∅ Hq Hw Hrest) as [g' Hm].
  exists (<[2 := w]> g'). split; [|unfold group_str; by rewrite lookup_insert_eq].
  apply (search_here _ _ _ rest). unfold match_here, re_create_table.
  change (cat (Lit "CREATE TABLE " :: qualified 1 2))
    with (Seq (Lit "CREATE TABLE ") (cat (qualified 1 2))).
  by rewrite rmatch_seq, rmatch_lit.
Qed.

Lemma search_create_table_bare w rest :
  ident w = true → ends_name rest →
  ∃ m, search re_create_table ("CREATE TABLE " +:+ w +:+ rest) = Some m
       ∧ group_str 2 m = w.
Proof.
  intros Hw Hrest.
  exists (<[2 := w]> ∅). split; [|unfold group_str; by rewrite lookup_insert_eq].
  apply (search_here _ _ _ rest). unfold match_here, re_create_table.
  change (cat (Lit "CREATE TABLE " :: qualified 1 2))
    with (Seq (Lit "CREATE TABLE ") (cat (qualified 1 2))).
  rewrite rmatch_seq, rmatch_lit. by apply match_bare_name.
Qed.

(** the statement text as the parser sees it after [strip] *)
Lemma strip_create_table name rest :
  ident name = true →
  strip ("CREATE TABLE " +:+ name +:+ rest)
  = "CREATE TABLE " +:+ name +:+ rstrip_by is_space rest.
Proof.
  intros Hname. unfold strip, strip_by.
  rewrite lstrip_by_id by done.
  rewrite <- !append_assoc. rewrite rstrip_by_app_tidy; [done|].
  apply tidy_app. apply tidy_token; [by apply ident_nonempty|].
  eapply ident_chars; [|done]. intros c Hc.
  apply negb_true_iff. apply (is_word_not_space c) in Hc. by apply negb_true_iff in Hc.
Qed.

Lemma ident_app_dot q w : ident q = true → ident w = true →
  ∃ c r, q +:+ "." +:+ w = String c r ∧ is_space c = false
         ∧ tidy is_space (q +:+ "." +:+ w).
Proof.
  intros Hq Hw. destruct q as [|c q]; [done|]. exists c, (q +:+ "." +:+ w).
  split; [done|]. split.
  - apply andb_prop in Hq as [_ Hq]. simpl in Hq. apply andb_prop in Hq as [Hc _].
    apply is_word_not_space in Hc. by apply negb_true_iff in Hc.
  - rewrite <- append_assoc. apply tidy_app. apply tidy_token; [by apply ident_nonempty|].
    eapply ident_chars; [|done]. intros d Hd.
    apply negb_true_iff. apply (is_word_not_space d) in Hd. by apply negb_true_iff in Hd.
Qed.

Lemma strip_create_table_qualified q w rest :
  ident q = true → ident w = true →
  strip ("CREATE TABLE " +:+ q +:+ "." +:+ w +:+ rest)
  = "CREATE TABLE " +:+ q +:+ "." +:+ w +:+ rstrip_by is_space rest.
Proof.
  intros Hq Hw. unfold strip, strip_by.
  rewrite lstrip_by_id by done.
  destruct (ident_app_dot q w Hq Hw) as (c & r & Heq & Hc & Htidy).
  replace ("CREATE TABLE " +:+ q +:+ "." +:+ w +:+ rest)
    with (("CREATE TABLE " +:+ (q +:+ "." +:+ w)) +:+ rest)
    by (by rewrite !append_assoc).
  rewrite rstrip_by_app_tidy by (by apply tidy_app).
  by rewrite !append_assoc.
Qed.

Lemma current_table_column line table_name s :
  current_table (_parse_column_definition line table_name s) = current_table s.
Proof. unfold _parse_column_definition. by repeat case_match. Qed.

Lemma current_table_body rest i table_name s :
  current_table (table_body rest i table_name s).2 = current_table s.
Proof.
  revert i s. induction rest as [|raw rest IH]; intros i s; simpl; [done|].
  destruct (_ || _); simpl; [done|].
  rewrite IH. case_match; [apply current_table_column | done].
Qed.

Lemma keys_body rest i table_name s :
  Dict.keys (tables (table_body rest i table_name s).2) = Dict.keys (tables s).
Proof.
  revert i s. induction rest as [|raw rest IH]; intros i s; simpl; [done|].
  destruct (_ || _); simpl; [done|].
  rewrite IH. case_match; [|done].
  unfold _parse_column_definition. repeat case_match; try done.
  all: simpl; by rewrite alter_keys.
Qed.

(** the statement at a [CREATE TABLE] line whose name is found *)
Lemma statement_create_table lines i raw s m :
  startswith "CREATE TABLE" (strip raw) = true →
  search re_create_table (strip raw) = Some m →
  statement lines i raw s
  = table_body (drop (S i) lines) (S i) (group_str 2 m)
      (if Dict.mem (group_str 2 m) (tables s) then with_current (group_str 2 m) s
       else with_tables (Dict.set (group_str 2 m) empty_table)
              (with_current (group_str 2 m) s)).
Proof.
  intros Hstart Hsearch. unfold statement.
  assert (note_owner (strip raw) s = s) as ->.
  { unfold note_owner.
    by rewrite (startswith_apart "CREATE TABLE" "ALTER TABLE" (strip raw) Hstart). }
  rewrite Hstart. unfold _parse_create_table. rewrite Hsearch. done.
Qed.

(** A schema qualifier in [CREATE TABLE] is dropped: the qualified and the
    bare statement do the same, the table is keyed by its bare name. *)
Theorem create_table_qualifier_is_dropped lines i q w rest s :
  ident q = true → ident w = true → ends_name rest →
  statement lines i ("CREATE TABLE " +:+ q +:+ "." +:+ w +:+ rest) s
  = statement lines i ("CREATE TABLE " +:+ w +:+ rest) s
  ∧ current_table (statement lines i ("CREATE TABLE " +:+ w +:+ rest) s).2 = Some w
  ∧ w ∈ Dict.keys (tables (statement lines i ("CREATE TABLE " +:+ w +:+ rest) s).2).
Proof.
  intros Hq Hw Hrest.
  pose proof (ends_name_rstrip rest Hrest) as Hrest'.
  destruct (search_create_table_qualified q w _ Hq Hw Hrest') as (m1 & Hm1 & Hg1).
  destruct (search_create_table_bare w _ Hw Hrest') as (m2 & Hm2 & Hg2).
  rewrite <- strip_create_table_qualified in Hm1 by done.
  rewrite <- strip_create_table in Hm2 by done.
  rewrite (statement_create_table lines i _ s m1); [|by rewrite strip_create_table_qualified|done].
  rewrite (statement_create_table lines i _ s m2); [|by rewrite strip_create_table|done].
  rewrite Hg1, Hg2. split; [done|].
  rewrite current_table_body, keys_body. unfold Dict.mem.
  case_bool_decide as Hmem; simpl; [done|].
  split; [done|]. rewrite set_keys. unfold Dict.mem. rewrite bool_decide_eq_false_2 by done.
  apply elem_of_app. right. apply list_elem_of_here.
Qed.

Lemma create_table_qualifier_is_dropped_witness :
  ident "billing" = true ∧ ident "invoice" = true ∧ ends_name " ("
  ∧ statement ["CREATE TABLE billing.invoice ("; "  id integer"; ");"] 0
      ("CREATE TABLE " +:+ "billing" +:+ "." +:+ "invoice" +:+ " (") (new false)
    = statement ["CREATE TABLE billing.invoice ("; "  id integer"; ");"] 0
        ("CREATE TABLE " +:+ "invoice" +:+ " (") (new false)
  ∧ current_table
      (statement ["CREATE TABLE billing.invoice ("; "  id integer"; ");"] 0
         ("CREATE TABLE " +:+ "invoice" +:+ " (") (new false)).2 = Some "invoice"
  ∧ "invoice" ∈ Dict.keys
      (tables (statement ["CREATE TABLE billing.invoice ("; "  id integer"; ");"] 0
                 ("CREATE TABLE " +:+ "invoice" +:+ " (") (new false)).2).
Proof.
  assert (ident "billing" = true) as Hq by reflexivity.
  assert (ident "invoice" = true) as Hw by reflexivity.
  assert (ends_name " (") as Hrest by (split; [reflexivity | discriminate]).
  split; [exact Hq|]. split; [exact Hw|]. split; [exact Hrest|].
  exact (create_table_qualifier_is_dropped
           ["CREATE TABLE billing.invoice ("; "  id integer"; ");"] 0
           "billing" "invoice" " (" (new false) Hq Hw Hrest).
Defined.

End TableNames.

(** ** [ALTER TABLE] statements over two lines *)
Section TwoLines.
Import Str Re Compress.

Lemma startswith_app_text p a b : startswith p a = true → startswith p (a +:+ b) = true.
Proof.
  intros [r Hr]%startswith_true. apply strip_prefix_app in Hr as ->.
  rewrite append_assoc. apply startswith_app.
Qed.

Lemma contains_app_text p a b : contains p a = true → contains p (a +:+ b) = true.
Proof.
  induction a as [|c a IH].
  - simpl. rewrite orb_false_r. intros Hp. apply contains_start.
    by apply (startswith_app_text p "" b).
  - rewrite contains_cons. intros [Hp|Hp]%orb_prop.
    + apply contains_start. by apply startswith_app_text.
    + rewrite append_cons, contains_cons, IH by done. apply orb_true_r.
Qed.

Lemma contains_split p s : contains p s = true → ∃ a b, s = a +:+ p +:+ b.
Proof.
  induction s as [|c s IH].
  - simpl. rewrite orb_false_r. intros [r Hr]%startswith_true.
    apply strip_prefix_app in Hr. by exists "", r.
  - rewrite contains_cons. intros [Hp|Hp]%orb_prop.
    + apply startswith_true in Hp as [r Hr]. apply strip_prefix_app in Hr. by exists "", r.
    + destruct (IH Hp) as (a & b & ->). by exists (String c a), b.
Qed.

Lemma lstrip_by_app p a t :
  clean_start p t → lstrip_by p (a +:+ t) = lstrip_by p a +:+ t.
Proof.
  intros Ht. induction a as [|c a IH].
  - rewrite !append_nil_l. by apply lstrip_by_id.
  - rewrite append_cons. simpl. destruct (p c); [done|]. by rewrite append_cons.
Qed.

(** a word that starts and ends with a character that [strip] keeps is
    found in the stripped text wherever it was in the text *)
Lemma strip_by_split p w a b :
  clean_start p w → tidy p w →
  strip_by p (a +:+ w +:+ b) = lstrip_by p a +:+ w +:+ rstrip_by p b.
Proof.
  intros Hclean Htidy. unfold strip_by.
  rewrite lstrip_by_app by (apply clean_start_app; [apply Htidy | done]).
  rewrite <- !append_assoc. rewrite rstrip_by_app_tidy by (by apply tidy_app). done.
Qed.

Lemma contains_strip w s :
  clean_start is_space w → tidy is_space w →
  contains w s = true → contains w (strip s) = true ∧ tidy is_space (strip s).
Proof.
  intros Hclean Htidy (a & b & ->)%contains_split. unfold strip.
  split.
  - rewrite strip_by_split by done. apply contains_here.
  - split; [apply rstrip_by_idemp|].
    rewrite strip_by_split by done. apply append_nonempty.
    destruct Htidy as [_ Hne]. by destruct w.
Qed.

(** the two physical lines, joined as the parser joins them *)
Definition joined (raw next : string) : string := strip raw +:+ " " +:+ strip next.

Lemma strip_joined raw next :
  startswith "ALTER TABLE" (strip raw) = true → contains "ADD CONSTRAINT" next = true →
  strip (joined raw next) = joined raw next.
Proof.
  intros Hraw Hnext. unfold joined.
  destruct (contains_strip "ADD CONSTRAINT" next) as [_ Htidy]; [done|done|done|].
  apply startswith_true in Hraw as [r Hr]. apply strip_prefix_app in Hr. rewrite Hr.
  apply strip_by_tidy; [done|]. rewrite <- append_assoc. by apply tidy_app.
Qed.

Lemma contains_joined_l p raw next :
  contains p (joined raw next) = false → contains p (strip raw) = false.
Proof.
  intros Hj. destruct (contains p (strip raw)) eqn:Hp; [|done].
  unfold joined in Hj. by rewrite contains_app_text in Hj.
Qed.

(** the statement at an [ALTER TABLE] line that already holds the
    [ADD CONSTRAINT] clause *)
Lemma statement_alter_one_line lines i raw s :
  startswith "ALTER TABLE" (strip raw) = true →
  contains "ADD CONSTRAINT" (strip raw) = true →
  contains "OWNER TO" (strip raw) = false →
  contains "SEQUENCE" (strip raw) && contains "OWNED BY" (strip raw) = false →
  statement lines i raw s = (i, _parse_alter_table_constraint (strip raw) s).
Proof.
  intros Hstart Hadd Howner Hseq. unfold statement, note_owner.
  rewrite Howner, andb_false_r.
  rewrite (startswith_apart "ALTER TABLE" "CREATE TABLE" (strip raw) Hstart) by done.
  rewrite (startswith_apart "ALTER TABLE" "CREATE SEQUENCE" (strip raw) Hstart) by done.
  by rewrite Hseq, Hstart, Hadd.
Qed.

(** An [ALTER TABLE] line without its [ADD CONSTRAINT] clause, followed by
    a line that holds the clause, is parsed as the two lines joined by one
    space, and the second line is consumed. *)
Theorem alter_table_over_two_lines lines i raw next s :
  startswith "ALTER TABLE" (strip raw) = true →
  contains "ADD CONSTRAINT" (strip raw) = false →
  lines !! (i + 1) = Some next →
  contains "ADD CONSTRAINT" next = true →
  contains "OWNER TO" (joined raw next) = false →
  contains "SEQUENCE" (joined raw next) && contains "OWNED BY" (joined raw next) = false →
  statement lines i raw s = (i + 1, _parse_alter_table_constraint (joined raw next) s)
  ∧ ∀ lines' j,
      statement lines' j (joined raw next) s
      = (j, _parse_alter_table_constraint (joined raw next) s).
Proof.
  intros Hstart Hadd Hnext Hclause Howner Hseq. split.
  - unfold statement, note_owner.
    rewrite (contains_joined_l "OWNER TO" raw next Howner), andb_false_r.
    rewrite (startswith_apart "ALTER TABLE" "CREATE TABLE" (strip raw) Hstart) by done.
    rewrite (startswith_apart "ALTER TABLE" "CREATE SEQUENCE" (strip raw) Hstart) by done.
    assert (contains "SEQUENCE" (strip raw) && contains "OWNED BY" (strip raw) = false) as ->.
    { apply andb_false_iff in Hseq as [Hs|Hs]; apply contains_joined_l in Hs; rewrite Hs;
        [done | apply andb_false_r]. }
    rewrite Hstart, Hadd, Hnext, Hclause. done.
  - intros lines' j.
    pose proof (strip_joined raw next Hstart Hclause) as Hstrip.
    rewrite statement_alter_one_line; rewrite Hstrip; try done.
    + by apply startswith_app_text.
    + unfold joined. apply contains_app_r, contains_app_r.
      by apply (contains_strip "ADD CONSTRAINT" next).
Qed.

Definition dumped_key : list string :=
  ["ALTER TABLE ONLY public.t"; "    ADD CONSTRAINT t_pkey PRIMARY KEY (id);"].

Lemma alter_table_over_two_lines_witness :
  startswith "ALTER TABLE" (strip "ALTER TABLE ONLY public.t") = true
  ∧ contains "ADD CONSTRAINT" (strip "ALTER TABLE ONLY public.t") = false
  ∧ dumped_key !! (0 + 1) = Some "    ADD CONSTRAINT t_pkey PRIMARY KEY (id);"
  ∧ contains "ADD CONSTRAINT" "    ADD CONSTRAINT t_pkey PRIMARY KEY (id);" = true
  ∧ statement dumped_key 0 "ALTER TABLE ONLY public.t" (new false)
    = (0 + 1,
       _parse_alter_table_constraint
         (joined "ALTER TABLE ONLY public.t" "    ADD CONSTRAINT t_pkey PRIMARY KEY (id);")
         (new false)).
Proof.
  assert (startswith "ALTER TABLE" (strip "ALTER TABLE ONLY public.t") = true) as H1
    by reflexivity.
  assert (contains "ADD CONSTRAINT" (strip "ALTER TABLE ONLY public.t") = false) as H2
    by reflexivity.
  assert (dumped_key !! (0 + 1) = Some "    ADD CONSTRAINT t_pkey PRIMARY KEY (id);") as H3
    by reflexivity.
  assert (contains "ADD CONSTRAINT" "    ADD CONSTRAINT t_pkey PRIMARY KEY (id);" = true) as H4
    by reflexivity.
  split; [exact H1|]. split; [exact H2|]. split; [exact H3|]. split; [exact H4|].
  exact (proj1 (alter_table_over_two_lines dumped_key 0 _ _ (new false) H1 H2 H3 H4
                  eq_refl eq_refl)).
Defined.

End TwoLines.

(** ** [_simplify_type] on the full spellings *)
Section FullSpellings.
Import Str Re Compress.

Lemma sub_go_nil fuel r repl : match_here r "" = None → sub_go fuel r repl "" = "".
Proof. intros Hr. destruct fuel; [done|]. simpl. by rewrite Hr. Qed.

(** a pattern [prefix\d+\)] that matches its whole text is replaced once *)
Lemma sub_bracketed_digits prefix repl n :
  token is_digit n = true →
  match_here (cat [Lit prefix; Plus is_digit; Lit ")"]) "" = None →
  sub (cat [Lit prefix; Plus is_digit; Lit ")"]) repl (prefix +:+ n +:+ ")") = repl.
Proof.
  intros Hn Hnil. unfold sub. cbn [sub_go].
  assert (match_here (cat [Lit prefix; Plus is_digit; Lit ")"]) (prefix +:+ n +:+ ")")
          = Some (∅, "")) as ->.
  { unfold match_here, cat. rewrite rmatch_seq, rmatch_lit, rmatch_seq.
    erewrite rmatch_plus_token; [done | done | done |]. by rewrite (rmatch_lit ")" ""). }
  by rewrite sub_go_nil, append_nil_r.
Qed.

(** Given the whole type text, [_simplify_type] does collapse the verbose
    spellings, for every length [n]. *)
Theorem simplify_type_full_spellings n :
  token is_digit n = true →
  _simplify_type ("character varying(" +:+ n +:+ ")") = "varchar"
  ∧ _simplify_type ("character(" +:+ n +:+ ")") = "char"
  ∧ _simplify_type "timestamp with time zone" = "timestamptz"
  ∧ _simplify_type "timestamp without time zone" = "timestamp".
Proof.
  intros Hn. split; [|split; [|split; reflexivity]].
  - unfold _simplify_type, re_varchar.
    by rewrite (sub_bracketed_digits "character varying(" "varchar" n Hn).
  - rewrite simplify_type_token.
    + unfold re_char. by rewrite (sub_bracketed_digits "character(" "char" n Hn).
    + rewrite !all_chars_app. apply andb_prop in Hn as [_ Hn].
      rewrite (all_chars_impl is_digit not_space n); [done| |done].
      intros c Hc. unfold not_space. apply negb_true_iff.
      unfold is_digit, in_range in Hc. apply andb_prop in Hc as [Hlo Hhi].
      apply N.leb_le in Hlo, Hhi. unfold is_space, Ascii.is_space.
      destruct c as [[] [] [] [] [] [] [] []]; try done; simpl in *; lia.
Qed.

Lemma simplify_type_full_spellings_witness :
  token is_digit "255" = true
  ∧ _simplify_type ("character varying(" +:+ "255" +:+ ")") = "varchar"
  ∧ _simplify_type ("character(" +:+ "255" +:+ ")") = "char"
  ∧ _simplify_type "timestamp with time zone" = "timestamptz"
  ∧ _simplify_type "timestamp without time zone" = "timestamp".
Proof.
  assert (token is_digit "255" = true) as Hn by reflexivity.
  split; [exact Hn|]. exact (simplify_type_full_spellings "255" Hn).
Defined.

End FullSpellings.

(** ** Constraint statements as [pg_dump] writes them *)
Section Constraints.
Import Str Re Compress.

Lemma match_here_lit_fail l rest x :
  startswith l x = false → match_here (cat (Lit l :: rest)) x = None.
Proof.
  intros Hl.
  assert (strip_prefix l x = None) as Hnone.
  { destruct (strip_prefix l x) as [r|] eqn:Hr; [|done].
    unfold startswith in Hl. rewrite Hr in Hl. by rewrite bool_decide_eq_true_2 in Hl. }
  unfold match_here. destruct rest as [|r rest]; simpl; by rewrite Hnone.
Qed.

(** the search moves on over every position at which the pattern fails *)
Lemma search_skip r pre s :
  (∀ a c b, pre = a +:+ String c b → match_here r (String c b +:+ s) = None) →
  search r (pre +:+ s) = search r s.
Proof.
  induction pre as [|c pre IH]; intros Hpre; [by rewrite append_nil_l|].
  rewrite append_cons. cbn [search]. rewrite <- append_cons.
  rewrite (Hpre "" c pre) by done. apply IH.
  intros a c' b ->. by apply (Hpre (String c a) c' b).
Qed.

Lemma length_app_neq a b : a ≠ "" → a +:+ b ≠ b.
Proof.
  intros Ha Heq. apply (f_equal String.length) in Heq. rewrite length_app in Heq.
  destruct a; [done|]. simpl in Heq. lia.
Qed.

(** a pattern that opens with [l0(] is first met where the text has its
    first bracket *)
Lemma search_after_bracket pre l0 rest more :
  all_chars (is_not "(") pre = true → all_chars (is_not "(") l0 = true →
  search (cat (Lit (l0 +:+ "(") :: rest)) (pre +:+ l0 +:+ "(" +:+ more)
  = search (cat (Lit (l0 +:+ "(") :: rest)) (l0 +:+ "(" +:+ more).
Proof.
  intros Hpre Hl0. apply search_skip. intros a c b ->. apply match_here_lit_fail.
  rewrite <- append_assoc.
  change (l0 +:+ "(") with (l0 +:+ String "(" "").
  change ("(" +:+ more) with (String "(" more).
  rewrite startswith_across; [|done| |by right; eexists].
  - rewrite bool_decide_eq_false_2; [done|]. by apply length_app_neq.
  - rewrite all_chars_app, Hl0, andb_true_r. by apply all_chars_suffix in Hpre.
Qed.

Lemma ident_no_lp s : ident s = true → all_chars (is_not "(") s = true.
Proof. intros Hs. eapply ident_chars; [|done]. intros c. by apply is_word_is_not. Qed.

(** [ALTER TABLE ONLY q.t ADD CONSTRAINT name ], the head of the statement *)
Definition constraint_head (q t name : string) : string :=
  "ALTER TABLE ONLY " +:+ q +:+ "." +:+ t +:+ " ADD CONSTRAINT " +:+ name +:+ " ".

Lemma constraint_head_no_lp q t name :
  ident q = true → ident t = true → ident name = true →
  all_chars (is_not "(") (constraint_head q t name) = true.
Proof.
  intros Hq Ht Hname. unfold constraint_head.
  rewrite !all_chars_app.
  by rewrite (ident_no_lp q), (ident_no_lp t), (ident_no_lp name).
Qed.

Lemma search_alter_table_only q t rest :
  ident q = true → ident t = true → ends_name rest →
  ∃ m, search re_alter_table ("ALTER TABLE ONLY " +:+ q +:+ "." +:+ t +:+ rest) = Some m
       ∧ group_str 2 m = t.
Proof.
  intros Hq Ht Hrest.
  destruct (match_qualified_name 1 2 q t rest ∅ Hq Ht Hrest) as [g' Hm].
  exists (<[2 := t]> g'). split; [|unfold group_str; by rewrite lookup_insert_eq].
  apply (search_here _ _ _ rest). unfold match_here, re_alter_table.
  change (cat (Lit "ALTER TABLE " :: Opt (Lit "ONLY ") :: qualified 1 2))
    with (Seq (Lit "ALTER TABLE ") (Seq (Opt (Lit "ONLY ")) (cat (qualified 1 2)))).
  change ("ALTER TABLE ONLY " +:+ q +:+ "." +:+ t +:+ rest)
    with ("ALTER TABLE " +:+ "ONLY " +:+ q +:+ "." +:+ t +:+ rest).
  rewrite rmatch_seq, rmatch_lit, rmatch_seq, rmatch_opt, rmatch_lit. by rewrite Hm.
Qed.

Lemma search_head_table q t name clause :
  ident q = true → ident t = true →
  ∃ m, search re_alter_table (constraint_head q t name +:+ clause) = Some m
       ∧ group_str 2 m = t.
Proof.
  intros Hq Ht. unfold constraint_head. rewrite !append_assoc.
  by apply search_alter_table_only.
Qed.

Lemma contains_upper_clause kw q t name clause :
  contains kw (upper clause) = true →
  contains kw (upper (constraint_head q t name +:+ clause)) = true.
Proof. intros Hkw. rewrite upper_app. by apply contains_app_r. Qed.

(** A [PRIMARY KEY] statement for a known table appends the constraint,
    with the columns in the order written. *)
Theorem alter_table_primary_key_recorded q t name cols tail s :
  ident q = true → ident t = true → ident name = true →
  cols ≠ [] → Forall (λ c, ident c = true) cols →
  Dict.mem t (tables s) = true →
  _parse_alter_table_constraint
    (constraint_head q t name +:+ "PRIMARY KEY (" +:+ join ", " cols +:+ ")" +:+ tail) s
  = with_tables (Dict.alter (add_constraint (PRIMARY_KEY cols)) t) s.
Proof.
  intros Hq Ht Hname Hne Hcols Hmem. unfold _parse_alter_table_constraint.
  destruct (search_head_table q t name
              ("PRIMARY KEY (" +:+ join ", " cols +:+ ")" +:+ tail) Hq Ht) as (m & -> & ->).
  rewrite Hmem. cbn [negb].
  rewrite contains_upper_clause
    by (rewrite upper_app; by apply (contains_app_text "PRIMARY KEY" "PRIMARY KEY (")).
  assert (search re_primary_key
            (constraint_head q t name +:+ "PRIMARY KEY (" +:+ join ", " cols +:+ ")" +:+ tail)
          = Some (<[1 := join ", " cols]> ∅)) as ->.
  { unfold re_primary_key.
    change "PRIMARY KEY (" with ("PRIMARY KEY " +:+ "(").
    rewrite !append_assoc.
    rewrite <- (append_assoc (constraint_head q t name)).
    rewrite (append_assoc (constraint_head q t name)).
    rewrite (search_after_bracket (constraint_head q t name) "PRIMARY KEY ");
      [|by apply constraint_head_no_lp|reflexivity].
    rewrite <- (append_assoc "PRIMARY KEY ").
    apply (search_bracketed ("PRIMARY KEY " +:+ "(")).
    unfold token. rewrite join_nonempty by done. simpl.
    apply join_all_chars; [done|].
    eapply Forall_impl; [exact Hcols|]. intros c Hc.
    by apply ident_not_rp, andb_prop in Hc as [_ Hc]. }
  unfold group_str. rewrite lookup_insert_eq. simpl.
  by rewrite (proj1 (column_list_join cols Hne Hcols)).
Qed.

Lemma alter_table_primary_key_recorded_witness :
  ident "public" = true ∧ ident "t" = true ∧ ident "t_pkey" = true
  ∧ ["a"; "b"] ≠ [] ∧ Forall (λ c, ident c = true) ["a"; "b"]
  ∧ Dict.mem "t" (tables (with_tables (Dict.set "t" empty_table) (new false))) = true
  ∧ _parse_alter_table_constraint
      (constraint_head "public" "t" "t_pkey"
       +:+ "PRIMARY KEY (" +:+ join ", " ["a"; "b"] +:+ ")" +:+ ";")
      (with_tables (Dict.set "t" empty_table) (new false))
    = with_tables (Dict.alter (add_constraint (PRIMARY_KEY ["a"; "b"])) "t")
        (with_tables (Dict.set "t" empty_table) (new false)).
Proof.
  assert (["a"; "b"] ≠ []) as Hne by discriminate.
  assert (Forall (λ c, ident c = true) ["a"; "b"]) as Hcols by (by repeat constructor).
  split; [reflexivity|]. split; [reflexivity|]. split; [reflexivity|].
  split; [exact Hne|]. split; [exact Hcols|]. split; [reflexivity|].
  exact (alter_table_primary_key_recorded "public" "t" "t_pkey" ["a"; "b"] ";"
           (with_tables (Dict.set "t" empty_table) (new false))
           eq_refl eq_refl eq_refl Hne Hcols eq_refl).
Defined.

(** the statement [... FOREIGN KEY (lcs) REFERENCES rq.rt(rcs)tail] *)
Definition foreign_key_statement (q t name : string) (lcs : list string)
    (rq rt : string) (rcs : list string) (tail : string) : string :=
  constraint_head q t name +:+ "FOREIGN KEY (" +:+ join ", " lcs +:+ ") REFERENCES "
  +:+ rq +:+ "." +:+ rt +:+ "(" +:+ join ", " rcs +:+ ")" +:+ tail.

Lemma idents_not_rp cols :
  cols ≠ [] → Forall (λ c, ident c = true) cols → token not_rp (join ", " cols) = true.
Proof.
  intros Hne Hcols. unfold token. rewrite join_nonempty by done. simpl.
  apply join_all_chars; [done|].
  eapply Forall_impl; [exact Hcols|]. intros c Hc.
  by apply ident_not_rp, andb_prop in Hc as [_ Hc].
Qed.

Lemma search_foreign_key q t name lcs rq rt rcs tail :
  ident q = true → ident t = true → ident name = true →
  lcs ≠ [] → Forall (λ c, ident c = true) lcs →
  ident rq = true → ident rt = true →
  rcs ≠ [] → Forall (λ c, ident c = true) rcs →
  ∃ m, search re_foreign_key (foreign_key_statement q t name lcs rq rt rcs tail) = Some m
       ∧ group_str 1 m = join ", " lcs ∧ group_str 3 m = rt
       ∧ group_str 4 m = join ", " rcs.
Proof.
  intros Hq Ht Hname Hlne Hlcs Hrq Hrt Hrne Hrcs.
  unfold foreign_key_statement, re_foreign_key, qualified. cbn [app].
  change "FOREIGN KEY (" with ("FOREIGN KEY " +:+ "(").
  rewrite (append_assoc "FOREIGN KEY " "(").
  rewrite (search_after_bracket (constraint_head q t name) "FOREIGN KEY ");
    [|by apply constraint_head_no_lp|reflexivity].
  eexists. split.
  - apply (search_here _ _ _ tail). unfold match_here. cbn [cat].
    rewrite <- (append_assoc "FOREIGN KEY " "(").
    rewrite rmatch_seq, rmatch_lit, rmatch_seq.
    eapply rmatch_group_token; [by apply idents_not_rp | by apply stops_rp |].
    rewrite rmatch_seq, rmatch_lit, rmatch_seq, rmatch_opt, rmatch_grp, rmatch_seq.
    erewrite rmatch_plus_token; [reflexivity | done | apply ident_stops_dot |].
    rewrite rmatch_lit, rmatch_seq.
    eapply rmatch_group_token; [done | done |].
    rewrite rmatch_seq, rmatch_lit, rmatch_seq.
    eapply rmatch_group_token; [by apply idents_not_rp | by apply stops_rp |].
    by rewrite rmatch_lit.
  - unfold group_str. split; [|split].
    + by rewrite !lookup_insert_ne, lookup_insert_eq by done.
    + by rewrite lookup_insert_ne, lookup_insert_eq by done.
    + by rewrite lookup_insert_eq.
Qed.

(** A [FOREIGN KEY] statement for a known table appends the constraint:
    both column lists in the order written, the referenced table without
    its schema, and [deferrable] when the word occurs in the statement.
    The statement must not contain the words [PRIMARY KEY], which the
    parser tests first. *)
Theorem alter_table_foreign_key_recorded q t name lcs rq rt rcs tail s :
  ident q = true → ident t = true → ident name = true →
  lcs ≠ [] → Forall (λ c, ident c = true) lcs →
  ident rq = true → ident rt = true →
  rcs ≠ [] → Forall (λ c, ident c = true) rcs →
  Dict.mem t (tables s) = true →
  contains "PRIMARY KEY" (upper (foreign_key_statement q t name lcs rq rt rcs tail)) = false →
  _parse_alter_table_constraint (foreign_key_statement q t name lcs rq rt rcs tail) s
  = debug_print (AddedFK t lcs rt rcs)
      (with_tables
         (Dict.alter
            (add_constraint
               (FOREIGN_KEY lcs rt rcs
                  (contains "DEFERRABLE"
                     (upper (foreign_key_statement q t name lcs rq rt rcs tail)))))
            t) s).
Proof.
  intros Hq Ht Hname Hlne Hlcs Hrq Hrt Hrne Hrcs Hmem Hpk.
  unfold _parse_alter_table_constraint.
  destruct (search_foreign_key q t name lcs rq rt rcs tail) as (fk & Hfk & H1 & H3 & H4);
    try done.
  rewrite Hpk, Hfk, H1, H3, H4.
  unfold foreign_key_statement at 1 2 3.
  destruct (search_head_table q t name
              ("FOREIGN KEY (" +:+ join ", " lcs +:+ ") REFERENCES "
               +:+ rq +:+ "." +:+ rt +:+ "(" +:+ join ", " rcs +:+ ")" +:+ tail) Hq Ht)
    as (m & -> & ->).
  rewrite Hmem. cbn [negb].
  rewrite contains_upper_clause
    by (rewrite upper_app; by apply (contains_app_text "FOREIGN KEY" "FOREIGN KEY (")).
  by rewrite (proj1 (column_list_join lcs Hlne Hlcs)), (proj1 (column_list_join rcs Hrne Hrcs)).
Qed.

Definition order_user_key : string :=
  foreign_key_statement "public" "orders" "orders_user_fk" ["user_id"]
    "public" "users" ["id"] " DEFERRABLE INITIALLY DEFERRED;".

Lemma alter_table_foreign_key_recorded_witness :
  Dict.mem "orders" (tables (with_tables (Dict.set "orders" empty_table) (new false))) = true
  ∧ contains "PRIMARY KEY" (upper order_user_key) = false
  ∧ _parse_alter_table_constraint order_user_key
      (with_tables (Dict.set "orders" empty_table) (new false))
    = debug_print (AddedFK "orders" ["user_id"] "users" ["id"])
        (with_tables
           (Dict.alter
              (add_constraint
                 (FOREIGN_KEY ["user_id"] "users" ["id"]
                    (contains "DEFERRABLE" (upper order_user_key))))
              "orders")
           (with_tables (Dict.set "orders" empty_table) (new false))).
Proof.
  assert (["user_id"] ≠ []) as Hlne by discriminate.
  assert (Forall (λ c, ident c = true) ["user_id"]) as Hlcs by (by repeat constructor).
  assert (["id"] ≠ []) as Hrne by discriminate.
  assert (Forall (λ c, ident c = true) ["id"]) as Hrcs by (by repeat constructor).
  split; [reflexivity|]. split; [reflexivity|].
  exact (alter_table_foreign_key_recorded "public" "orders" "orders_user_fk" ["user_id"]
           "public" "users" ["id"] " DEFERRABLE INITIALLY DEFERRED;"
           (with_tables (Dict.set "orders" empty_table) (new false))
           eq_refl eq_refl eq_refl Hlne Hlcs eq_refl eq_refl Hrne Hrcs eq_refl eq_refl).
Defined.

End Constraints.

(** ** 03_generate_context.py : the counts of [generate_statistics] *)
Module Stats.
Import Str Context.

(** [sum(f(table) for table in self.tables.values())] *)
Definition sum_over (f : table → nat) (s : SchemaContextGenerator) : nat :=
  sum_list (f <$> Dict.values (tables s)).

Definition table_count (s : SchemaContextGenerator) : nat := length (tables s).
Definition total_columns : SchemaContextGenerator → nat :=
  sum_over (λ table, length (columns table)).
Definition total_foreign_keys (s : SchemaContextGenerator) : nat := length (relationships s).
Definition total_required_columns : SchemaContextGenerator → nat := sum_over required_columns.
Definition total_nullable_columns : SchemaContextGenerator → nat := sum_over nullable_columns.
Definition total_unique_constraints : SchemaContextGenerator → nat :=
  sum_over (λ table, length (unique_constraints table)).
Definition total_indexes : SchemaContextGenerator → nat :=
  sum_over (λ table, length (indexes table)).

(** [[(name, len(table['columns'])) for name, table in self.tables.items()]] *)
Definition table_sizes (s : SchemaContextGenerator) : list (string * nat) :=
  (λ p, (p.1, length (columns p.2))) <$> tables s.

(** the primary key analysis *)
Definition tables_with_composite_pk (s : SchemaContextGenerator) : list string :=
  (filter (λ p, 1 < length (primary_keys p.2)) (tables s)).*1.
Definition tables_without_pk (s : SchemaContextGenerator) : list string :=
  (filter (λ p, length (primary_keys p.2) = 0) (tables s)).*1.

(** one entry per foreign key from a table to itself *)
Definition self_referencing_tables (s : SchemaContextGenerator) : list string :=
  from_table <$> filter (λ fk, from_table fk = to_table fk) (relationships s).

End Stats.

(** ** What the compact-notation parser keeps *)
Section ContextModel.
Import Str Re Context.

(** the counters of a table agree with its column list, and its foreign
    keys are relationships that start at the table *)
Definition table_sound (rels : list fk_info) (name : string) (t : table) : Prop :=
  required_columns t + nullable_columns t = total (column_types t)
  ∧ total (column_types t) ≤ length (columns t)
  ∧ Forall (λ fk, from_table fk = name ∧ fk ∈ rels) (foreign_keys t).

Definition model_sound (s : SchemaContextGenerator) : Prop :=
  NoDup (Dict.keys (tables s))
  ∧ Forall (λ p, table_sound (relationships s) p.1 p.2) (tables s)
  ∧ Forall (λ fk, from_table fk ∈ Dict.keys (tables s)) (relationships s).

Definition current_sound (st : SchemaContextGenerator * option string) : Prop :=
  model_sound st.1 ∧ ∀ t, st.2 = Some t → t ∈ Dict.keys (tables st.1).

Lemma alter_Forall {V} (Q Q' : string → V → Prop) f k (d : list (string * V)) :
  (∀ v, Q k v → Q' k (f v)) → (∀ n v, Q n v → Q' n v) →
  Forall (λ p, Q p.1 p.2) d → Forall (λ p, Q' p.1 p.2) (Dict.alter f k d).
Proof.
  intros Hf Hmono. induction 1 as [|[k' v] d Hv Hd IH]; simpl; [done|].
  case_bool_decide as Hk.
  - subst. constructor; [by apply Hf|]. eapply Forall_impl; [exact Hd|].
    intros [n w]. apply Hmono.
  - constructor; [by apply Hmono | done].
Qed.

Lemma set_Forall {V} (Q : string → V → Prop) k v (d : list (string * V)) :
  Q k v → Forall (λ p, Q p.1 p.2) d → Forall (λ p, Q p.1 p.2) (Dict.set k v d).
Proof.
  intros Hv. induction 1 as [|[k' v'] d Hv' Hd IH]; simpl; [by repeat constructor|].
  case_bool_decide; by constructor.
Qed.

Lemma table_sound_empty rels name : table_sound rels name empty_table.
Proof. by repeat split. Qed.

(** an update of one table that touches neither the relationships nor the
    table names *)
Lemma model_sound_alter f k s :
  (∀ t, table_sound (relationships s) k t → table_sound (relationships s) k (f t)) →
  model_sound s → model_sound (with_tables (Dict.alter f k) s).
Proof.
  intros Hf (Hnodup & Htables & Hrels). unfold model_sound. simpl.
  rewrite alter_keys. split; [done|]. split; [|done].
  by apply (alter_Forall (table_sound (relationships s)) (table_sound (relationships s))).
Qed.

Lemma table_sound_pk_column rels name col t :
  table_sound rels name t → table_sound rels name (add_pk_column col t).
Proof.
  intros (Hsum & Hlen & Hfk). unfold table_sound. simpl.
  rewrite total_incr, List.length_app. simpl. repeat split; [lia | lia | done].
Qed.

Lemma table_sound_column_name rels name col t :
  table_sound rels name t → table_sound rels name (add_column_name col t).
Proof.
  intros (Hsum & Hlen & Hfk). unfold table_sound. simpl.
  rewrite List.length_app. simpl. repeat split; [lia | lia | done].
Qed.

Lemma table_sound_counted_column rels name col ty required t :
  table_sound rels name t →
  table_sound rels name (count_column ty required (add_column_name col t)).
Proof.
  intros (Hsum & Hlen & Hfk). unfold table_sound. simpl.
  rewrite total_incr, List.length_app. simpl. destruct required; repeat split; try lia; done.
Qed.

Lemma with_tables_alter_alter f g k s :
  with_tables (Dict.alter g k) (with_tables (Dict.alter f k) s)
  = with_tables (Dict.alter (λ t, g (f t)) k) s.
Proof. unfold with_tables. simpl. by rewrite alter_alter. Qed.

Lemma _parse_column_ok line table_name s :
  model_sound s → model_sound (_parse_column line table_name s).
Proof.
  intros Hs. unfold _parse_column.
  destruct (contains ": PK" (strip line)).
  { apply model_sound_alter; [|done]. intros t. apply table_sound_pk_column. }
  destruct (split_once colon (strip line)) as [before [after|]]; [|done].
  destruct (nonempty (strip after)).
  - destruct (split_ws (strip after)) as [|word words].
    + apply model_sound_alter; [|done]. intros t. apply table_sound_column_name.
    + rewrite with_tables_alter_alter. apply model_sound_alter; [|done].
      intros t. apply table_sound_counted_column.
  - apply model_sound_alter; [|done]. intros t. apply table_sound_column_name.
Qed.

Lemma _parse_foreign_key_ok line table_name s :
  model_sound s → table_name ∈ Dict.keys (tables s) →
  model_sound (_parse_foreign_key line table_name s).
Proof.
  intros (Hnodup & Htables & Hrels) Hin. unfold _parse_foreign_key.
  destruct (search re_fk line) as [m|]; [|done].
  unfold model_sound. simpl. rewrite alter_keys. split; [done|]. split.
  - eapply (alter_Forall (table_sound (relationships s))); [| |exact Htables].
    + intros t (Hsum & Hlen & Hfk). unfold table_sound. simpl.
      split; [done|]. split; [done|]. apply Forall_app. split.
      * eapply Forall_impl; [exact Hfk|]. intros fk [? ?]. split; [done|].
        apply elem_of_app. by left.
      * constructor; [|done]. simpl. split; [done|]. apply elem_of_app. right.
        apply list_elem_of_here.
    + intros n t (Hsum & Hlen & Hfk). split; [done|]. split; [done|].
      eapply Forall_impl; [exact Hfk|]. intros fk [? ?]. split; [done|].
      apply elem_of_app. by left.
  - apply Forall_app. split; [done|]. by constructor.
Qed.

Lemma model_sound_plain f k s :
  (∀ t, columns (f t) = columns t ∧ column_types (f t) = column_types t
        ∧ nullable_columns (f t) = nullable_columns t
        ∧ required_columns (f t) = required_columns t
        ∧ foreign_keys (f t) = foreign_keys t) →
  model_sound s → model_sound (with_tables (Dict.alter f k) s).
Proof.
  intros Hf. apply model_sound_alter. intros t. unfold table_sound.
  destruct (Hf t) as (-> & -> & -> & -> & ->). done.
Qed.

Lemma _parse_unique_constraint_ok line table_name s :
  model_sound s → model_sound (_parse_unique_constraint line table_name s).
Proof.
  intros Hs. unfold _parse_unique_constraint.
  destruct (search re_unique line); [|done]. by apply model_sound_plain.
Qed.

Lemma _parse_primary_key_ok line table_name s :
  model_sound s → model_sound (_parse_primary_key line table_name s).
Proof.
  intros Hs. unfold _parse_primary_key.
  destruct (search re_primary_key line); [|done]. by apply model_sound_plain.
Qed.

Lemma _parse_index_ok line table_name s :
  model_sound s → model_sound (_parse_index line table_name s).
Proof.
  intros Hs. unfold _parse_index.
  destruct (search re_idx line); [|done]. by apply model_sound_plain.
Qed.

Lemma model_sound_new_table name s :
  model_sound s → model_sound (with_tables (Dict.set name empty_table) s).
Proof.
  intros (Hnodup & Htables & Hrels). unfold model_sound. simpl.
  split; [by apply set_NoDup|]. split.
  - apply (set_Forall (table_sound (relationships s))); [apply table_sound_empty | done].
  - eapply Forall_impl; [exact Hrels|]. intros fk Hfk. simpl in Hfk.
    rewrite set_keys. destruct (Dict.mem name (tables s)); [done|].
    apply elem_of_app. by left.
Qed.

Lemma keys_parse_column line t s :
  Dict.keys (tables (_parse_column line t s)) = Dict.keys (tables s).
Proof. unfold _parse_column. repeat case_match; simpl; by rewrite ?alter_keys. Qed.

Lemma keys_parse_foreign_key line t s :
  Dict.keys (tables (_parse_foreign_key line t s)) = Dict.keys (tables s).
Proof. unfold _parse_foreign_key. repeat case_match; simpl; by rewrite ?alter_keys. Qed.

Lemma keys_parse_unique line t s :
  Dict.keys (tables (_parse_unique_constraint line t s)) = Dict.keys (tables s).
Proof. unfold _parse_unique_constraint. repeat case_match; simpl; by rewrite ?alter_keys. Qed.

Lemma keys_parse_primary_key line t s :
  Dict.keys (tables (_parse_primary_key line t s)) = Dict.keys (tables s).
Proof. unfold _parse_primary_key. repeat case_match; simpl; by rewrite ?alter_keys. Qed.

Lemma keys_parse_index line t s :
  Dict.keys (tables (_parse_index line t s)) = Dict.keys (tables s).
Proof. unfold _parse_index. repeat case_match; simpl; by rewrite ?alter_keys. Qed.

Lemma parse_line_ok st line : current_sound st → current_sound (parse_line st line).
Proof.
  destruct st as [s cur]. intros [Hs Hcur]. simpl in *. unfold parse_line.
  destruct (_ || _); [done|].
  destruct (_ && _).
  { split; simpl; [by apply model_sound_new_table|].
    intros t [= <-]. rewrite set_keys. unfold Dict.mem. case_bool_decide; [done|].
    apply elem_of_app. right. apply list_elem_of_here. }
  destruct cur as [t|]; [|done].
  pose proof (Hcur t eq_refl) as Hin.
  repeat case_match; unfold current_sound; simpl;
    rewrite ?keys_parse_column, ?keys_parse_foreign_key, ?keys_parse_unique,
      ?keys_parse_primary_key, ?keys_parse_index;
    (split; [|done]);
    auto using _parse_column_ok, _parse_foreign_key_ok, _parse_unique_constraint_ok,
      _parse_primary_key_ok, _parse_index_ok.
Qed.

Lemma parse_lines_ok lines st :
  current_sound st → current_sound (fold_left parse_line lines st).
Proof.
  revert st. induction lines as [|line lines IH]; intros st Hst; simpl; [done|].
  by apply IH, parse_line_ok.
Qed.

Lemma parse_compressed_schema_ok text : model_sound (parse_compressed_schema text new).
Proof.
  unfold parse_compressed_schema, parse_lines.
  apply parse_lines_ok. split; simpl; [|done].
  split; [constructor|]. split; constructor.
Qed.

Lemma counters_sum (ts : list (string * table)) :
  Forall (λ p, required_columns p.2 + nullable_columns p.2 = total (column_types p.2)
               ∧ total (column_types p.2) ≤ length (columns p.2)) ts →
  sum_list (required_columns <$> Dict.values ts) + sum_list (nullable_columns <$> Dict.values ts)
  ≤ sum_list ((λ table, length (columns table)) <$> Dict.values ts).
Proof.
  unfold Dict.values. induction ts as [|[n t] ts IH]; intros Hts; [done|].
  apply Forall_cons in Hts as [[Hsum Hlen] Hts]. specialize (IH Hts).
  simpl in Hsum, Hlen. rewrite !fmap_cons. cbn [sum_list_with id snd]. lia.
Qed.

(** In every model read from compact text, each table's counters agree:
    the required and the nullable columns together are the columns with a
    counted type, and these are at most the listed columns.  So the
    totals of the statistics obey
    [required + nullable <= columns]. *)
Theorem context_counters_consistent text :
  Forall (λ p, required_columns p.2 + nullable_columns p.2 = total (column_types p.2)
               ∧ total (column_types p.2) ≤ length (columns p.2))
    (tables (parse_compressed_schema text new))
  ∧ Stats.total_required_columns (parse_compressed_schema text new)
    + Stats.total_nullable_columns (parse_compressed_schema text new)
    ≤ Stats.total_columns (parse_compressed_schema text new).
Proof.
  destruct (parse_compressed_schema_ok text) as (_ & Htables & _).
  set (s := parse_compressed_schema text new) in *.
  assert (Forall (λ p, required_columns p.2 + nullable_columns p.2 = total (column_types p.2)
                       ∧ total (column_types p.2) ≤ length (columns p.2)) (tables s)) as Hok.
  { eapply Forall_impl; [exact Htables|]. intros p (? & ? & _). done. }
  split; [done|]. by apply counters_sum.
Qed.

(** In every model read from compact text, the foreign keys stored with a
    table are relationships of the model that start at that table, and
    every relationship starts at a table of the model. *)
Theorem context_foreign_keys_are_relationships text :
  Forall (λ p, Forall (λ fk, from_table fk = p.1
                             ∧ fk ∈ relationships (parse_compressed_schema text new))
                 (foreign_keys p.2))
    (tables (parse_compressed_schema text new))
  ∧ Forall (λ fk, from_table fk ∈ Dict.keys (tables (parse_compressed_schema text new)))
      (relationships (parse_compressed_schema text new)).
Proof.
  destruct (parse_compressed_schema_ok text) as (_ & Htables & Hrels).
  split; [|done]. eapply Forall_impl; [exact Htables|]. by intros p (_ & _ & ?).
Qed.

(** Table names of a model read from compact text are distinct: a table
    header that comes twice gives one table. *)
Theorem context_table_names_unique text :
  NoDup (Dict.keys (tables (parse_compressed_schema text new))).
Proof. by destruct (parse_compressed_schema_ok text) as (? & _ & _). Qed.

End ContextModel.

(** ** [generate_statistics] : the table size analysis *)
Module Ranking.
Import Context.

Section Sort.
Context {A : Type}.
Variable key : A → nat.

(** [l.sort(key=key, reverse=True)] : descending by key, and entries with
    equal keys stay in their original order (Python's sort is stable, also
    with [reverse=True]).  The result of a stable sort does not depend on
    the algorithm; this is insertion sort. *)
Fixpoint insert_desc (x : A) (l : list A) : list A :=
  match l with
  | [] => [x]
  | y :: l' => if decide (key x < key y) then y :: insert_desc x l' else x :: y :: l'
  end.
Definition sort_desc (l : list A) : list A := foldr insert_desc [] l.
End Sort.

(** Python's slices [l[:k]] and [l[k:]] for an integer [k] *)
Definition slice_to {A} (k : Z) (l : list A) : list A :=
  if decide (0 ≤ k)%Z then take (Z.to_nat k) l else take (length l - Z.to_nat (- k)) l.
Definition slice_from {A} (k : Z) (l : list A) : list A :=
  if decide (0 ≤ k)%Z then drop (Z.to_nat k) l else drop (length l - Z.to_nat (- k)) l.

(** [table_sizes] after [table_sizes.sort(key=lambda x: x[1], reverse=True)] *)
Definition sorted_sizes (s : SchemaContextGenerator) : list (string * nat) :=
  sort_desc snd (Stats.table_sizes s).

(** [table_sizes[:max_items]] *)
Definition largest_tables (max_items : Z) (s : SchemaContextGenerator) : list (string * nat) :=
  slice_to max_items (sorted_sizes s).
(** [table_sizes[-max_items:] if len(table_sizes) > max_items else []] *)
Definition smallest_tables (max_items : Z) (s : SchemaContextGenerator)
    : list (string * nat) :=
  if decide (max_items < Z.of_nat (length (sorted_sizes s)))%Z
  then slice_from (- max_items) (sorted_sizes s)
  else [].

End Ranking.

Section Sizes.
Import Context Ranking.

Section Sorting.
Context {A : Type}.
Variable key : A → nat.

(** [x] is not smaller than [y] *)
Definition above (x y : A) : Prop := key y ≤ key x.

Lemma insert_desc_perm x l : insert_desc key x l ≡ₚ x :: l.
Proof.
  induction l as [|y l IH]; simpl; [done|].
  case_decide; [|done]. rewrite IH. apply Permutation_swap.
Qed.

Lemma sort_desc_perm l : sort_desc key l ≡ₚ l.
Proof.
  induction l as [|x l IH]; simpl; [done|]. by rewrite insert_desc_perm, IH.
Qed.

Lemma insert_desc_sorted x l :
  StronglySorted above l → StronglySorted above (insert_desc key x l).
Proof.
  induction 1 as [|y l Hl IH Hy]; simpl; [by repeat constructor|].
  case_decide as Hxy.
  - constructor; [done|]. rewrite insert_desc_perm. constructor; [|done].
    unfold above. lia.
  - constructor; [by constructor|]. constructor; [unfold above; lia|].
    eapply Forall_impl; [exact Hy|]. unfold above. intros z. lia.
Qed.

Lemma sort_desc_sorted l : StronglySorted above (sort_desc key l).
Proof.
  induction l as [|x l IH]; simpl; [constructor|]. by apply insert_desc_sorted.
Qed.

(** stability: the entries with one key keep their order *)
Lemma insert_desc_stable n x l :
  filter (λ y, key y = n) (insert_desc key x l) = filter (λ y, key y = n) (x :: l).
Proof.
  induction l as [|y l IH]; simpl; [done|].
  case_decide as Hxy; [|done].
  rewrite (filter_cons (λ y, key y = n) y), IH, !(filter_cons (λ y, key y = n)).
  repeat case_decide; try done. lia.
Qed.

Lemma sort_desc_stable n l :
  filter (λ y, key y = n) (sort_desc key l) = filter (λ y, key y = n) l.
Proof.
  induction l as [|x l IH]; simpl; [done|].
  rewrite insert_desc_stable, !(filter_cons (λ y, key y = n)), IH. done.
Qed.

Lemma sort_desc_length l : length (sort_desc key l) = length l.
Proof. by rewrite sort_desc_perm. Qed.

End Sorting.

Lemma sorted_sizes_length s : length (sorted_sizes s) = Stats.table_count s.
Proof.
  unfold sorted_sizes, Stats.table_sizes, Stats.table_count.
  by rewrite sort_desc_length, length_fmap.
Qed.

(** [largest_tables] for a limit [k >= 0]: the first [k] entries (all of
    them when there are fewer) of the size list sorted by column count,
    largest first, ties in table order; no table left out is larger than
    a table listed. *)
Theorem largest_tables_sorted (k : nat) s :
  ∃ rest,
    largest_tables (Z.of_nat k) s ++ rest ≡ₚ Stats.table_sizes s
    ∧ length (largest_tables (Z.of_nat k) s) = k `min` Stats.table_count s
    ∧ StronglySorted (above snd) (largest_tables (Z.of_nat k) s)
    ∧ (∀ p q, p ∈ largest_tables (Z.of_nat k) s → q ∈ rest → q.2 ≤ p.2)
    ∧ (∀ n, filter (λ p, p.2 = n) (largest_tables (Z.of_nat k) s ++ rest)
            = filter (λ p, p.2 = n) (Stats.table_sizes s)).
Proof.
  exists (drop k (sorted_sizes s)).
  unfold largest_tables, slice_to. rewrite decide_True by lia. rewrite Nat2Z.id.
  pose proof (sort_desc_sorted snd (Stats.table_sizes s)) as Hsorted.
  fold (sorted_sizes s) in Hsorted.
  rewrite <- (take_drop k (sorted_sizes s)) in Hsorted.
  split; [rewrite take_drop; apply sort_desc_perm|].
  split; [by rewrite length_take, sorted_sizes_length|].
  split; [by apply StronglySorted_app_1_l in Hsorted|].
  split.
  - intros p q Hp Hq. by apply (StronglySorted_app_1_elem_of _ _ _ p q Hsorted).
  - intros n. rewrite take_drop. apply sort_desc_stable.
Qed.

(** The edges of [smallest_tables]: it is empty unless there are more
    tables than the limit; for a limit [0 < k < number of tables] it is the
    last [k] entries of the sorted sizes, still in descending order; and
    for the limit 0 it is the whole sorted list, while [largest_tables]
    is empty. *)
Theorem smallest_tables_edges (max_items : Z) s :
  ((Z.of_nat (Stats.table_count s) ≤ max_items)%Z → smallest_tables max_items s = [])
  ∧ ((0 < max_items < Z.of_nat (Stats.table_count s))%Z →
       ∃ front,
         sorted_sizes s = front ++ smallest_tables max_items s
         ∧ length (smallest_tables max_items s) = Z.to_nat max_items
         ∧ StronglySorted (above snd) (smallest_tables max_items s)
         ∧ ∀ p q, p ∈ front → q ∈ smallest_tables max_items s → q.2 ≤ p.2)
  ∧ (max_items = 0%Z → Stats.table_count s ≠ 0 →
       smallest_tables max_items s = sorted_sizes s ∧ largest_tables max_items s = []).
Proof.
  pose proof (sorted_sizes_length s) as Hlen.
  pose proof (sort_desc_sorted snd (Stats.table_sizes s)) as Hsorted.
  fold (sorted_sizes s) in Hsorted.
  unfold smallest_tables, largest_tables, slice_from, slice_to.
  split; [|split].
  - intros Hle. rewrite decide_False; [done|lia].
  - intros [Hpos Hlt]. rewrite decide_True by lia. rewrite decide_False by lia.
    replace (- - max_items)%Z with max_items by lia.
    set (n := length (sorted_sizes s) - Z.to_nat max_items).
    exists (take n (sorted_sizes s)).
    rewrite <- (take_drop n (sorted_sizes s)) in Hsorted.
    split; [by rewrite take_drop|].
    split; [rewrite length_drop; unfold n; lia|].
    split; [by apply StronglySorted_app_1_r in Hsorted|].
    intros p q Hp Hq. by apply (StronglySorted_app_1_elem_of _ _ _ p q Hsorted).
  - intros -> Hne. rewrite decide_True by lia. simpl.
    rewrite ?decide_True by lia. simpl. by rewrite ?drop_0.
Qed.

Definition three_tables : SchemaContextGenerator :=
  parse_compressed_schema
    (Str.join (String Str.nl "")
       ["a:"; "  x: integer"; ""; "b:"; "  x: integer"; "  y: text"; ""; "c:"; "  x: integer"])
    new.

Lemma smallest_tables_edges_witness :
  (0 < 2 < Z.of_nat (Stats.table_count three_tables))%Z
  ∧ smallest_tables 2 three_tables = [("a", 1); ("c", 1)]
  ∧ largest_tables 2 three_tables = [("b", 2); ("a", 1)]
  ∧ smallest_tables 0 three_tables = sorted_sizes three_tables
  ∧ largest_tables 0 three_tables = [].
Proof.
  assert (0 < 2 < Z.of_nat (Stats.table_count three_tables))%Z as Hk by (vm_compute; done).
  assert (Stats.table_count three_tables ≠ 0) as Hne by (vm_compute; done).
  destruct (proj2 (proj2 (smallest_tables_edges 0 three_tables)) eq_refl Hne) as [Hs Hl].
  split; [exact Hk|]. split; [reflexivity|]. split; [reflexivity|].
  split; [exact Hs | exact Hl].
Defined.

End Sizes.

(** ** [load_settings] : defaults and the user's settings file *)
Module Settings.

Section Values.
(** the JSON values of the settings, left abstract *)
Context {V : Type}.

(** [for key, value in user_settings['context_generation'].items():
       default_settings['context_generation'][key] = value] *)
Definition merge (user defaults : list (string * V)) : list (string * V) :=
  fold_left (λ d p, Dict.set p.1 p.2 d) user defaults.

(** the value of ['context_generation'] in the user's file *)
Inductive section :=
| Absent                                   (* no such key *)
| NotAnObject                              (* [.items()] raises, caught below *)
| Object (items : list (string * V)).

(** what reading the file gave *)
Inductive settings_file :=
| Unreadable                               (* missing, not JSON, or any other error *)
| Parsed (context_generation : section).

(** the settings: top-level sections by name *)
Definition load_settings (file : settings_file) (defaults : list (string * V))
    : list (string * list (string * V)) :=
  match file with
  | Parsed (Object items) => [("context_generation", merge items defaults)]
  | _ => [("context_generation", defaults)]
  end.

End Values.
End Settings.

(** ** cli.py : the steps of [run] *)
Module Cli.

Definition steps : list string :=
  ["extract"; "compress"; "context"; "analysis"; "visuals"; "report"; "html"].

(** [l.index(x)] : [None] is Python's [ValueError] *)
Fixpoint index (x : string) (l : list string) : option nat :=
  match l with
  | [] => None
  | y :: l' => if bool_decide (y = x) then Some 0 else S <$> index x l'
  end.

(** [if steps[i] not in skip: skip += (steps[i],)] *)
Definition skip_step (skip : list string) (step : string) : list string :=
  if bool_decide (step ∈ skip) then skip else skip ++ [step].

(** the tuple [skip] after the [if start_at:] block *)
Definition effective_skip (start_at : option string) (skip : list string) : list string :=
  match start_at with
  | Some name =>
      if Str.nonempty name then
        match index name steps with
        | Some start_index => fold_left skip_step (take start_index steps) skip
        | None => skip
        end
      else skip
  | None => skip
  end.

(** [if step not in skip] : the step runs *)
Definition runs (start_at : option string) (skip : list string) (step : string) : bool :=
  negb (bool_decide (step ∈ effective_skip start_at skip)).

End Cli.

(** ** step_03_generate_context.py : the batches of the AI categorization *)
Module Batches.

(** [range(0, stop, step)] for a positive [step] *)
Definition range_step (stop step : nat) : list nat :=
  (λ j, j * step) <$> seq 0 ((stop + step - 1) / step).

Definition batch_size : nat := 5.

(** [[table_items[i:i + batch_size] for i in range(0, len(table_items), batch_size)]] *)
Definition batches {A} (table_items : list A) : list (list A) :=
  (λ i, take batch_size (drop i table_items)) <$> range_step (length table_items) batch_size.

End Batches.

Section SettingsMerge.
Context {V : Type}.

Lemma get_set_eq k (v : V) d : Dict.get k (Dict.set k v d) = Some v.
Proof.
  induction d as [|[k' v'] d IH]; simpl.
  - by rewrite bool_decide_eq_true_2.
  - case_bool_decide; simpl; [by rewrite bool_decide_eq_true_2|].
    by rewrite bool_decide_eq_false_2.
Qed.

Lemma get_set_ne k k' (v : V) d : k ≠ k' → Dict.get k' (Dict.set k v d) = Dict.get k' d.
Proof.
  intros Hne. induction d as [|[k0 v0] d IH]; simpl.
  - by rewrite bool_decide_eq_false_2.
  - case_bool_decide as Hk0; simpl.
    + subst. by rewrite !bool_decide_eq_false_2.
    + case_bool_decide; [done | exact IH].
Qed.

Lemma get_None k (d : list (string * V)) : Dict.get k d = None ↔ k ∉ Dict.keys d.
Proof.
  induction d as [|[k' v'] d IH]; simpl.
  - split; [intros _; apply not_elem_of_nil | done].
  - case_bool_decide; subst.
    + split; [done|]. intros Hn. exfalso. apply Hn. apply list_elem_of_here.
    + rewrite IH. unfold Dict.keys. simpl. rewrite not_elem_of_cons. naive_solver.
Qed.

Lemma merge_get (user defaults : list (string * V)) k :
  NoDup (Dict.keys user) →
  Dict.get k (Settings.merge user defaults)
  = match Dict.get k user with
    | Some v => Some v
    | None => Dict.get k defaults
    end.
Proof.
  unfold Settings.merge. revert defaults.
  induction user as [|[k' v'] user IH]; intros defaults Hnodup; simpl; [done|].
  apply NoDup_cons in Hnodup as [Hk' Hnodup]. rewrite IH by done.
  change ((k', v').1) with k' in Hk'. apply (get_None k' user) in Hk'.
  case_bool_decide; subst.
  - by rewrite Hk', get_set_eq.
  - destruct (Dict.get k user); [done|]. by rewrite get_set_ne.
Qed.

Lemma merge_keys (user defaults : list (string * V)) :
  Dict.keys defaults `prefix_of` Dict.keys (Settings.merge user defaults).
Proof.
  unfold Settings.merge. revert defaults.
  induction user as [|[k v] user IH]; intros defaults; simpl; [done|].
  etrans; [|apply IH]. rewrite set_keys. destruct (Dict.mem k defaults); [done|].
  by apply prefix_app_r.
Qed.

(** A key given in the user's [context_generation] object replaces the
    default value as a whole (the merge is not deep); a key not given keeps
    its default; the default keys keep their places.  Whatever the file
    holds, the settings have the single section [context_generation]. *)
Theorem load_settings_merge (file : Settings.settings_file) (defaults : list (string * V)) :
  (∀ items k, file = Settings.Parsed (Settings.Object items) → NoDup (Dict.keys items) →
     (Dict.get "context_generation" (Settings.load_settings file defaults)) ≫= Dict.get k
     = match Dict.get k items with
       | Some v => Some v
       | None => Dict.get k defaults
       end)
  ∧ ((∀ items, file ≠ Settings.Parsed (Settings.Object items)) →
       Settings.load_settings file defaults = [("context_generation", defaults)])
  ∧ (∃ merged, Settings.load_settings file defaults = [("context_generation", merged)]
               ∧ Dict.keys defaults `prefix_of` Dict.keys merged)
  ∧ Dict.get "performance" (Settings.load_settings file defaults) = None.
Proof.
  split; [|split; [|split]].
  - intros items k -> Hnodup. simpl. by apply merge_get.
  - intros Hfile. destruct file as [|[| |items]]; try done. by destruct (Hfile items).
  - destruct file as [|[| |items]]; simpl; eexists; (split; [done|]);
      try done. apply merge_keys.
  - by destruct file as [|[| |items]].
Qed.

End SettingsMerge.

Lemma load_settings_merge_witness :
  NoDup (Dict.keys [("max_displayed_items", 3)])
  ∧ (Dict.get "context_generation"
       (Settings.load_settings (Settings.Parsed (Settings.Object [("max_displayed_items", 3)]))
          [("max_displayed_items", 10); ("enable_ai_categorization", 1)]))
    ≫= Dict.get "max_displayed_items"
    = Some 3.
Proof.
  assert (NoDup (Dict.keys [("max_displayed_items", 3)])) as Hnodup.
  { apply NoDup_singleton. }
  split; [exact Hnodup|].
  exact (proj1 (load_settings_merge
                  (Settings.Parsed (Settings.Object [("max_displayed_items", 3)]))
                  [("max_displayed_items", 10); ("enable_ai_categorization", 1)])
           _ "max_displayed_items" eq_refl Hnodup).
Defined.

Section Steps.
Import Cli.

Lemma skip_step_elem skip step x :
  x ∈ skip_step skip step ↔ x ∈ skip ∨ x = step.
Proof.
  unfold skip_step. case_bool_decide.
  - split; [by left | intros [?| ->]; done].
  - rewrite elem_of_app, list_elem_of_singleton. done.
Qed.

Lemma fold_skip_step_elem added skip x :
  x ∈ fold_left skip_step added skip ↔ x ∈ skip ∨ x ∈ added.
Proof.
  revert skip. induction added as [|step added IH]; intros skip; simpl.
  - rewrite elem_of_nil. naive_solver.
  - rewrite IH, skip_step_elem, elem_of_cons. naive_solver.
Qed.

Lemma index_Some x l i : index x l = Some i → l !! i = Some x.
Proof.
  revert i. induction l as [|y l IH]; intros i; simpl; [done|].
  case_bool_decide; subst.
  - by intros [= <-].
  - destruct (index x l) as [j|]; [|done]. simpl. intros [= <-]. simpl. by apply IH.
Qed.

(** With [--start-at], the steps skipped are those skipped by [--skip]
    and those listed before the start step; the start step and the steps
    after it run unless [--skip] names them.  An unknown start step
    changes nothing. *)
Theorem start_at_skips_earlier_steps start_at skip step :
  (step ∈ effective_skip start_at skip ↔
     step ∈ skip
     ∨ ∃ name start_index i,
         start_at = Some name ∧ name ≠ "" ∧ index name steps = Some start_index
         ∧ i < start_index ∧ steps !! i = Some step)
  ∧ (∀ name, start_at = Some name → index name steps = None →
       effective_skip start_at skip = skip)
  ∧ (∀ name start_index i,
       start_at = Some name → index name steps = Some start_index →
       start_index ≤ i → steps !! i = Some step →
       runs start_at skip step = negb (bool_decide (step ∈ skip))).
Proof.
  split; [|split].
  - unfold effective_skip. destruct start_at as [name|]; [|naive_solver].
    destruct (Str.nonempty name) eqn:Hname.
    2: { assert (name = "") as ->.
         { unfold Str.nonempty in Hname. by apply negb_false_iff, bool_decide_eq_true in Hname. }
         naive_solver. }
    destruct (index name steps) as [k|] eqn:Hk; [|naive_solver].
    rewrite fold_skip_step_elem. split.
    + intros [?|Hin]; [by left|]. right. apply list_elem_of_lookup in Hin as [i Hi].
      apply lookup_take_Some in Hi as [Hi Hlt].
      exists name, k, i. repeat split; try done. intros ->. done.
    + intros [?|(name' & k' & i & [= <-] & _ & Hk' & Hlt & Hi)]; [by left|]. right.
      apply list_elem_of_lookup. exists i. apply lookup_take_Some.
      rewrite Hk in Hk'. injection Hk' as <-. done.
  - intros name -> Hnone. unfold effective_skip. rewrite Hnone. by destruct (Str.nonempty name).
  - intros name k i -> Hk Hle Hi. unfold runs. f_equal. apply bool_decide_ext.
    unfold effective_skip. rewrite Hk. destruct (Str.nonempty name); [|done].
    rewrite fold_skip_step_elem. split; [|by left].
    intros [?|Hin]; [done|]. exfalso.
    apply list_elem_of_lookup in Hin as [j Hj]. apply lookup_take_Some in Hj as [Hj Hlt].
    assert (NoDup steps) as Hnodup.
    { apply (bool_decide_unpack (NoDup steps)). by vm_compute. }
    pose proof (NoDup_lookup _ _ _ _ Hnodup Hi Hj). lia.
Qed.

Lemma start_at_skips_earlier_steps_witness :
  runs (Some "context") ["report"] "extract" = false
  ∧ runs (Some "context") ["report"] "context" = negb (bool_decide ("context" ∈ ["report"]))
  ∧ runs (Some "context") ["report"] "report" = false.
Proof.
  split; [reflexivity|]. split; [|reflexivity].
  exact (proj2 (proj2 (start_at_skips_earlier_steps (Some "context") ["report"] "context"))
           "context" 2 2 eq_refl eq_refl (le_n 2) eq_refl).
Defined.

End Steps.

Section Batching.
Import Batches.
Context {A : Type}.

Lemma concat_windows (l : list A) m :
  concat ((λ j, take batch_size (drop (j * batch_size) l)) <$> seq 0 m)
  = take (m * batch_size) l.
Proof.
  induction m as [|m IH]; [done|].
  rewrite seq_S, fmap_app, concat_app, IH. simpl. rewrite app_nil_r.
  rewrite take_take_drop. f_equal. unfold batch_size. lia.
Qed.

(** The batches split the table list in order into groups of five; only
    the last group may be smaller, and no group is empty. *)
Theorem batches_partition (table_items : list A) :
  concat (batches table_items) = table_items
  ∧ length (batches table_items) = (length table_items + 4) / 5
  ∧ Forall (λ batch, 1 ≤ length batch ≤ 5) (batches table_items)
  ∧ (∀ i batch, batches table_items !! i = Some batch →
       S i < length (batches table_items) → length batch = 5).
Proof.
  unfold batches, range_step, batch_size.
  rewrite <- list_fmap_compose. unfold compose.
  split; [|split; [|split]].
  - rewrite (concat_windows table_items). apply take_ge. unfold batch_size.
    pose proof (Nat.div_mod_eq (length table_items + 5 - 1) 5).
    pose proof (Nat.mod_upper_bound (length table_items + 5 - 1) 5). lia.
  - rewrite length_fmap, length_seq. f_equal. lia.
  - apply Forall_fmap, Forall_forall. intros j Hj%elem_of_seq. simpl.
    rewrite length_take, length_drop.
    pose proof (Nat.div_mod_eq (length table_items + 5 - 1) 5).
    pose proof (Nat.mod_upper_bound (length table_items + 5 - 1) 5). lia.
  - intros i batch Hi Hlt. rewrite length_fmap, length_seq in Hlt.
    rewrite list_lookup_fmap in Hi. destruct (seq 0 _ !! i) as [j|] eqn:Hj; [|done].
    apply lookup_seq in Hj as [-> _]. simpl in Hi. injection Hi as <-.
    rewrite length_take, length_drop.
    pose proof (Nat.div_mod_eq (length table_items + 5 - 1) 5).
    pose proof (Nat.mod_upper_bound (length table_items + 5 - 1) 5). lia.
Qed.

End Batching.

(** ** 03_generate_context.py : [_ai_categorize_tables] and [_categorize_tables] *)
Module AiCategories.
Import Str Context.

Definition available_categories : list string :=
  ["business_core"; "auth_security"; "audit_logging"; "integration"; "configuration";
   "user_management"; "content_media"; "financial_commerce"; "communication";
   "analytics_reporting"; "workflow_process"].

(** a value inside the decoded answer, as far as the loop looks at it *)
Inductive answer_value :=
| Text (category : string)
| Atom       (* a number, a Boolean or null: hashable, and no key of [categories] *)
| Compound.  (* a list or an object: [category in categories] raises [TypeError] *)

(** what [json.loads(json_str)] returned *)
Inductive answer :=
| Mapping (items : gmap string answer_value)   (* an object *)
| Listing (elements : list answer_value)       (* an array *)
| Sentence (text : string)                     (* a string *)
| Scalar.                                      (* a number, a Boolean or null *)

(** the outcome of everything before the assignment loop: [NoAnswer] is any
    of the ways to leave early (an import fails, no API key, no prompt file,
    the call raises, the result holds no JSON, or [json.loads] raises) *)
Inductive reply :=
| NoAnswer
| Answer (a : answer).

(** [table_name in ai_categories] and, when that holds,
    [ai_categories[table_name]]; the outer [None] is an exception: [in] on a
    scalar, and subscripting a list or a string with a string, raise
    [TypeError] *)
Definition lookup_answer (a : answer) (table_name : string) : option (option answer_value) :=
  match a with
  | Mapping items => Some (items !! table_name)
  | Listing elements =>
      if existsb (λ e, match e with
                       | Text s => bool_decide (s = table_name)
                       | _ => false
                       end) elements
      then None else Some None
  | Sentence text => if contains table_name text then None else Some None
  | Scalar => None
  end.

(** [categories = {}] and [for category in available_categories:
    categories[category] = []] *)
Definition initial : gmap string (list string) :=
  fold_left (λ m category, <[category := []]> m) available_categories ∅.

(** one round of [for table_name in self.tables.keys()]; [None] is an
    exception *)
Definition assign_step (a : answer) (categories : gmap string (list string))
    (table_name : string) : option (gmap string (list string)) :=
  match lookup_answer a table_name with
  | None => None
  | Some None => Some (append_to "business_core" table_name categories)
  | Some (Some (Text category)) =>
      if bool_decide (is_Some (categories !! category))
      then Some (append_to category table_name categories)
      else Some (append_to "business_core" table_name categories)
  | Some (Some Atom) => Some (append_to "business_core" table_name categories)
  | Some (Some Compound) => None
  end.

Fixpoint assign (a : answer) (names : list string) (categories : gmap string (list string))
    : option (gmap string (list string)) :=
  match names with
  | [] => Some categories
  | table_name :: names' =>
      match assign_step a categories table_name with
      | None => None
      | Some categories' => assign a names' categories'
      end
  end.

(** every exception ends in [return self._fallback_categorize_tables()] *)
Definition _ai_categorize_tables (r : reply) (category_keywords : list (string * list string))
    (s : SchemaContextGenerator) : gmap string (list string) :=
  match r with
  | NoAnswer => _fallback_categorize_tables category_keywords s
  | Answer a =>
      match assign a (Dict.keys (tables s)) initial with
      | Some categories => categories
      | None => _fallback_categorize_tables category_keywords s
      end
  end.

Definition _categorize_tables (enable_ai_categorization : bool) (r : reply)
    (category_keywords : list (string * list string)) (s : SchemaContextGenerator)
    : gmap string (list string) :=
  if enable_ai_categorization then _ai_categorize_tables r category_keywords s
  else _fallback_categorize_tables category_keywords s.

(** the category an object answer files a table under *)
Definition ai_category_of (items : gmap string answer_value) (table_name : string) : string :=
  match items !! table_name with
  | Some (Text category) =>
      if bool_decide (category ∈ available_categories) then category else "business_core"
  | _ => "business_core"
  end.

Definition is_compound (v : option answer_value) : bool :=
  match v with
  | Some Compound => true
  | _ => false
  end.

End AiCategories.

Section AiAssignment.
Import Str Context AiCategories.

Lemma initial_lookup c :
  initial !! c = if decide (c ∈ available_categories) then Some [] else None.
Proof.
  unfold initial.
  assert (∀ ks (m : gmap string (list string)),
            fold_left (λ m category, <[category := []]> m) ks m !! c
            = if decide (c ∈ ks) then Some [] else m !! c) as Hfold.
  { induction ks as [|k ks IH]; intros m; simpl.
    - done.
    - rewrite IH. destruct (decide (c = k)) as [->|Hne].
      + rewrite lookup_insert_eq. repeat case_decide; try done; exfalso; set_solver.
      + rewrite lookup_insert_ne by done. repeat case_decide; try done; set_solver. }
  by rewrite Hfold, lookup_empty.
Qed.

Lemma initial_filed : filed initial = [].
Proof.
  unfold filed. apply (proj2 (concat_nil_Forall _)).
  apply Forall_forall. intros b Hb.
  apply list_elem_of_fmap in Hb as [[c b'] [-> Hin]]. simpl.
  apply elem_of_map_to_list in Hin. rewrite initial_lookup in Hin.
  case_decide; congruence.
Qed.

Lemma assign_step_append a m t m' :
  assign_step a m t = Some m' → ∃ c, m' = append_to c t m.
Proof.
  unfold assign_step. destruct (lookup_answer a t) as [[[c| |]|]|]; try done.
  - case_bool_decide; intros [= <-]; eauto.
  - intros [= <-]; eauto.
  - intros [= <-]; eauto.
Qed.

Lemma assign_filed a names m m' :
  assign a names m = Some m' → filed m' ≡ₚ filed m ++ names.
Proof.
  revert m. induction names as [|t names IH]; intros m; simpl.
  - intros [= <-]. by rewrite app_nil_r.
  - destruct (assign_step a m t) as [m1|] eqn:Hstep; [|done].
    intros Hrest. apply assign_step_append in Hstep as [c ->].
    rewrite (IH _ Hrest), filed_append_to. by rewrite <- (assoc_L (++)).
Qed.

(** the keys of [categories] never change *)
Definition keyed (m : gmap string (list string)) : Prop :=
  ∀ c, is_Some (m !! c) ↔ c ∈ available_categories.

Lemma keyed_initial : keyed initial.
Proof.
  intros c. rewrite initial_lookup. case_decide; split; try done; by intros [? ?].
Qed.

Lemma keyed_append_to c t m : c ∈ available_categories → keyed m → keyed (append_to c t m).
Proof.
  intros Hc Hm c'. unfold append_to. destruct (decide (c = c')) as [<-|Hne].
  - rewrite lookup_insert_eq. split; [done | by eexists].
  - rewrite lookup_insert_ne by done. apply Hm.
Qed.

Lemma ai_category_of_available items t : ai_category_of items t ∈ available_categories.
Proof.
  unfold ai_category_of. destruct (items !! t) as [[c| |]|]; try apply list_elem_of_here.
  case_bool_decide; [done|]. apply list_elem_of_here.
Qed.

Lemma assign_step_mapping items m t :
  keyed m → is_compound (items !! t) = false →
  assign_step (Mapping items) m t = Some (append_to (ai_category_of items t) t m).
Proof.
  intros Hm Hc. unfold assign_step, ai_category_of. simpl.
  destruct (items !! t) as [[c| |]|]; try done.
  destruct (decide (c ∈ available_categories)) as [Hin|Hout].
  - rewrite !bool_decide_eq_true_2; [done|done|by apply Hm].
  - rewrite !bool_decide_eq_false_2; [done|done|]. by intros Hin%Hm.
Qed.

Lemma assign_mapping items names m :
  keyed m → forallb (λ t, negb (is_compound (items !! t))) names = true →
  assign (Mapping items) names m
  = Some (fold_left (λ m t, append_to (ai_category_of items t) t m) names m).
Proof.
  revert m. induction names as [|t names IH]; intros m Hm Hall; simpl; [done|].
  simpl in Hall. apply andb_prop in Hall as [Ht Hall]. apply negb_true_iff in Ht.
  rewrite assign_step_mapping by done. apply IH; [|done].
  apply keyed_append_to; [apply ai_category_of_available | done].
Qed.

Lemma assign_bucket items names (m : gmap string (list string)) c :
  default [] (fold_left (λ m t, append_to (ai_category_of items t) t m) names m !! c)
  = default [] (m !! c) ++ filter (λ t, ai_category_of items t = c) names.
Proof.
  revert m. induction names as [|t names IH]; intros m; simpl.
  - by rewrite app_nil_r.
  - rewrite IH, bucket_append_to, filter_cons.
    rewrite <- (assoc_L (++)). by case_decide.
Qed.

Lemma assign_keeps_keys items names (m : gmap string (list string)) :
  keyed m → keyed (fold_left (λ m t, append_to (ai_category_of items t) t m) names m).
Proof.
  revert m. induction names as [|t names IH]; intros m Hm; simpl; [done|].
  apply IH, keyed_append_to; [apply ai_category_of_available | done].
Qed.

Lemma assign_compound items names m :
  existsb (λ t, is_compound (items !! t)) names = true →
  assign (Mapping items) names m = None.
Proof.
  revert m. induction names as [|t names IH]; intros m Hex; simpl; [done|].
  simpl in Hex. destruct (assign_step (Mapping items) m t) as [m1|] eqn:Hstep; [|done].
  apply IH. destruct (is_compound (items !! t)) eqn:Ht; [|done].
  exfalso. unfold assign_step in Hstep. simpl in Hstep.
  by destruct (items !! t) as [[c| |]|].
Qed.

(** Whatever the model answered, and whether AI categorization is switched
    on or not, the categories returned hold every table exactly as often as
    it occurs among the table names: no answer (malformed, partial, about
    other tables, naming unknown categories) loses or duplicates a table. *)
Theorem categorize_tables_files_every_table enable_ai_categorization r category_keywords s :
  filed (_categorize_tables enable_ai_categorization r category_keywords s)
  ≡ₚ Dict.keys (tables s).
Proof.
  assert (filed (_fallback_categorize_tables category_keywords s) ≡ₚ Dict.keys (tables s))
    as Hfallback.
  { unfold _fallback_categorize_tables.
    by rewrite categorize_filed, initial_categories_filed. }
  unfold _categorize_tables, _ai_categorize_tables.
  destruct enable_ai_categorization; [|done].
  destruct r as [|a]; [done|].
  destruct (assign a (Dict.keys (tables s)) initial) as [m|] eqn:Ha; [|done].
  by rewrite (assign_filed _ _ _ _ Ha), initial_filed.
Qed.

(** An object answer none of whose table entries is a list or an object is
    followed entry by entry: the result has exactly the eleven available
    categories as keys, and each holds, in table order, the tables the
    answer maps to it; a table the answer does not mention, or maps to a
    name outside the available categories or to a non-string, is filed
    under [business_core]. *)
Theorem ai_categorize_follows_answer items category_keywords s c :
  forallb (λ t, negb (is_compound (items !! t))) (Dict.keys (tables s)) = true →
  _ai_categorize_tables (Answer (Mapping items)) category_keywords s !! c
  = if decide (c ∈ available_categories)
    then Some (filter (λ t, ai_category_of items t = c) (Dict.keys (tables s)))
    else None.
Proof.
  intros Hall. unfold _ai_categorize_tables.
  rewrite (assign_mapping items _ initial keyed_initial Hall).
  pose proof (assign_keeps_keys items (Dict.keys (tables s)) initial keyed_initial c) as Hkeys.
  pose proof (assign_bucket items (Dict.keys (tables s)) initial c) as Hbucket.
  rewrite initial_lookup in Hbucket.
  case_decide as Hc.
  - apply Hkeys in Hc as [b Hb]. rewrite Hb in Hbucket |- *. simpl in Hbucket.
    by rewrite Hbucket.
  - apply eq_None_not_Some. by rewrite Hkeys.
Qed.

(** One table entry that is a list or an object discards the whole answer:
    the result is the keyword-based fallback, also for the tables the
    answer categorized properly. *)
Theorem ai_categorize_compound_entry items category_keywords s :
  existsb (λ t, is_compound (items !! t)) (Dict.keys (tables s)) = true →
  _ai_categorize_tables (Answer (Mapping items)) category_keywords s
  = _fallback_categorize_tables category_keywords s.
Proof.
  intros Hex. unfold _ai_categorize_tables. by rewrite assign_compound.
Qed.

Definition two_tables : SchemaContextGenerator :=
  parse_compressed_schema
    (Str.join (String Str.nl "") ["user_log:"; "  x: integer"; ""; "invoice:"; "  x: integer"])
    new.

Lemma ai_categorize_follows_answer_witness :
  _ai_categorize_tables
    (Answer (Mapping (<["user_log" := Text "billing"]> (<["invoice" := Text "financial_commerce"]> ∅))))
    default_fallback_categorization two_tables !! "business_core"
  = Some ["user_log"].
Proof.
  exact (ai_categorize_follows_answer
           (<["user_log" := Text "billing"]> (<["invoice" := Text "financial_commerce"]> ∅))
           default_fallback_categorization two_tables "business_core" eq_refl).
Defined.

Lemma ai_categorize_compound_entry_witness :
  _ai_categorize_tables
    (Answer (Mapping (<["user_log" := Text "audit_logging"]> (<["invoice" := Compound]> ∅))))
    default_fallback_categorization two_tables
  = _fallback_categorize_tables default_fallback_categorization two_tables.
Proof.
  exact (ai_categorize_compound_entry
           (<["user_log" := Text "audit_logging"]> (<["invoice" := Compound]> ∅))
           default_fallback_categorization two_tables eq_refl).
Defined.

End AiAssignment.

(** ** step_03_generate_context.py : [parse_compressed_schema]

    The five [_parse_*] methods are those of 03_generate_context.py, word
    for word; the loop differs in the test that sends a line to
    [_parse_column], and wraps each round in [try ... except Exception].
    No round raises: the only partial operation is [self.tables[table_name]]
    and [current_table] is a key of [self.tables] once it is set. *)
Module ContextStep.
Import Str Re Context.

Definition constraint_openers : list string := ["FK ("; "UNIQUE ("; "IDX ("; "PRIMARY KEY ("].

Definition parse_line (st : SchemaContextGenerator * option string) (original_line : string)
    : SchemaContextGenerator * option string :=
  let '(s, current_table) := st in
  let line := strip original_line in
  if negb (nonempty line) || startswith "--" line then st
  else if endswith ":" line && negb (startswith " " original_line) then
    let name := take (String.length line - 1) line in
    (with_tables (Dict.set name empty_table) s, Some name)
  else
    match current_table with
    | None => st
    | Some t =>
        if startswith "  " original_line && contains ":" line
           && negb (existsb (λ p, startswith p line) constraint_openers)
        then (_parse_column line t s, current_table)
        else if startswith "  FK (" original_line then (_parse_foreign_key line t s, current_table)
        else if startswith "  UNIQUE (" original_line
        then (_parse_unique_constraint line t s, current_table)
        else if startswith "  PRIMARY KEY (" original_line
        then (_parse_primary_key line t s, current_table)
        else if startswith "  IDX (" original_line then (_parse_index line t s, current_table)
        else st
    end.

Definition parse_lines (lines : list string) (s : SchemaContextGenerator)
    : SchemaContextGenerator * option string :=
  fold_left parse_line lines (s, None).

Definition parse_compressed_schema (schema_content : string)
    (s : SchemaContextGenerator) : SchemaContextGenerator :=
  (parse_lines (split_on nl (strip schema_content)) s).1.

End ContextStep.

Section TwoParsers.
Import Str Re Context.

(** the words that keep a line from being a column in 03_generate_context.py,
    each with the opener that does so in step_03_generate_context.py *)
Definition constraint_words : list (string * string) :=
  [("FK", "FK ("); ("UNIQUE", "UNIQUE ("); ("IDX", "IDX ("); ("PRIMARY", "PRIMARY KEY (")].

Definition starts_text (body : string) : bool :=
  match body with
  | "" => true
  | String c _ => negb (is_space c)
  end.

(** a line the two loops treat alike: it has no colon, or is not indented
    by two spaces, or is indented by exactly two and starts with a
    constraint word only where it starts with that word's opener *)
Definition same_dispatch (original_line : string) : bool :=
  negb (contains ":" (strip original_line))
  || match strip_prefix "  " original_line with
     | None => true
     | Some body =>
         starts_text body
         && forallb (λ wo, eqb (startswith wo.1 body) (startswith wo.2 body)) constraint_words
     end.

(** a line indented by two spaces that holds a colon and starts with a
    constraint word, but with no opener *)
Definition keyword_named (original_line : string) : bool :=
  contains ":" (strip original_line)
  && match strip_prefix "  " original_line with
     | None => false
     | Some body =>
         existsb (λ wo, startswith wo.1 body) constraint_words
         && negb (existsb (λ wo, startswith wo.2 body) constraint_words)
     end.

Lemma rstrip_by_prefix p s : ∃ w, s = rstrip_by p s +:+ w.
Proof.
  induction s as [|c s [w IH]]; [by exists ""|]. simpl.
  destruct (rstrip_by p s) as [|d r] eqn:Hr.
  - destruct (p c).
    + by exists (String c s).
    + by exists s.
  - exists w. rewrite append_cons. by rewrite <- IH.
Qed.

Lemma startswith_rstrip p opener body :
  tidy p opener → startswith opener (rstrip_by p body) = startswith opener body.
Proof.
  intros Ht. destruct (startswith opener body) eqn:Hb.
  - apply startswith_true in Hb as [r Hr]. apply strip_prefix_app in Hr as ->.
    rewrite rstrip_by_app_tidy by done. apply startswith_app.
  - destruct (startswith opener (rstrip_by p body)) eqn:Hr; [|done].
    destruct (rstrip_by_prefix p body) as [w Hw].
    rewrite Hw, startswith_app_text in Hb; done.
Qed.

Lemma startswith_indented w body :
  startswith ("  " +:+ w) ("  " +:+ body) = startswith w body.
Proof. rewrite !append_cons, !startswith_cons. by rewrite !bool_decide_eq_true_2. Qed.

Lemma strip_indented body :
  starts_text body = true → strip ("  " +:+ body) = rstrip_by is_space body.
Proof.
  intros Hb. unfold strip, strip_by. f_equal. rewrite !append_cons. simpl.
  destruct body as [|c body]; [done|]. simpl in Hb |- *.
  apply negb_true_iff in Hb. by rewrite Hb.
Qed.

(** the two column tests *)
Definition column_test (original_line : string) : bool :=
  startswith "  " original_line && contains ":" (strip original_line)
  && negb (startswith "  FK" original_line)
  && negb (startswith "  UNIQUE" original_line)
  && negb (startswith "  IDX" original_line)
  && negb (startswith "  PRIMARY" original_line).
Definition column_test_step (original_line : string) : bool :=
  startswith "  " original_line && contains ":" (strip original_line)
  && negb (existsb (λ p, startswith p (strip original_line)) ContextStep.constraint_openers).

Lemma column_test_indented body :
  column_test ("  " +:+ body)
  = contains ":" (strip ("  " +:+ body))
    && negb (existsb (λ wo, startswith wo.1 body) constraint_words).
Proof.
  unfold column_test.
  change "  FK" with ("  " +:+ "FK"). change "  UNIQUE" with ("  " +:+ "UNIQUE").
  change "  IDX" with ("  " +:+ "IDX"). change "  PRIMARY" with ("  " +:+ "PRIMARY").
  rewrite !startswith_indented, startswith_app. simpl.
  destruct (contains ":" _), (startswith "FK" body), (startswith "UNIQUE" body),
    (startswith "IDX" body), (startswith "PRIMARY" body); done.
Qed.

Lemma column_test_step_indented body :
  starts_text body = true →
  column_test_step ("  " +:+ body)
  = contains ":" (strip ("  " +:+ body))
    && negb (existsb (λ wo, startswith wo.2 body) constraint_words).
Proof.
  intros Hb. unfold column_test_step. rewrite startswith_app, strip_indented by done.
  simpl. rewrite !startswith_rstrip; [done|by split..].
Qed.

Lemma starts_text_word body :
  existsb (λ wo, startswith wo.1 body) constraint_words = true → starts_text body = true.
Proof.
  destruct body as [|c body]; [done|]. simpl. rewrite !startswith_cons.
  intros H. repeat (apply orb_prop in H as [H|H]; [apply andb_prop in H as [H%bool_decide_eq_true _]; by subst|]).
  done.
Qed.

Lemma same_dispatch_tests original_line :
  same_dispatch original_line = true →
  column_test_step original_line = column_test original_line.
Proof.
  unfold same_dispatch. intros Hline.
  destruct (contains ":" (strip original_line)) eqn:Hcolon; simpl in Hline; cycle 1.
  { unfold column_test_step, column_test. rewrite Hcolon.
    by rewrite !andb_false_r. }
  destruct (strip_prefix "  " original_line) as [body|] eqn:Hbody; cycle 1.
  { unfold column_test_step, column_test, startswith. rewrite Hbody.
    rewrite bool_decide_eq_false_2; [done|]. by intros [? ?]. }
  apply strip_prefix_app in Hbody as ->.
  apply andb_prop in Hline as [Hstart Hwords].
  rewrite column_test_indented, column_test_step_indented by done.
  f_equal. f_equal. simpl in Hwords |- *.
  repeat (apply andb_prop in Hwords as [?%eqb_prop Hwords]). congruence.
Qed.

Lemma parse_line_tests st original_line :
  column_test_step original_line = column_test original_line →
  ContextStep.parse_line st original_line = parse_line st original_line.
Proof.
  intros Htest. unfold ContextStep.parse_line, parse_line. destruct st as [s current_table].
  fold (column_test original_line). fold (column_test_step original_line).
  by rewrite Htest.
Qed.

Lemma parse_lines_agree lines st :
  forallb same_dispatch lines = true →
  fold_left ContextStep.parse_line lines st = fold_left parse_line lines st.
Proof.
  revert st. induction lines as [|l lines IH]; intros st Hall; simpl; [done|].
  simpl in Hall. apply andb_prop in Hall as [Hl Hall].
  rewrite parse_line_tests by by apply same_dispatch_tests. by apply IH.
Qed.

(** The parser of step_03_generate_context.py builds the same model as the
    one of 03_generate_context.py from every text whose lines are
    dispatched alike: lines without a colon, lines not indented by two
    spaces, and lines indented by exactly two spaces that start with [FK],
    [UNIQUE], [IDX] or [PRIMARY] only as the start of [FK (], [UNIQUE (],
    [IDX (] or [PRIMARY KEY (]. *)
Theorem step_parser_agrees text s :
  forallb same_dispatch (split_on nl (strip text)) = true →
  ContextStep.parse_compressed_schema text s = parse_compressed_schema text s.
Proof.
  intros Hall. unfold ContextStep.parse_compressed_schema, parse_compressed_schema.
  unfold ContextStep.parse_lines, parse_lines. by rewrite parse_lines_agree.
Qed.

Definition orders_text : string :=
  join (String nl "")
    ["-- Schema: shop"; ""; "orders:"; "  id: PK"; "  customer_id: integer NOT NULL";
     "  PRIMARY KEY (id)"; "  FK (customer_id) > customers(id)"; "  IDX (customer_id)"].

Lemma step_parser_agrees_witness :
  forallb same_dispatch (split_on nl (strip orders_text)) = true
  ∧ ContextStep.parse_compressed_schema orders_text new
    = parse_compressed_schema orders_text new.
Proof.
  assert (forallb same_dispatch (split_on nl (strip orders_text)) = true) as H
    by (vm_compute; reflexivity).
  split; [exact H|]. exact (step_parser_agrees orders_text new H).
Defined.

(** Where the two parsers part: a column whose name starts with [FK],
    [UNIQUE], [IDX] or [PRIMARY] (a line indented by two spaces, with a
    colon, that starts with such a word but with none of the four openers)
    is skipped by 03_generate_context.py and parsed as a column by
    step_03_generate_context.py. *)
Theorem step_parser_keeps_keyword_named_columns original_line s t :
  keyword_named original_line = true →
  parse_line (s, Some t) original_line = (s, Some t)
  ∧ ContextStep.parse_line (s, Some t) original_line
    = (_parse_column (strip original_line) t s, Some t).
Proof.
  unfold keyword_named. intros [Hcolon Hline]%andb_prop.
  destruct (strip_prefix "  " original_line) as [body|] eqn:Hbody; [|done].
  apply strip_prefix_app in Hbody as ->.
  apply andb_prop in Hline as [Hword Hopener]. apply negb_true_iff in Hopener.
  pose proof (starts_text_word body Hword) as Hstart.
  pose proof (column_test_indented body) as Htest.
  pose proof (column_test_step_indented body Hstart) as Hstep.
  rewrite Hcolon, Hword in Htest. rewrite Hcolon, Hopener in Hstep. simpl in Htest, Hstep.
  unfold ContextStep.parse_line, parse_line.
  fold (column_test ("  " +:+ body)). fold (column_test_step ("  " +:+ body)).
  rewrite Htest, Hstep.
  assert (negb (nonempty (strip ("  " +:+ body))) || startswith "--" (strip ("  " +:+ body))
          = false) as ->.
  { rewrite strip_indented by done. destruct body as [|c body]; [done|].
    simpl in Hstart. apply negb_true_iff in Hstart.
    destruct (rstrip_by_cons is_space c body Hstart) as [r ->].
    simpl. rewrite startswith_cons. apply andb_false_iff. left.
    apply bool_decide_eq_false. intros <-.
    simpl in Hword. done. }
  assert (startswith " " ("  " +:+ body) = true) as -> by done.
  rewrite andb_false_r.
  change "  FK (" with ("  " +:+ "FK ("). change "  UNIQUE (" with ("  " +:+ "UNIQUE (").
  change "  IDX (" with ("  " +:+ "IDX (").
  change "  PRIMARY KEY (" with ("  " +:+ "PRIMARY KEY (").
  rewrite !startswith_indented. simpl in Hopener.
  apply orb_false_elim in Hopener as [-> Hopener].
  apply orb_false_elim in Hopener as [-> Hopener].
  apply orb_false_elim in Hopener as [-> Hopener].
  apply orb_false_elim in Hopener as [-> _].
  done.
Qed.

Lemma step_parser_keeps_keyword_named_columns_witness :
  keyword_named "  FKey: integer" = true
  ∧ parse_line (parse_compressed_schema "t:" new, Some "t") "  FKey: integer"
    = (parse_compressed_schema "t:" new, Some "t")
  ∧ ContextStep.parse_line (parse_compressed_schema "t:" new, Some "t") "  FKey: integer"
    = (_parse_column "FKey: integer" "t" (parse_compressed_schema "t:" new), Some "t").
Proof.
  assert (keyword_named "  FKey: integer" = true) as H by reflexivity.
  split; [exact H|].
  exact (step_parser_keeps_keyword_named_columns _ (parse_compressed_schema "t:" new) "t" H).
Defined.

End TwoParsers.

(** ** The degrees of the tables *)
Section TableDegrees.
Import Str Context.

Lemma sum_list_fmap_add {A} (g h : A → nat) (l : list A) :
  sum_list ((λ x, g x + h x) <$> l) = sum_list (g <$> l) + sum_list (h <$> l).
Proof.
  induction l as [|x l IH]; [done|]. rewrite !fmap_cons. cbn [sum_list_with].
  rewrite IH. unfold id. lia.
Qed.

Lemma sum_list_indicator (a : string) (ks : list string) :
  NoDup ks →
  sum_list ((λ k, if decide (a = k) then 1 else 0) <$> ks) = if decide (a ∈ ks) then 1 else 0.
Proof.
  induction 1 as [|k ks Hk Hks IH].
  - by rewrite decide_False by apply not_elem_of_nil.
  - rewrite fmap_cons. cbn [sum_list_with]. unfold id at 1. rewrite IH. destruct (decide (a = k)) as [->|Hne].
    + rewrite (decide_False (P := k ∈ ks)) by done.
      by rewrite decide_True by apply list_elem_of_here.
    + destruct (decide (a ∈ ks)) as [Hin|Hout].
      * by rewrite decide_True by by apply list_elem_of_further.
      * rewrite decide_False; [done|]. by intros [?|?]%elem_of_cons.
Qed.

(** over distinct names, the entries counted name by name are the entries
    whose name is in the list *)
Lemma sum_list_filter_lengths {A} (f : A → string) (ks : list string) (l : list A) :
  NoDup ks →
  sum_list ((λ k, length (filter (λ x, f x = k) l)) <$> ks)
  = length (filter (λ x, f x ∈ ks) l).
Proof.
  intros Hks. induction l as [|x l IH].
  - clear Hks. induction ks as [|k ks IHks]; [done|].
    rewrite fmap_cons. cbn [sum_list_with]. by rewrite IHks.
  - rewrite (filter_cons (λ x, f x ∈ ks)).
    transitivity (sum_list ((λ k, (if decide (f x = k) then 1 else 0)
                                  + length (filter (λ x, f x = k) l)) <$> ks)).
    { f_equal. apply list_fmap_ext. intros _ k _.
      rewrite filter_cons. by case_decide. }
    rewrite sum_list_fmap_add, IH, sum_list_indicator by done.
    by case_decide.
Qed.

Lemma length_filter_all {A} (P : A → Prop) `{∀ x, Decision (P x)} (l : list A) :
  length (filter P l) = length l ↔ Forall P l.
Proof.
  induction l as [|x l IH]; [by split|].
  rewrite filter_cons, Forall_cons. pose proof (length_filter P l) as Hle.
  case_decide; simpl.
  - rewrite <- IH. split; [intros [= ?]; by split | by intros [_ ->]].
  - split; [lia | tauto].
Qed.

Definition dangling_target_text : string :=
  join (String nl "") ["orders:"; "  id: PK"; "  FK (customer_id) > customers(id)"].

(** C6 as written does not hold: the targets of foreign keys are never
    checked against the tables, so the model read from a text whose only
    foreign key names a table that is not in the text has one relationship,
    while the in-degrees of its tables add up to 0. *)
Theorem C6_dangling_target_not_counted :
  let s := parse_compressed_schema dangling_target_text new in
  Dict.keys (tables s) = ["orders"]
  ∧ length (relationships s) = 1
  ∧ sum_list ((λ name, count_of name (incoming_fk_counts s)) <$> Dict.keys (tables s)) = 0
  ∧ sum_list ((λ name, count_of name (fk_counts s)) <$> Dict.keys (tables s)) = 1.
Proof. vm_compute. done. Qed.

(** C6 (amended). In every model read from compact text, the in-degree and
    the out-degree computed for a name count the relationships that end,
    respectively start, at it.  The out-degrees of the tables add up to the
    number of relationships.  The in-degrees of the tables add up to the
    number of relationships that end at a table of the model, which is the
    number of relationships exactly when every foreign key references a
    table of the model.  The entries of either degree table, which has an
    entry also for a referenced name that is no table, add up to the number
    of relationships. *)
Theorem C6_degree_invariants text :
  let s := parse_compressed_schema text new in
  let names := Dict.keys (tables s) in
  let in_degree := λ name, count_of name (incoming_fk_counts s) in
  let out_degree := λ name, count_of name (fk_counts s) in
  (∀ name, in_degree name = length (filter (λ fk, to_table fk = name) (relationships s)))
  ∧ (∀ name, out_degree name = length (filter (λ fk, from_table fk = name) (relationships s)))
  ∧ sum_list (out_degree <$> names) = length (relationships s)
  ∧ sum_list (in_degree <$> names)
    = length (filter (λ fk, to_table fk ∈ names) (relationships s))
  ∧ (sum_list (in_degree <$> names) = length (relationships s)
     ↔ Forall (λ fk, to_table fk ∈ names) (relationships s))
  ∧ total (fk_counts s) = length (relationships s)
  ∧ total (incoming_fk_counts s) = length (relationships s).
Proof.
  intros s names in_degree out_degree.
  destruct (parse_compressed_schema_ok text) as (Hnodup & _ & Hfrom).
  fold s in Hnodup, Hfrom. fold names in Hnodup, Hfrom.
  assert (∀ name, in_degree name
                  = length (filter (λ fk, to_table fk = name) (relationships s))) as Hin.
  { intros name. unfold in_degree, incoming_fk_counts, degrees.
    rewrite degrees_tally. simpl. by rewrite tally_count. }
  assert (∀ name, out_degree name
                  = length (filter (λ fk, from_table fk = name) (relationships s))) as Hout.
  { intros name. unfold out_degree, fk_counts, degrees.
    rewrite degrees_tally. simpl. by rewrite tally_count. }
  assert (sum_list (in_degree <$> names)
          = length (filter (λ fk, to_table fk ∈ names) (relationships s))) as Hsum.
  { rewrite <- (sum_list_filter_lengths to_table names) by done.
    f_equal. apply list_fmap_ext. intros _ name _. apply Hin. }
  split; [exact Hin|]. split; [exact Hout|]. split; [|split; [exact Hsum|split; [|split]]].
  - transitivity (length (filter (λ fk, from_table fk ∈ names) (relationships s))).
    + rewrite <- (sum_list_filter_lengths from_table names) by done.
      f_equal. apply list_fmap_ext. intros _ name _. apply Hout.
    + by apply length_filter_all.
  - rewrite Hsum. apply length_filter_all.
  - unfold fk_counts, degrees. rewrite degrees_tally. simpl. by rewrite tally_total.
  - unfold incoming_fk_counts, degrees. rewrite degrees_tally. simpl. by rewrite tally_total.
Qed.

End TableDegrees.

(** ** The foreign key lines in the compact text *)
Section BroadcastLines.
Import Str Re Compress.

Lemma join_elem sep l (output : list string) :
  l ∈ output → ∃ a b, join sep output = a +:+ l +:+ b.
Proof.
  induction output as [|x rest IH]; [by intros ?%elem_of_nil|].
  intros [->|Hin]%elem_of_cons.
  - destruct rest as [|y rest].
    + exists "", "". simpl. by rewrite append_nil_r.
    + exists "", (sep +:+ join sep (y :: rest)). by rewrite join_cons_cons.
  - destruct rest as [|y rest]; [by apply elem_of_nil in Hin|].
    destruct (IH Hin) as (a & b & Heq).
    exists (x +:+ sep +:+ a), b. rewrite join_cons_cons, Heq.
    by rewrite !append_assoc.
Qed.

(** a line of [output] is inside ['\n'.join(output)] *)
Lemma contains_join sep l (output : list string) :
  l ∈ output → contains l (join sep output) = true.
Proof. intros (a & b & ->)%(join_elem sep). apply contains_here. Qed.

Lemma all_constraint_lines_block cs all c :
  all_constraint_lines cs = Some all → c ∈ cs →
  ∃ block before after, constraint_lines c = Some block ∧ all = before ++ block ++ after.
Proof.
  revert all. induction cs as [|c' cs IH]; intros all Hall Hc; [by apply elem_of_nil in Hc|].
  simpl in Hall.
  destruct (constraint_lines c') as [l|] eqn:Hl; [|done]. simpl in Hall.
  destruct (all_constraint_lines cs) as [more|] eqn:Hmore; [|done].
  simpl in Hall. injection Hall as <-.
  apply elem_of_cons in Hc as [->|Hc].
  - exists l, [], more. by split.
  - destruct (IH more eq_refl Hc) as (block & before & after & Hblock & ->).
    exists block, (l ++ before), after. split; [done|]. by rewrite <- (assoc_L (++)).
Qed.

Lemma all_table_lines_block ts body table_name t :
  all_table_lines ts = Some body → (table_name, t) ∈ ts →
  ∃ block before after, table_lines table_name t = Some block ∧ body = before ++ block ++ after.
Proof.
  revert body. induction ts as [|[n t'] ts IH]; intros body Hbody Ht;
    [by apply elem_of_nil in Ht|].
  simpl in Hbody.
  destruct (table_lines n t') as [l|] eqn:Hl; [|done]. simpl in Hbody.
  destruct (all_table_lines ts) as [more|] eqn:Hmore; [|done].
  simpl in Hbody. injection Hbody as <-.
  apply elem_of_cons in Ht as [[= -> ->]|Ht].
  - exists l, [], more. by split.
  - destruct (IH more eq_refl Ht) as (block & before & after & Hblock & ->).
    exists block, (l ++ before), after. split; [done|]. by rewrite <- (assoc_L (++)).
Qed.

(** C9. Serializing any parsed model returns its text.  In a parsed model
    the referenced-column list of a foreign key is never empty, and the
    text returned holds, for every foreign key of every table, one line
    per local column, the lines of one key next to each other in the order
    of the local columns: the line of the local column at position [i]
    names the [i]-th referenced column when there is one and the first
    referenced column otherwise. *)
Theorem C9_fk_broadcast :
  (∀ lines dbg, ∃ s text,
     parse_schema lines (new dbg) = Some s ∧ generate_compressed_schema s = Some text)
  ∧ (∀ lines dbg s table_name t local_cols ref_table ref_columns d,
       parse_schema lines (new dbg) = Some s →
       (table_name, t) ∈ tables s →
       FOREIGN_KEY local_cols ref_table ref_columns d ∈ constraints t →
       ref_columns ≠ []
       ∧ ∃ output before block after,
           generate_compressed_schema s = Some (join newline output)
           ∧ output = before ++ block ++ after
           ∧ length block = length local_cols
           ∧ ∀ i local_col, local_cols !! i = Some local_col →
               ∃ ref_col,
                 ref_columns !! (if bool_decide (i < length ref_columns) then i else 0)
                 = Some ref_col
                 ∧ block !! i = Some (fk_line local_col ref_table ref_col d)
                 ∧ contains (fk_line local_col ref_table ref_col d) (join newline output)
                   = true).
Proof.
  split.
  - intros lines dbg.
    destruct (parse_schema_total lines (new dbg)) as [s Hs]. exists s.
    pose proof (parse_schema_serializable _ _ _ Hs) as Hok.
    unfold generate_compressed_schema, output_lines.
    destruct (all_table_lines_some _ Hok) as [body ->]. simpl. by eexists.
  - intros lines dbg s table_name t local_cols ref_table ref_columns d Hs Ht Hfk.
    pose proof (parse_schema_serializable _ _ _ Hs) as Hok.
    assert (ref_columns ≠ []) as Hne.
    { unfold every_table in Hok. rewrite Forall_forall in Hok.
      specialize (Hok _ Ht). unfold serializable in Hok. simpl in Hok.
      rewrite Forall_forall in Hok. exact (Hok _ Hfk). }
    split; [exact Hne|].
    destruct (all_table_lines_some _ Hok) as [body Hbody].
    destruct (all_table_lines_block _ _ _ _ Hbody Ht) as (tl & b1 & a1 & Htl & ->).
    unfold table_lines in Htl.
    destruct (all_constraint_lines (constraints t)) as [cl|] eqn:Hcl; [|done].
    simpl in Htl. injection Htl as <-.
    destruct (all_constraint_lines_block _ _ _ Hcl Hfk) as (block & b2 & a2 & Hblock & ->).
    simpl in Hblock.
    destruct (fk_lines_some 0 local_cols ref_table ref_columns d Hne)
      as (block' & Hblock' & Hlen & Hlines).
    rewrite Hblock in Hblock'. injection Hblock' as <-.
    set (before := [header s; ""] ++ b1 ++ [table_name +:+ ":"]
                   ++ map (λ '(col_name, c), column_line col_name c) (columns t) ++ b2).
    set (after := a2 ++ map index_line (indexes t) ++ [""] ++ a1).
    exists (before ++ block ++ after), before, block, after.
    split.
    { unfold generate_compressed_schema, output_lines. rewrite Hbody.
      cbn [mbind option_bind]. unfold newline. do 2 f_equal.
      unfold before, after. rewrite <- !(assoc_L (++)). do 2 f_equal. simpl.
      by rewrite <- ?(assoc_L (++)). }
    split; [done|]. split; [done|].
    intros i local_col Hi. destruct (Hlines i local_col Hi) as (ref_col & Hline & Href).
    exists ref_col. split; [exact Href|]. split; [exact Hline|].
    apply contains_join. apply elem_of_app. right. apply elem_of_app. left.
    by eapply list_elem_of_lookup_2.
Qed.

Definition broadcast_dump : list string :=
  ["CREATE TABLE public.a (";
   "    x integer,";
   "    y integer";
   ");";
   "ALTER TABLE ONLY public.a";
   "    ADD CONSTRAINT a_fk FOREIGN KEY (x, y) REFERENCES public.b(id);"].

Definition broadcast_table : table_info :=
  {| columns := [("x", {| col_type := "integer"; not_null := false;
                          default := None; auto_pk := false |});
                 ("y", {| col_type := "integer"; not_null := false;
                          default := None; auto_pk := false |})];
     constraints := [FOREIGN_KEY ["x"; "y"] "b" ["id"] false];
     indexes := [] |}.

Definition broadcast_model : SchemaCompressor :=
  {| tables := [("a", broadcast_table)];
     sequences := [];
     default_owner := None; default_schema := "public"; current_table := Some "a";
     debug := false; printed := [] |}.

(** a key of two local columns that references one column: both lines name
    that column *)
Lemma C9_fk_broadcast_witness :
  parse_schema broadcast_dump (new false) = Some broadcast_model
  ∧ ∃ output before after,
      generate_compressed_schema broadcast_model = Some (join newline output)
      ∧ output = before ++ ["  FK (x) > b(id)"; "  FK (y) > b(id)"] ++ after.
Proof.
  assert (parse_schema broadcast_dump (new false) = Some broadcast_model) as Hs
    by (vm_compute; reflexivity).
  split; [exact Hs|].
  destruct (proj2 C9_fk_broadcast broadcast_dump false broadcast_model "a" broadcast_table
              ["x"; "y"] "b" ["id"] false Hs)
    as (_ & output & before & block & after & Htext & Hout & Hlen & Hlines).
  { apply list_elem_of_here. }
  { apply list_elem_of_here. }
  exists output, before, after. split; [exact Htext|].
  destruct (Hlines 0 "x" eq_refl) as (r0 & Hr0 & Hb0 & _).
  destruct (Hlines 1 "y" eq_refl) as (r1 & Hr1 & Hb1 & _).
  simpl in Hr0, Hr1. injection Hr0 as <-. injection Hr1 as <-.
  destruct block as [|l0 [|l1 [|l2 block]]]; try discriminate Hlen.
  simpl in Hb0, Hb1. injection Hb0 as ->. injection Hb1 as ->.
  exact Hout.
Defined.

End BroadcastLines.
